(** * redis-clients: a shallow embedding of [src/redis.js] and [src/commands.js]

    The module under study is a thin layer over a store client: it caches
    client instances, builds namespaced keys, counts and clears keys by
    pattern, and (de)serialises scalar and hash values.  The development
    follows the source file by file:

    - JavaScript values and the lodash helpers the source calls;
    - the built-ins [JSON.stringify]/[JSON.parse] and the [flat] package, on
      the fragment of values the model represents;
    - [redis.js]: module state, client factories, [key], [count], [clear],
      [info], [reset];
    - [commands.js]: [stringify], [parse], [set], [get], [hmset], [hgetall];
    - a reference store, against which whole operations are run.

    Asynchronous callbacks are continuations: an operation is a tree whose
    nodes are requests to the client and whose leaves are returns, throws
    or invocations of caller-supplied functions. *)

From Stdlib Require Import Ascii String ZArith Bool Lia Arith List.
From Stdlib Require DecimalZ DecimalN DecimalPos DecimalFacts.
Import ListNotations.

Local Open Scope list_scope.

(* ================================================================== *)
(** * JavaScript values *)
(* ================================================================== *)

(** A JavaScript string is a sequence of code units; the model keeps the
    code units below 256. *)
Definition jstr : Type := list ascii.

Definition lit (s : string) : jstr := list_ascii_of_string s.

Definition dq : ascii := "034"%char.         (* the double quote *)
Definition backslash : ascii := "092"%char.

(** Function values.  [Noop] is the module's [const noop = function () {}];
    every other function is supplied by the caller and is opaque: the model
    only records that it is invoked, and with which arguments. *)
Inductive fn : Type :=
| Noop
| User (id : nat).

Unset Elimination Schemes.

(** [VNum n] is the number value of the integer [n]; the model is exact for
    safe integers ([|n| < 2^53]).  [VObj] lists the own enumerable
    properties of a plain object in enumeration order.  [VErr msg status] is
    an [Error] object with message [msg] and, when present, the numeric
    [status] property that [count] attaches. *)
Inductive jsval : Type :=
| VUndef
| VNull
| VBool (b : bool)
| VNum (n : Z)
| VStr (s : jstr)
| VArr (l : list jsval)
| VObj (o : list (jstr * jsval))
| VFun (f : fn)
| VErr (msg : jstr) (status : option Z).

Set Elimination Schemes.

Section ValueInduction.
Variable P : jsval -> Prop.
Hypothesis Hundef : P VUndef.
Hypothesis Hnull : P VNull.
Hypothesis Hbool : forall b, P (VBool b).
Hypothesis Hnum : forall n, P (VNum n).
Hypothesis Hstr : forall s, P (VStr s).
Hypothesis Harr : forall l, Forall P l -> P (VArr l).
Hypothesis Hobj : forall o, Forall (fun kv => P (snd kv)) o -> P (VObj o).
Hypothesis Hfun : forall f, P (VFun f).
Hypothesis Herr : forall m s, P (VErr m s).

Fixpoint jsval_ind (v : jsval) : P v :=
  match v with
  | VUndef => Hundef
  | VNull => Hnull
  | VBool b => Hbool b
  | VNum n => Hnum n
  | VStr s => Hstr s
  | VArr l =>
      Harr l ((fix elems (l : list jsval) : Forall P l :=
                 match l with
                 | [] => Forall_nil _
                 | x :: l' => Forall_cons x (jsval_ind x) (elems l')
                 end) l)
  | VObj o =>
      Hobj o ((fix props (o : list (jstr * jsval))
                 : Forall (fun kv => P (snd kv)) o :=
                 match o with
                 | [] => Forall_nil _
                 | kv :: o' =>
                     Forall_cons (P := fun kv => P (snd kv)) kv
                       (jsval_ind (snd kv)) (props o')
                 end) o)
  | VFun f => Hfun f
  | VErr m s => Herr m s
  end.
End ValueInduction.

(** ** Equality on values *)

Definition jstr_eqb (a b : jstr) : bool :=
  if list_eq_dec ascii_dec a b then true else false.

Definition fn_eqb (f g : fn) : bool :=
  match f, g with
  | Noop, Noop => true
  | User i, User j => Nat.eqb i j
  | _, _ => false
  end.

Definition status_eqb (a b : option Z) : bool :=
  match a, b with
  | None, None => true
  | Some x, Some y => Z.eqb x y
  | _, _ => false
  end.

Fixpoint jsval_eqb (a b : jsval) : bool :=
  match a, b with
  | VUndef, VUndef => true
  | VNull, VNull => true
  | VBool x, VBool y => Bool.eqb x y
  | VNum x, VNum y => Z.eqb x y
  | VStr x, VStr y => jstr_eqb x y
  | VArr l, VArr l' =>
      (fix elems (l l' : list jsval) : bool :=
         match l, l' with
         | [], [] => true
         | x :: l, y :: l' => jsval_eqb x y && elems l l'
         | _, _ => false
         end) l l'
  | VObj o, VObj o' =>
      (fix props (o o' : list (jstr * jsval)) : bool :=
         match o, o' with
         | [], [] => true
         | (k, x) :: o, (k', y) :: o' =>
             jstr_eqb k k' && jsval_eqb x y && props o o'
         | _, _ => false
         end) o o'
  | VFun f, VFun g => fn_eqb f g
  | VErr m s, VErr m' s' => jstr_eqb m m' && status_eqb s s'
  | _, _ => false
  end.

(** ** Conversion to strings *)

Fixpoint uint_chars (d : Decimal.uint) : jstr :=
  match d with
  | Decimal.Nil => []
  | Decimal.D0 d => "0"%char :: uint_chars d
  | Decimal.D1 d => "1"%char :: uint_chars d
  | Decimal.D2 d => "2"%char :: uint_chars d
  | Decimal.D3 d => "3"%char :: uint_chars d
  | Decimal.D4 d => "4"%char :: uint_chars d
  | Decimal.D5 d => "5"%char :: uint_chars d
  | Decimal.D6 d => "6"%char :: uint_chars d
  | Decimal.D7 d => "7"%char :: uint_chars d
  | Decimal.D8 d => "8"%char :: uint_chars d
  | Decimal.D9 d => "9"%char :: uint_chars d
  end.

Definition int_chars (i : Decimal.int) : jstr :=
  match i with
  | Decimal.Pos d => uint_chars d
  | Decimal.Neg d => "-"%char :: uint_chars d
  end.

(** Number to string, for integers: the decimal numeral. *)
Definition decimal (n : Z) : jstr := int_chars (Z.to_int n).

(** Elements joined with a separator between consecutive ones. *)
Fixpoint concat_with (sep : jstr) (l : list jstr) : jstr :=
  match l with
  | [] => []
  | [x] => x
  | x :: l' => x ++ sep ++ concat_with sep l'
  end.

(** What the host platform contributes and the source does not fix: the
    text of caller functions, the identifiers [uuid.v1()] produces, the
    clock behind [Date.now()], and [url.parse]. *)
Record url : Type := {
  protocol : option jstr;            (* a string or [null] *)
  u_port : option jstr;
  hostname : option jstr;
  pathname : option jstr;
  query : list (jstr * jsval);       (* the parsed query string, an object *)
  u_auth : option jstr
}.

Class Host : Type := {
  fn_source : nat -> jstr;   (* [String(f)] of the caller function [f] *)
  uuid_v1 : nat -> jstr;     (* the n-th result of [uuid.v1()] *)
  Date_now : nat -> Z;       (* the n-th reading of [Date.now()] *)
  url_parse : jstr -> url    (* [url.parse(s, true)] *)
}.

Section Values.
Context {hp : Host}.

(** [ToString].  An array converts as [join(',')], in which [undefined]
    and [null] elements contribute the empty string. *)
Fixpoint to_string (v : jsval) : jstr :=
  match v with
  | VUndef => lit "undefined"
  | VNull => lit "null"
  | VBool true => lit "true"
  | VBool false => lit "false"
  | VNum n => decimal n
  | VStr s => s
  | VArr l =>
      concat_with (lit ",")
        (map (fun x => match x with
                       | VUndef | VNull => []
                       | _ => to_string x
                       end) l)
  | VObj _ => lit "[object Object]"
  | VFun Noop => lit "function () {}"
  | VFun (User id) => fn_source id
  | VErr [] _ => lit "Error"
  | VErr msg _ => lit "Error: " ++ msg
  end.

Definition elt_string (x : jsval) : jstr :=
  match x with
  | VUndef | VNull => []
  | _ => to_string x
  end.

(** [Array.prototype.join]. *)
Definition join (sep : jstr) (l : list jsval) : jstr :=
  concat_with sep (map elt_string l).

End Values.

(** ** Predicates and lodash helpers *)

Definition isFunction (v : jsval) : bool :=
  match v with VFun _ => true | _ => false end.

Definition isString (v : jsval) : bool :=
  match v with VStr _ => true | _ => false end.

Definition isNumber (v : jsval) : bool :=
  match v with VNum _ => true | _ => false end.

(** [ToBoolean]: [undefined], [null], [false], [0] and [''] are falsy. *)
Definition truthy (v : jsval) : bool :=
  match v with
  | VUndef | VNull | VBool false | VNum 0 | VStr [] => false
  | _ => true
  end.

(** [_.compact]. *)
Definition compact (l : list jsval) : list jsval := filter truthy l.

(** [[].concat(...args)]: an argument that is an array contributes its
    elements, any other argument contributes itself. *)
Definition concat_args (args : list jsval) : list jsval :=
  flat_map (fun a => match a with VArr l => l | _ => [a] end) args.

(** [_.uniq]: first occurrences, in order.  Primitives and functions are
    compared by value and identity; the model has no identity for arrays
    and objects and compares them by structure. *)
Fixpoint uniq_acc (seen : list jsval) (l : list jsval) : list jsval :=
  match l with
  | [] => []
  | x :: l' =>
      if existsb (jsval_eqb x) seen then uniq_acc seen l'
      else x :: uniq_acc (x :: seen) l'
  end.

Definition uniq (l : list jsval) : list jsval := uniq_acc [] l.

(** [_.last], [_.initial], [_.first]. *)
Definition last_ (l : list jsval) : jsval := last l VUndef.
Definition initial (l : list jsval) : list jsval := removelast l.
Definition first (l : list jsval) : jsval := hd VUndef l.

(** [_.clone]: a shallow copy; functions and [Error] objects are not
    cloneable and yield an empty object. *)
Definition clone (v : jsval) : jsval :=
  match v with
  | VFun _ | VErr _ _ => VObj []
  | _ => v
  end.

(** Property read [o[k]] on a plain object. *)
Fixpoint get_prop (k : jstr) (o : list (jstr * jsval)) : jsval :=
  match o with
  | [] => VUndef
  | (k', x) :: o' => if jstr_eqb k k' then x else get_prop k o'
  end.

(* ================================================================== *)
(** * redis.js: settings and module state *)
(* ================================================================== *)

(** The [redis] entry of the settings when it is an object.  An absent
    property reads [undefined]. *)
Record redis_conf : Type := {
  port : jsval;
  host : jsval;
  socket : jsval;
  db : jsval;
  auth : jsval;
  options : jsval
}.

(** [redis: Object|String]: connection options or a connection string. *)
Inductive redis_setting : Type :=
| RUrl (s : jstr)
| RConf (c : redis_conf).

(** Settings carry the documented types: [prefix: String],
    [separator: String]. *)
Record settings : Type := {
  prefix : jstr;
  separator : jstr;
  redis : redis_setting
}.

Definition empty_conf : redis_conf :=
  {| port := VUndef; host := VUndef; socket := VUndef; db := VUndef;
     auth := VUndef; options := VUndef |}.

(** [const defaults = { prefix: 'r', separator: ':', redis: { port: 6379,
    host: '127.0.0.1' } }]. *)
Definition defaults : settings :=
  {| prefix := lit "r";
     separator := lit ":";
     redis := RConf {| port := VNum 6379; host := VStr (lit "127.0.0.1");
                       socket := VUndef; db := VUndef; auth := VUndef;
                       options := VUndef |} |}.

(** The optional [options] argument of [createClient] and of the package
    entry point: each setting may be absent. *)
Inductive redis_option : Type :=
| ONone
| OUrl (s : jstr)
| OConf (c : redis_conf).

Record opts : Type := {
  o_prefix : option jstr;
  o_separator : option jstr;
  o_redis : redis_option
}.

Definition no_opts : opts :=
  {| o_prefix := None; o_separator := None; o_redis := ONone |}.

(** [_.merge] on settings: a source property that is [undefined] leaves the
    destination untouched, a string replaces, objects merge property by
    property (the nested [options] object is taken as one property). *)
Definition merge_field (dst src : jsval) : jsval :=
  match src with VUndef => dst | _ => src end.

Definition merge_conf (d s : redis_conf) : redis_conf :=
  {| port := merge_field (port d) (port s);
     host := merge_field (host d) (host s);
     socket := merge_field (socket d) (socket s);
     db := merge_field (db d) (db s);
     auth := merge_field (auth d) (auth s);
     options := merge_field (options d) (options s) |}.

Definition merge (d : settings) (o : opts) : settings :=
  {| prefix := match o_prefix o with Some p => p | None => prefix d end;
     separator :=
       match o_separator o with Some p => p | None => separator d end;
     redis :=
       match o_redis o with
       | ONone => redis d
       | OUrl s => RUrl s
       | OConf c =>
           match redis d with
           | RConf dc => RConf (merge_conf dc c)
           | RUrl _ => RConf (merge_conf empty_conf c)
           end
       end |}.

(** A client object of the store library, as far as this module touches
    it: the arguments it was created with, the calls it received, the [_id]
    the module assigns and the [server_info] the library maintains. *)
Record client : Type := {
  connect_to : jsval;          (* [socket || port] *)
  connect_host : jsval;
  connect_options : jsval;
  auth_sent : jsval;           (* argument of [client.auth], if called *)
  selected : jsval;            (* argument of [client.select], if called *)
  _id : jsval;
  quit_calls : nat;
  unsubscribe_calls : nat;
  removeAllListeners_calls : nat;
  server_info : jsval
}.

(** A module-level reference to a client: never assigned, [null], or a
    client object (its address in [heap]). *)
Inductive slot : Type :=
| Unset
| Null
| Ref (c : nat).

Definition slot_truthy (s : slot) : bool :=
  match s with Ref _ => true | _ => false end.

(** The state of the module: its exported mutable properties, the client
    objects allocated so far, and how many readings were taken from
    [uuid.v1()] and [Date.now()]. *)
Record exports : Type := {
  _clients : list nat;
  exports_defaults : settings;
  _client : slot;
  publisher : slot;
  subscriber : slot;
  heap : list client;
  uuids : nat;
  clock : nat
}.

(** The state when the module has just been loaded:
    [exports._clients = []], [exports.defaults = _.merge({}, defaults)]. *)
Definition loaded : exports :=
  {| _clients := []; exports_defaults := defaults; _client := Unset;
     publisher := Unset; subscriber := Unset; heap := []; uuids := 0;
     clock := 0 |}.

Definition with_clients (l : list nat) (e : exports) : exports :=
  {| _clients := l; exports_defaults := exports_defaults e;
     _client := _client e; publisher := publisher e;
     subscriber := subscriber e; heap := heap e; uuids := uuids e;
     clock := clock e |}.

Definition with_defaults (d : settings) (e : exports) : exports :=
  {| _clients := _clients e; exports_defaults := d;
     _client := _client e; publisher := publisher e;
     subscriber := subscriber e; heap := heap e; uuids := uuids e;
     clock := clock e |}.

Definition with_client (s : slot) (e : exports) : exports :=
  {| _clients := _clients e; exports_defaults := exports_defaults e;
     _client := s; publisher := publisher e;
     subscriber := subscriber e; heap := heap e; uuids := uuids e;
     clock := clock e |}.

Definition with_publisher (s : slot) (e : exports) : exports :=
  {| _clients := _clients e; exports_defaults := exports_defaults e;
     _client := _client e; publisher := s;
     subscriber := subscriber e; heap := heap e; uuids := uuids e;
     clock := clock e |}.

Definition with_subscriber (s : slot) (e : exports) : exports :=
  {| _clients := _clients e; exports_defaults := exports_defaults e;
     _client := _client e; publisher := publisher e;
     subscriber := s; heap := heap e; uuids := uuids e;
     clock := clock e |}.

Definition with_heap (h : list client) (e : exports) : exports :=
  {| _clients := _clients e; exports_defaults := exports_defaults e;
     _client := _client e; publisher := publisher e;
     subscriber := subscriber e; heap := h; uuids := uuids e;
     clock := clock e |}.

Definition with_uuids (n : nat) (e : exports) : exports :=
  {| _clients := _clients e; exports_defaults := exports_defaults e;
     _client := _client e; publisher := publisher e;
     subscriber := subscriber e; heap := heap e; uuids := n;
     clock := clock e |}.

Definition with_clock (n : nat) (e : exports) : exports :=
  {| _clients := _clients e; exports_defaults := exports_defaults e;
     _client := _client e; publisher := publisher e;
     subscriber := subscriber e; heap := heap e; uuids := uuids e;
     clock := n |}.

(** ** Synchronous code over the module state *)

(** How a piece of code completes: normally, by throwing, or outside the
    fragment of JavaScript the model represents. *)
Inductive outcome (A : Type) : Type :=
| Val (a : A)
| Exn (e : jsval)
| Beyond.

Arguments Val {A} a.
Arguments Exn {A} e.
Arguments Beyond {A}.

(** State is kept up to the point of a throw, as in JavaScript. *)
Definition M (A : Type) : Type := exports -> outcome A * exports.

Definition ret {A} (a : A) : M A := fun e => (Val a, e).

Definition bind {A B} (m : M A) (k : A -> M B) : M B :=
  fun e =>
    match m e with
    | (Val a, e') => k a e'
    | (Exn x, e') => (Exn x, e')
    | (Beyond, e') => (Beyond, e')
    end.

Definition throw {A} (x : jsval) : M A := fun e => (Exn x, e).

Definition gets {A} (f : exports -> A) : M A := fun e => (Val (f e), e).

Definition modify (f : exports -> exports) : M unit :=
  fun e => (Val tt, f e).

Declare Scope js_scope.
Delimit Scope js_scope with js.
Notation "x <- m ;; k" := (bind m (fun x => k))
  (at level 61, m at next level, right associativity) : js_scope.
Notation "m ;;; k" := (bind m (fun _ => k))
  (at level 61, right associativity) : js_scope.
Local Open Scope js_scope.

(** [when c m]: [if (c) { m }]. *)
Definition when (c : bool) (m : M unit) : M unit :=
  if c then m else ret tt.

Fixpoint forEach {A} (l : list A) (f : A -> M unit) : M unit :=
  match l with
  | [] => ret tt
  | x :: l' => f x ;;; forEach l' f
  end.

(** Replace the element at a position, if there is one. *)
Fixpoint update_nth {A} (n : nat) (f : A -> A) (l : list A) : list A :=
  match l, n with
  | [], _ => []
  | x :: l', O => f x :: l'
  | x :: l', S n' => x :: update_nth n' f l'
  end.

(** A method call or an assignment on the client object at address [c]. *)
Definition on_client (c : nat) (f : client -> client) : M unit :=
  modify (fun e => with_heap (update_nth c f (heap e)) e).

Definition set_id (z : jsval) (c : client) : client :=
  {| connect_to := connect_to c; connect_host := connect_host c;
     connect_options := connect_options c; auth_sent := auth_sent c;
     selected := selected c; _id := z; quit_calls := quit_calls c;
     unsubscribe_calls := unsubscribe_calls c;
     removeAllListeners_calls := removeAllListeners_calls c;
     server_info := server_info c |}.

Definition do_auth (a : jsval) (c : client) : client :=
  {| connect_to := connect_to c; connect_host := connect_host c;
     connect_options := connect_options c; auth_sent := a;
     selected := selected c; _id := _id c; quit_calls := quit_calls c;
     unsubscribe_calls := unsubscribe_calls c;
     removeAllListeners_calls := removeAllListeners_calls c;
     server_info := server_info c |}.

Definition do_select (d : jsval) (c : client) : client :=
  {| connect_to := connect_to c; connect_host := connect_host c;
     connect_options := connect_options c; auth_sent := auth_sent c;
     selected := d; _id := _id c; quit_calls := quit_calls c;
     unsubscribe_calls := unsubscribe_calls c;
     removeAllListeners_calls := removeAllListeners_calls c;
     server_info := server_info c |}.

Definition do_quit (c : client) : client :=
  {| connect_to := connect_to c; connect_host := connect_host c;
     connect_options := connect_options c; auth_sent := auth_sent c;
     selected := selected c; _id := _id c; quit_calls := S (quit_calls c);
     unsubscribe_calls := unsubscribe_calls c;
     removeAllListeners_calls := removeAllListeners_calls c;
     server_info := server_info c |}.

Definition do_unsubscribe (c : client) : client :=
  {| connect_to := connect_to c; connect_host := connect_host c;
     connect_options := connect_options c; auth_sent := auth_sent c;
     selected := selected c; _id := _id c; quit_calls := quit_calls c;
     unsubscribe_calls := S (unsubscribe_calls c);
     removeAllListeners_calls := removeAllListeners_calls c;
     server_info := server_info c |}.

Definition do_removeAllListeners (c : client) : client :=
  {| connect_to := connect_to c; connect_host := connect_host c;
     connect_options := connect_options c; auth_sent := auth_sent c;
     selected := selected c; _id := _id c; quit_calls := quit_calls c;
     unsubscribe_calls := unsubscribe_calls c;
     removeAllListeners_calls := S (removeAllListeners_calls c);
     server_info := server_info c |}.

Definition set_server_info (i : jsval) (c : client) : client :=
  {| connect_to := connect_to c; connect_host := connect_host c;
     connect_options := connect_options c; auth_sent := auth_sent c;
     selected := selected c; _id := _id c; quit_calls := quit_calls c;
     unsubscribe_calls := unsubscribe_calls c;
     removeAllListeners_calls := removeAllListeners_calls c;
     server_info := i |}.

(** [a || b]. *)
Definition or_ (a b : jsval) : jsval := if truthy a then a else b.

Definition of_string (s : option jstr) : jsval :=
  match s with Some x => VStr x | None => VNull end.

(** [auth.replace(/.*?:/, '')]: the leftmost match starts a line (the dot
    does not match a line terminator) and ends at the first colon on it;
    without a colon the string is unchanged. *)
Fixpoint strip_user (line : jstr) (s : jstr) : jstr :=
  match s with
  | [] => rev line
  | c :: s' =>
      if Ascii.eqb c ":"%char then s'
      else if Ascii.eqb c "010"%char || Ascii.eqb c "013"%char
           then rev line ++ c :: strip_user [] s'
           else strip_user (c :: line) s'
  end.

(* ================================================================== *)
(** * Operations as trees of requests *)
(* ================================================================== *)

(** The client methods the module calls. *)
Inductive method : Type :=
| SET | GET | HMSET | HGETALL | KEYS | DEL | EVAL | INFO.

(** A request to the store: one command, or the commands queued on a multi
    object and sent by [exec]. *)
Inductive request : Type :=
| Single (m : method) (args : list jsval)
| Exec (queue : list (method * list jsval)).

(** What an operation does from a point on.  [Invoke f args] returns the
    result of calling the value [f]; [Do m k] runs synchronous code on the
    module state; [Send c r k] issues a request on client [c] with the
    callback [k], which the client calls with [(error, reply)]. *)
Inductive prog : Type :=
| Ret (v : jsval)
| Throw (e : jsval)
| Stuck
| Invoke (f : jsval) (args : list jsval)
| Do {A : Type} (m : M A) (k : A -> prog)
| Send (c : slot) (r : request) (k : jsval -> jsval -> prog).

(* ================================================================== *)
(** * redis.js: client factories, [key], [reset] *)
(* ================================================================== *)

Module redis.
Section Redis.
Context {hp : Host}.

(** [Date.now()]. *)
Definition Date_now_ : M jsval :=
  fun e => (Val (VNum (Date_now (clock e))), with_clock (S (clock e)) e).

(** [uuid.v1()]. *)
Definition uuid_v1_ : M jsval :=
  fun e => (Val (VStr (uuid_v1 (uuids e))), with_uuids (S (uuids e)) e).

(** [redis.createClient(socket || port, host, options)] of the store
    library: a new client object. *)
Definition redis_createClient (to h o : jsval) : M nat :=
  fun e =>
    (Val (length (heap e)),
     with_heap (heap e ++ [{| connect_to := to; connect_host := h;
                              connect_options := o; auth_sent := VUndef;
                              selected := VUndef; _id := VUndef;
                              quit_calls := 0; unsubscribe_calls := 0;
                              removeAllListeners_calls := 0;
                              server_info := VUndef |}]) e).

(** The connection-string branch of [createClient]. *)
Definition of_connection (connection : url) : redis_conf :=
  {| port := or_ (of_string (u_port connection)) (VNum 6379);
     host := of_string (hostname connection);
     socket := VUndef;
     db := or_ (or_ (match pathname connection with
                     | Some p => if truthy (VStr p) then VStr (tl p)
                                 else VNull
                     | None => VNull
                     end)
                    (get_prop (lit "db") (query connection)))
               (VNum 0);
     auth := match u_auth connection with
             | Some a => if truthy (VStr a) then VStr (strip_user [] a)
                         else VUndef
             | None => VUndef
             end;
     options := VObj (query connection) |}.

Definition createClient (options_ : opts) : M nat :=
  (* merge options *)
  d <- gets exports_defaults ;;
  let merged := merge d options_ in
  (* support connection string url *)
  conf <- match redis merged with
          | RUrl s =>
              let connection := url_parse s in
              if negb (jsval_eqb (of_string (protocol connection))
                         (VStr (lit "redis:")))
              then throw (VErr (lit
                "Invalid Connection String. Require redis: protocol") None)
              else ret (of_connection connection)
          | RConf c => ret c
          end ;;
  (* instantiate a redis client *)
  let socket := socket conf in
  let port := if negb (truthy socket) then or_ (port conf) (VNum 6379)
              else VNull in
  let host := if negb (truthy socket)
              then or_ (host conf) (VStr (lit "127.0.0.1"))
              else VNull in
  client <- redis_createClient (or_ socket port) host (options conf) ;;
  (* authenticate *)
  when (truthy (auth conf)) (on_client client (do_auth (auth conf))) ;;;
  (* select database *)
  when (truthy (db conf)) (on_client client (do_select (db conf))) ;;;
  (* remember created client(s) for later safe shutdown *)
  modify (fun e => with_clients ([] ++ _clients e ++ [client]) e) ;;;
  ret client.

(** [exports.pubsub]. *)
Definition pubsub : M (slot * slot) :=
  (* create publisher if not exists *)
  p <- gets publisher ;;
  when (negb (slot_truthy p))
    (c <- createClient no_opts ;;
     modify (with_publisher (Ref c)) ;;;
     now <- Date_now_ ;;
     on_client c (set_id now)) ;;;
  (* create subscriber if not exist *)
  s <- gets subscriber ;;
  when (negb (slot_truthy s))
    (c <- createClient no_opts ;;
     modify (with_subscriber (Ref c)) ;;;
     now <- Date_now_ ;;
     on_client c (set_id now)) ;;;
  (* exports pub/sub clients *)
  p <- gets publisher ;;
  s <- gets subscriber ;;
  ret (p, s).

(** [exports.init = exports.client]. *)
Definition init : M slot :=
  (* initialize normal client *)
  c <- gets _client ;;
  when (negb (slot_truthy c))
    (c <- createClient no_opts ;;
     modify (with_client (Ref c)) ;;;
     now <- Date_now_ ;;
     on_client c (set_id now)) ;;;
  (* initialize publisher and subscriber clients *)
  pubsub ;;;
  (* return a normal redis client *)
  gets _client.

Definition client_ : M slot := init.

(** [exports.multi]: the multi command object of the cached client; it is
    identified with the client it queues commands for. *)
Definition multi : M slot := init.

(** [exports.key]. *)
Definition key (args : list jsval) : M jstr :=
  (* concatenate key is varargs *)
  let key := concat_args args in
  (* ensure key *)
  key <- (if length key =? 0
          then (u <- uuid_v1_ ;; ret (key ++ [u]))
          else ret key) ;;
  d <- gets exports_defaults ;;
  let key := [VStr (prefix d)] ++ key in
  (* join key using separator *)
  ret (join (separator d) key).

(** [exports.reset = exports.quit]. *)
Definition reset : M unit :=
  (* clear subscriptions and listeners *)
  s <- gets subscriber ;;
  match s with
  | Ref s => on_client s do_unsubscribe ;;;
             on_client s do_removeAllListeners
  | _ => ret tt
  end ;;;
  (* quit all clients *)
  l <- gets _clients ;;
  forEach l (fun _client => on_client _client do_quit) ;;;
  (* reset clients *)
  modify (with_client Null) ;;;
  modify (with_publisher Null) ;;;
  modify (with_subscriber Null) ;;;
  (* reset settings *)
  modify (with_defaults defaults) ;;;
  (* reset clients *)
  modify (with_clients []).

Definition quit : M unit := reset.

(** The package entry point, [module.exports = function (options)]: merges
    the options into the settings and initialises the clients. *)
Definition index (options_ : opts) : M unit :=
  modify (fun e => with_defaults (merge (exports_defaults e) options_) e) ;;;
  init ;;;
  ret tt.

(** [exports.info]. *)
Definition info (done : jsval) : prog :=
  (* ensure connection *)
  Do init (fun _ =>
  Do client_ (fun client =>
  Send client (Single INFO []) (fun error _ =>
    Do (c <- gets _client ;;
        match c with
        | Ref c =>
            h <- gets heap ;;
            match nth_error h c with
            | Some o => ret (server_info o)
            | None => ret VUndef
            end
        | _ => throw (VErr (lit "Cannot read property of null") None)
        end)
       (fun server_info => Invoke done [error; server_info])))).

(** The script [count] queues for one pattern:
    [['return #redis.pcall("keys", "', pattern, '")'].join('')]. *)
Definition script_head : jstr :=
  lit "return #redis.pcall(" ++ [dq] ++ lit "keys" ++ [dq] ++ lit ", "
  ++ [dq].

Definition script_tail : jstr := [dq] ++ lit ")".

Definition count_script (pattern : jsval) : jstr :=
  join [] [VStr script_head; pattern; VStr script_tail].

(** [exports.count = exports.size]. *)
Definition count (patterns : list jsval) : prog :=
  (* normalize patterns to array *)
  let patterns := concat_args patterns in
  (* compact and ensure unique patterns *)
  let patterns := uniq (compact patterns) in
  (* obtain callback *)
  let done := last_ patterns in
  (* drop callback if provided *)
  let patterns := if isFunction done then initial patterns else patterns in
  (* ensure patterns to count *)
  if 0 <? length patterns then
    (* get a client *)
    Do multi (fun client =>
    (* count for each pattern, using a lua script *)
    let queue :=
      map (fun pattern => (EVAL, [VStr (count_script pattern); VNum 0]))
        patterns in
    Send client (Exec queue) (fun error count =>
      (* normalize count *)
      match count with
      | VArr l =>
          Invoke done [error; if 1 <? length l then count else first l]
      | _ => if truthy count then Stuck else Invoke done [error; count]
      end))
  (* reply with bad request as no collections specified *)
  else
    let error := VErr (lit "Missing Count Patterns") (Some 400%Z) in
    Invoke done [error].

Definition size : list jsval -> prog := count.

(** [exports.clear]. *)
Definition clear (pattern done : jsval) : prog :=
  (* normalize arguments *)
  let (pattern, done) :=
    if truthy pattern && isFunction pattern then (VUndef, pattern)
    else (pattern, done) in
  (* ensure callback *)
  let done := if negb (truthy done) then VFun Noop else done in
  (* prepare clear all key regex *)
  Do (gets exports_defaults) (fun d =>
  let pattern := compact [VStr (prefix d); pattern] in
  let pattern := if 1 <? length pattern
                 then VStr (join (separator d) pattern)
                 else VArr pattern in
  let pattern := join [] ([pattern] ++ [VStr (lit "*")]) in
  (* ensure client *)
  Do init (fun _ =>
  (* clear data in transaction *)
  Do client_ (fun client =>
  Send client (Single KEYS [VStr pattern]) (fun error keys =>
    (* back-off in case there is error *)
    if truthy error then Invoke done [error]
    (* execute delete using redis multi command *)
    else
      Do multi (fun _client =>
      match keys with
      | VArr l =>
          Send _client (Exec (map (fun key => (DEL, [key])) l))
            (fun error replies => Invoke done [error; replies])
      | VUndef | VNull =>
          Send _client (Exec [])
            (fun error replies => Invoke done [error; replies])
      | _ => Stuck
      end))))).

End Redis.
End redis.

(* ================================================================== *)
(** * The built-ins [JSON.stringify] and [JSON.parse] *)
(* ================================================================== *)

Definition hex_digit (n : nat) : ascii :=
  nth n (lit "0123456789abcdef") "0"%char.

(** [QuoteJSONString], one code unit. *)
Definition quote_char (c : ascii) : jstr :=
  if Ascii.eqb c dq then [backslash; dq]
  else if Ascii.eqb c backslash then [backslash; backslash]
  else match nat_of_ascii c with
       | 8 => [backslash; "b"%char]
       | 9 => [backslash; "t"%char]
       | 10 => [backslash; "n"%char]
       | 12 => [backslash; "f"%char]
       | 13 => [backslash; "r"%char]
       | n => if n <? 32
              then backslash :: lit "u00"
                   ++ [hex_digit (n / 16); hex_digit (n mod 16)]
              else [c]
       end.

Definition quote (s : jstr) : jstr := dq :: flat_map quote_char s ++ [dq].

(** [JSON.stringify(v)]; [None] is the result [undefined].  In an array an
    element without a serialisation prints as [null]; in an object its
    property is left out.  An [Error] object serialises its own enumerable
    properties, which here is [status] when it was attached. *)
Fixpoint JSON_stringify (v : jsval) : option jstr :=
  match v with
  | VUndef => None
  | VFun _ => None
  | VNull => Some (lit "null")
  | VBool true => Some (lit "true")
  | VBool false => Some (lit "false")
  | VNum n => Some (decimal n)
  | VStr s => Some (quote s)
  | VArr l =>
      Some ("["%char ::
            concat_with (lit ",")
              (map (fun x => match JSON_stringify x with
                             | Some t => t
                             | None => lit "null"
                             end) l)
            ++ lit "]")
  | VObj o =>
      Some ("{"%char ::
            concat_with (lit ",")
              (flat_map (fun kv => match JSON_stringify (snd kv) with
                                   | Some t => [quote (fst kv) ++ ":"%char :: t]
                                   | None => []
                                   end) o)
            ++ lit "}")
  | VErr _ None => Some (lit "{}")
  | VErr _ (Some n) =>
      Some ("{"%char :: quote (lit "status") ++ ":"%char :: decimal n
            ++ lit "}")
  end.

(** Results of the parsers: a value and the rest of the text, a syntax
    error, or a text whose value the model does not represent (a number
    that is not a safe integer, a code unit above 255, an object with an
    array-index key). *)
Inductive pres (A : Type) : Type :=
| POk (a : A) (rest : jstr)
| PErr
| PBeyond.

Arguments POk {A} a rest.
Arguments PErr {A}.
Arguments PBeyond {A}.

Definition is_ws (c : ascii) : bool :=
  match nat_of_ascii c with
  | 9 | 10 | 13 | 32 => true
  | _ => false
  end.

Fixpoint skip_ws (s : jstr) : jstr :=
  match s with
  | c :: s' => if is_ws c then skip_ws s' else s
  | [] => []
  end.

Definition is_digit (c : ascii) : bool :=
  (48 <=? nat_of_ascii c) && (nat_of_ascii c <=? 57).

Definition hex_val (c : ascii) : option nat :=
  let n := nat_of_ascii c in
  if (48 <=? n) && (n <=? 57) then Some (n - 48)
  else if (97 <=? n) && (n <=? 102) then Some (n - 87)
  else if (65 <=? n) && (n <=? 70) then Some (n - 55)
  else None.

(** The characters of a string literal after its opening quote, up to and
    including the closing quote. *)
Fixpoint parse_chars (s : jstr) : pres jstr :=
  let cons_ (c : ascii) (r : pres jstr) : pres jstr :=
    match r with
    | POk t rest => POk (c :: t) rest
    | PErr => PErr
    | PBeyond => PBeyond
    end in
  match s with
  | [] => PErr
  | c :: s' =>
      if Ascii.eqb c dq then POk [] s'
      else if Ascii.eqb c backslash then
        match s' with
        | [] => PErr
        | e :: s'' =>
            if Ascii.eqb e dq then cons_ dq (parse_chars s'')
            else if Ascii.eqb e backslash
                 then cons_ backslash (parse_chars s'')
            else if Ascii.eqb e "/"%char then cons_ "/"%char (parse_chars s'')
            else if Ascii.eqb e "b"%char
                 then cons_ (ascii_of_nat 8) (parse_chars s'')
            else if Ascii.eqb e "f"%char
                 then cons_ (ascii_of_nat 12) (parse_chars s'')
            else if Ascii.eqb e "n"%char
                 then cons_ (ascii_of_nat 10) (parse_chars s'')
            else if Ascii.eqb e "r"%char
                 then cons_ (ascii_of_nat 13) (parse_chars s'')
            else if Ascii.eqb e "t"%char
                 then cons_ (ascii_of_nat 9) (parse_chars s'')
            else if Ascii.eqb e "u"%char then
              match s'' with
              | h1 :: h2 :: h3 :: h4 :: s5 =>
                  match hex_val h1, hex_val h2, hex_val h3, hex_val h4 with
                  | Some a, Some b, Some c, Some d =>
                      if (a =? 0) && (b =? 0)
                      then cons_ (ascii_of_nat (16 * c + d)) (parse_chars s5)
                      else PBeyond
                  | _, _, _, _ => PErr
                  end
              | _ => PErr
              end
            else PErr
        end
      else if nat_of_ascii c <? 32 then PErr
      else cons_ c (parse_chars s')
  end.

Fixpoint uint_of_chars (s : jstr) : Decimal.uint :=
  match s with
  | [] => Decimal.Nil
  | c :: s' =>
      let d := uint_of_chars s' in
      match nat_of_ascii c - 48 with
      | 0 => Decimal.D0 d
      | 1 => Decimal.D1 d
      | 2 => Decimal.D2 d
      | 3 => Decimal.D3 d
      | 4 => Decimal.D4 d
      | 5 => Decimal.D5 d
      | 6 => Decimal.D6 d
      | 7 => Decimal.D7 d
      | 8 => Decimal.D8 d
      | _ => Decimal.D9 d
      end
  end.

(** The longest prefix of digits, and what follows it. *)
Fixpoint span_digits (s : jstr) : jstr * jstr :=
  match s with
  | c :: s' =>
      if is_digit c
      then let (ds, r) := span_digits s' in (c :: ds, r)
      else ([], s)
  | [] => ([], [])
  end.

Definition max_safe_integer : Z := 9007199254740991.

(** What follows the digits begins a fraction or an exponent. *)
Definition continues_number (s : jstr) : bool :=
  match s with
  | c :: _ =>
      Ascii.eqb c "."%char || Ascii.eqb c "e"%char || Ascii.eqb c "E"%char
  | [] => false
  end.

(** The digits of a number token, after the sign.  A leading zero before
    another digit is an error; a fraction or an exponent, an integer that
    is not safe, and [-0] denote numbers the model does not represent. *)
Definition digits_token (neg : bool) (s1 : jstr) : pres jsval :=
  let (ds, s2) := span_digits s1 in
  match ds with
  | [] => PErr
  | d :: ds' =>
      if Ascii.eqb d "0"%char && negb (length ds' =? 0) then PErr
      else if continues_number s2 then PBeyond
      else
        let n := Z.of_uint (uint_of_chars ds) in
        if (max_safe_integer <? n)%Z || (neg && (n =? 0)%Z) then PBeyond
        else POk (VNum (if neg then - n else n)%Z) s2
  end.

(** A number token. *)
Definition parse_number (s : jstr) : pres jsval :=
  match s with
  | c :: s' =>
      if Ascii.eqb c "-"%char then digits_token true s'
      else digits_token false s
  | [] => PErr
  end.

(** [starts w s]: the rest of [s] after the prefix [w], if it has it. *)
Fixpoint starts (w s : jstr) : option jstr :=
  match w, s with
  | [], _ => Some s
  | a :: w', b :: s' => if Ascii.eqb a b then starts w' s' else None
  | _ :: _, [] => None
  end.

(** Property write [o[k] = x] on a plain object whose keys are not array
    indices: an existing property keeps its place. *)
Fixpoint set_prop (k : jstr) (x : jsval) (o : list (jstr * jsval))
  : list (jstr * jsval) :=
  match o with
  | [] => [(k, x)]
  | (k', y) :: o' =>
      if jstr_eqb k k' then (k, x) :: o' else (k', y) :: set_prop k x o'
  end.

(** A canonical numeral: as a property key it is (or may be) an array
    index, which objects enumerate first and in ascending order. *)
Definition is_index (k : jstr) : bool :=
  match k with
  | [] => false
  | d :: ds =>
      forallb is_digit k && (negb (Ascii.eqb d "0"%char) || (length ds =? 0))
  end.

Definition lift {A B} (f : A -> B) (r : pres A) : pres B :=
  match r with
  | POk a rest => POk (f a) rest
  | PErr => PErr
  | PBeyond => PBeyond
  end.

(** The object a list of parsed members denotes: a repeated key keeps its
    first place and its last value. *)
Definition object_of (members : list (jstr * jsval)) : list (jstr * jsval) :=
  fold_left (fun o kv => set_prop (fst kv) (snd kv) o) members [].

(** The recursive-descent parser.  [fuel] bounds the nesting and the
    number of elements; a text never needs more than its length allows, and
    running out reads as a text the model does not cover. *)
Fixpoint parse_value (fuel : nat) (s : jstr) : pres jsval :=
  match fuel with
  | O => PBeyond
  | S f =>
      match skip_ws s with
      | [] => PErr
      | c :: s' =>
          if Ascii.eqb c "["%char then
            match skip_ws s' with
            | c' :: r =>
                if Ascii.eqb c' "]"%char then POk (VArr []) r
                else lift VArr (parse_elements f s')
            | [] => PErr
            end
          else if Ascii.eqb c "{"%char then
            match skip_ws s' with
            | c' :: r =>
                if Ascii.eqb c' "}"%char then POk (VObj []) r
                else
                  match parse_members f s' with
                  | POk ms r' =>
                      if existsb is_index (map fst ms) then PBeyond
                      else POk (VObj (object_of ms)) r'
                  | PErr => PErr
                  | PBeyond => PBeyond
                  end
            | [] => PErr
            end
          else if Ascii.eqb c dq then lift VStr (parse_chars s')
          else if Ascii.eqb c "t"%char then
            match starts (lit "rue") s' with
            | Some r => POk (VBool true) r
            | None => PErr
            end
          else if Ascii.eqb c "f"%char then
            match starts (lit "alse") s' with
            | Some r => POk (VBool false) r
            | None => PErr
            end
          else if Ascii.eqb c "n"%char then
            match starts (lit "ull") s' with
            | Some r => POk VNull r
            | None => PErr
            end
          else parse_number (c :: s')
      end
  end

with parse_elements (fuel : nat) (s : jstr) : pres (list jsval) :=
  match fuel with
  | O => PBeyond
  | S f =>
      match parse_value f s with
      | POk v r =>
          match skip_ws r with
          | c :: r' =>
              if Ascii.eqb c ","%char then lift (cons v) (parse_elements f r')
              else if Ascii.eqb c "]"%char then POk [v] r'
              else PErr
          | [] => PErr
          end
      | PErr => PErr
      | PBeyond => PBeyond
      end
  end

with parse_members (fuel : nat) (s : jstr) : pres (list (jstr * jsval)) :=
  match fuel with
  | O => PBeyond
  | S f =>
      match skip_ws s with
      | c :: s1 =>
          if Ascii.eqb c dq then
            match parse_chars s1 with
            | POk k s2 =>
                match skip_ws s2 with
                | c2 :: s3 =>
                    if Ascii.eqb c2 ":"%char then
                      match parse_value f s3 with
                      | POk v r =>
                          match skip_ws r with
                          | c3 :: r' =>
                              if Ascii.eqb c3 ","%char
                              then lift (cons (k, v)) (parse_members f r')
                              else if Ascii.eqb c3 "}"%char
                                   then POk [(k, v)] r'
                                   else PErr
                          | [] => PErr
                          end
                      | PErr => PErr
                      | PBeyond => PBeyond
                      end
                    else PErr
                | [] => PErr
                end
            | PErr => PErr
            | PBeyond => PBeyond
            end
          else PErr
      | [] => PErr
      end
  end.

(** What [JSON.parse(text)] does: returns a value, throws a [SyntaxError],
    or returns a value outside the model. *)
Inductive parsed : Type :=
| Parsed (v : jsval)
| SyntaxError
| Unrepresented.

Definition JSON_parse (text : jstr) : parsed :=
  match parse_value (2 * length text + 2) text with
  | POk v rest =>
      match skip_ws rest with
      | [] => Parsed v
      | _ :: _ => SyntaxError
      end
  | PErr => SyntaxError
  | PBeyond => Unrepresented
  end.

(* ================================================================== *)
(** * [String.prototype.split] and the [flat] package *)
(* ================================================================== *)

Fixpoint split_go (sep : jstr) (skip : nat) (s : jstr) : list jstr :=
  match s with
  | [] => [[]]
  | c :: s' =>
      match skip with
      | S k => split_go sep k s'
      | O =>
          match starts sep s with
          | Some _ => [] :: split_go sep (length sep - 1) s'
          | None =>
              match split_go sep 0 s' with
              | h :: t => (c :: h) :: t
              | [] => [[c]]
              end
          end
      end
  end.

(** [s.split(sep)] for a string separator: the pieces between consecutive
    occurrences of [sep], found left to right; with the empty separator,
    the code units of [s]. *)
Definition split (sep s : jstr) : list jstr :=
  match sep with
  | [] => map (fun c => [c]) s
  | _ :: _ => split_go sep 0 s
  end.

(** Keys on which reading or writing a property of a plain object does not
    behave as on an association list: names of [Object.prototype]
    members. *)
Definition inherited_names : list jstr :=
  map lit ["__proto__"; "constructor"; "hasOwnProperty"; "isPrototypeOf";
           "propertyIsEnumerable"; "toLocaleString"; "toString"; "valueOf";
           "__defineGetter__"; "__defineSetter__"; "__lookupGetter__";
           "__lookupSetter__"]%string.

Definition is_inherited (k : jstr) : bool := existsb (jstr_eqb k) inherited_names.

Definition is_space (c : ascii) : bool :=
  match nat_of_ascii c with
  | 9 | 10 | 11 | 12 | 13 | 32 | 160 => true
  | _ => false
  end.

(** A necessary condition for [Number(k)] not to be [NaN]: [k] is empty or
    begins with white space, a digit, a sign, a dot or [Infinity]. *)
Definition maybe_numeric (k : jstr) : bool :=
  match k with
  | [] => true
  | c :: _ =>
      is_space c || is_digit c || Ascii.eqb c "+"%char
      || Ascii.eqb c "-"%char || Ascii.eqb c "."%char
      || match starts (lit "Infinity") k with Some _ => true | None => false end
  end.

(** [flat]'s walk: the keys and values it assigns to [output], in order.
    [step_ prev key value] is the visit of one property; a non-empty plain
    object or array is entered with the extended key, anything else is
    assigned. *)
Fixpoint step_ (prev key : jstr) (value : jsval) : list (jstr * jsval) :=
  (* prev ? prev + delimiter + key : key *)
  let newKey := match prev with
                | [] => key
                | _ :: _ => prev ++ lit "." ++ key
                end in
  match value with
  | VObj (kv :: o) =>
      flat_map (fun kv => step_ newKey (fst kv) (snd kv)) (kv :: o)
  | VArr (x :: l) =>
      (fix elems (i : nat) (l : list jsval) : list (jstr * jsval) :=
         match l with
         | [] => []
         | y :: l' => step_ newKey (decimal (Z.of_nat i)) y ++ elems (S i) l'
         end) 0 (x :: l)
  | _ => [(newKey, value)]
  end.

(** [Object.keys(target).forEach(...)] at the top of [flat]. *)
Definition step (target : jsval) : outcome (list (jstr * jsval)) :=
  match target with
  | VObj o => Val (flat_map (fun kv => step_ [] (fst kv) (snd kv)) o)
  | VArr l =>
      Val ((fix elems (i : nat) (l : list jsval) : list (jstr * jsval) :=
              match l with
              | [] => []
              | y :: l' => step_ [] (decimal (Z.of_nat i)) y ++ elems (S i) l'
              end) 0 l)
  | VErr _ (Some n) => Val [(lit "status", VNum n)]
  | VErr _ None | VBool _ | VNum _ | VFun _ => Val []
  | VUndef | VNull =>
      Exn (VErr (lit "Cannot convert undefined or null to object") None)
  | VStr _ => Beyond
  end.

(** [flat(target)], that is [flatten].  Assignments to keys that are array
    indices or inherited names are outside the model. *)
Definition flat (target : jsval) : outcome jsval :=
  match step target with
  | Val assigned =>
      if existsb (fun kv => is_index (fst kv) || is_inherited (fst kv))
           assigned
      then Beyond
      else Val (VObj (object_of assigned))
  | Exn x => Exn x
  | Beyond => Beyond
  end.

(** One entry of [unflatten]: walk the segments of the key from
    [recipient], creating objects on the way, and assign the value at the
    last one.  An intermediate property that holds a value other than an
    object ends the walk without assignment. *)
Fixpoint put (path : list jstr) (leaf : jsval) (recipient : list (jstr * jsval))
  : option (list (jstr * jsval)) :=
  match path with
  | [] => Some recipient
  | [key1] => Some (set_prop key1 leaf recipient)
  | key1 :: rest =>
      match get_prop key1 recipient with
      | VObj child =>
          match put rest leaf child with
          | Some child' => Some (set_prop key1 (VObj child') recipient)
          | None => None
          end
      | VUndef =>
          match put rest leaf [] with
          | Some child' => Some (set_prop key1 (VObj child') recipient)
          | None => None
          end
      | VArr _ => None
      | _ => Some recipient
      end
  end.

Fixpoint put_all (entries : list (jstr * jsval)) (result : list (jstr * jsval))
  : option (list (jstr * jsval)) :=
  match entries with
  | [] => Some result
  | (key, leaf) :: entries' =>
      match put (split (lit ".") key) leaf result with
      | Some result' => put_all entries' result'
      | None => None
      end
  end.

(** The entries of a flat map that the model of [unflatten] covers: every
    key segment is non-numeric and not an inherited name, and the value is
    not itself a non-empty object or array. *)
Definition plain_entry (kv : jstr * jsval) : bool :=
  forallb (fun seg => negb (maybe_numeric seg) && negb (is_inherited seg))
    (split (lit ".") (fst kv))
  && match snd kv with
     | VObj (_ :: _) | VArr (_ :: _) => false
     | _ => true
     end.

(** [unflatten(target)]: anything but a plain object is returned as it
    is. *)
Definition unflatten (target : jsval) : outcome jsval :=
  match target with
  | VObj o =>
      if forallb plain_entry o
      then match put_all o [] with
           | Some result => Val (VObj result)
           | None => Beyond
           end
      else Beyond
  | _ => Val target
  end.

Definition unflat : jsval -> outcome jsval := unflatten.

(* ================================================================== *)
(** * commands.js *)
(* ================================================================== *)

Module commands.
Section Commands.
Context {hp : Host}.

(** [stringify]: data to save.  [JSON.stringify] throws only on cyclic
    structures and big integers, which the values of the model do not
    include, so the [catch] branch is not reached. *)
Definition stringify (value : jsval) : jsval :=
  (* clone *)
  let _value := clone value in
  if negb (isString value)
  then match JSON_stringify value with
       | Some text => VStr text
       | None => VUndef
       end
  else _value.

(** [parse]: data read back.  [JSON.parse] converts its argument to a
    string first; when it throws, the clone is returned. *)
Definition parse (value : jsval) : outcome jsval :=
  (* clone *)
  let _value := clone value in
  match JSON_parse (to_string _value) with
  | Parsed v => Val v
  | SyntaxError => Val _value
  | Unrepresented => Beyond
  end.

(** [exports.set].  The callback [cb] is the last element of the compacted
    argument array: it is a function, hence truthy. *)
Definition set (key value expiry time strategy done : jsval) : prog :=
  (* do nothing *)
  if isFunction key then Invoke key []
  (* do nothing *)
  else if isFunction value then Invoke value []
  else
    (* ensure client *)
    Do redis.client_ (fun client =>
    (* prepare *)
    Do (redis.key [key]) (fun _key =>
    let _value := stringify value in
    let _expiry := if truthy expiry && isString expiry then expiry
                   else VUndef in
    let _time := if truthy time && isNumber time then time else VUndef in
    let _strategy := if truthy strategy && isString strategy then strategy
                     else VUndef in
    (* callback *)
    let _cb := VFun Noop in
    let _cb := if isFunction expiry then expiry else _cb in
    let _cb := if isFunction time then time else _cb in
    let _cb := if isFunction strategy then strategy else _cb in
    let _cb := if isFunction done then done else _cb in
    let cb := fun (error _ : jsval) => Invoke _cb [error; value] in
    (* compact *)
    let args := compact [VStr _key; _value; _expiry; _time; _strategy] in
    (* set *)
    Send client (Single SET args) cb)).

(** [exports.get]. *)
Definition get (key done : jsval) : prog :=
  (* do nothing *)
  if isFunction key then Invoke key []
  else
    (* ensure client *)
    Do redis.client_ (fun client =>
    (* prepare *)
    Do (redis.key [key]) (fun _key =>
    (* callback *)
    let _cb := VFun Noop in
    let _cb := if isFunction done then done else _cb in
    let cb := fun (error value : jsval) =>
      match parse value with
      | Val v => Invoke _cb [error; v]
      | Exn x => Throw x
      | Beyond => Stuck
      end in
    (* compact *)
    let args := compact [VStr _key] in
    (* get *)
    Send client (Single GET args) cb)).

(** [exports.hmset]. *)
Definition hmset (key value done : jsval) : prog :=
  (* do nothing *)
  if isFunction key then Invoke key []
  (* do nothing *)
  else if isFunction value then Invoke value []
  else
    (* ensure client *)
    Do redis.client_ (fun client =>
    (* prepare *)
    Do (redis.key [key]) (fun _key =>
    match flat value with
    | Val _value =>
        (* callback *)
        let _cb := VFun Noop in
        let _cb := if isFunction done then done else _cb in
        let cb := fun (error _ : jsval) => Invoke _cb [error; value] in
        (* compact *)
        let args := compact [VStr _key; _value] in
        (* set *)
        Send client (Single HMSET args) cb
    | Exn x => Throw x
    | Beyond => Stuck
    end)).

(** [exports.hgetall]. *)
Definition hgetall (key done : jsval) : prog :=
  (* do nothing *)
  if isFunction key then Invoke key []
  else
    (* ensure client *)
    Do redis.client_ (fun client =>
    (* prepare *)
    Do (redis.key [key]) (fun _key =>
    (* callback *)
    let _cb := VFun Noop in
    let _cb := if isFunction done then done else _cb in
    let cb := fun (error value : jsval) =>
      match unflat value with
      | Val v => Invoke _cb [error; v]
      | Exn x => Throw x
      | Beyond => Stuck
      end in
    (* compact *)
    let args := compact [VStr _key] in
    (* get *)
    Send client (Single HGETALL args) cb)).

End Commands.
End commands.

(* ================================================================== *)
(** * Running an operation against a store *)
(* ================================================================== *)

(** What is observed of a run. *)
Inductive event : Type :=
| Requested (c : nat) (r : request)      (* a request issued on client [c] *)
| Replied (error reply : jsval)          (* the client calls the callback *)
| Called (f : fn) (args : list jsval)    (* a function value is invoked *)
| Returned (v : jsval)
| Thrown (e : jsval)
| Unmodelled.

Definition not_a_function : jsval := VErr (lit "not a function") None.

Section Run.
Context {hp : Host}.

(** The store behind the client: any state [S] and any reply function; and
    the object the store library derives from an [INFO] reply and keeps in
    [server_info]. *)
Variable St : Type.
Variable serve : St -> request -> St * (jsval * jsval).
Variable info_object : jsval -> jsval.

Definition note_info (c : nat) (r : request) (reply : jsval) (e : exports)
  : exports :=
  match r with
  | Single INFO _ =>
      with_heap (update_nth c (set_server_info (info_object reply)) (heap e)) e
  | _ => e
  end.

(** One operation, run to the end: each request is answered at once and
    its callback runs next. *)
Fixpoint run (p : prog) (st : St) (e : exports)
  : list event * St * exports :=
  match p with
  | Ret v => ([Returned v], st, e)
  | Throw x => ([Thrown x], st, e)
  | Stuck => ([Unmodelled], st, e)
  | Invoke (VFun f) args => ([Called f args], st, e)
  | Invoke _ _ => ([Thrown not_a_function], st, e)
  | Do m k =>
      match m e with
      | (Val a, e') => run (k a) st e'
      | (Exn x, e') => ([Thrown x], st, e')
      | (Beyond, e') => ([Unmodelled], st, e')
      end
  | Send (Ref c) r k =>
      let '(st', (error, reply)) := serve st r in
      let '(t, st'', e') := run (k error reply) st' (note_info c r reply e) in
      (Requested c r :: Replied error reply :: t, st'', e')
  | Send _ _ _ => ([Thrown not_a_function], st, e)
  end.

(** Operations one after the other. *)
Fixpoint run_all (ps : list prog) (st : St) (e : exports)
  : list event * St * exports :=
  match ps with
  | [] => ([], st, e)
  | p :: ps' =>
      let '(t, st', e') := run p st e in
      let '(t', st'', e'') := run_all ps' st' e' in
      (t ++ t', st'', e'')
  end.

End Run.

(* ================================================================== *)
(** * A reference store *)
(* ================================================================== *)

(** What a key holds: a string or a hash of fields, listed in the order
    the fields were first written. *)
Inductive entry : Type :=
| EString (s : jstr)
| EHash (h : list (jstr * jstr)).

Definition store : Type := list (jstr * entry).

(** What the store contributes and this model leaves open: how a pattern
    matches a key, and the answer to every request outside the fragment
    below. *)
Class Server : Type := {
  glob : jstr -> jstr -> bool;
  other : store -> method -> list jsval -> store * (jsval * jsval)
}.

Fixpoint lookup (k : jstr) (st : store) : option entry :=
  match st with
  | [] => None
  | (k', x) :: st' => if jstr_eqb k k' then Some x else lookup k st'
  end.

Fixpoint write (k : jstr) (x : entry) (st : store) : store :=
  match st with
  | [] => [(k, x)]
  | (k', y) :: st' =>
      if jstr_eqb k k' then (k, x) :: st' else (k', y) :: write k x st'
  end.

Definition delete (k : jstr) (st : store) : store :=
  filter (fun kx => negb (jstr_eqb k (fst kx))) st.

Fixpoint hset (f v : jstr) (h : list (jstr * jstr)) : list (jstr * jstr) :=
  match h with
  | [] => [(f, v)]
  | (f', v') :: h' =>
      if jstr_eqb f f' then (f, v) :: h' else (f', v') :: hset f v h'
  end.

(** The field values the client library sends for an object argument of
    [hmset]: strings as they are, numbers as their numerals. *)
Fixpoint hash_fields (o : list (jstr * jsval)) : option (list (jstr * jstr)) :=
  match o with
  | [] => Some []
  | (f, x) :: o' =>
      match x, hash_fields o' with
      | VStr s, Some h => Some ((f, s) :: h)
      | VNum n, Some h => Some ((f, decimal n) :: h)
      | _, _ => None
      end
  end.

(** The pattern of a counting script, when the script is exactly
    [return #redis.pcall("keys", "<pattern>")] and the pattern has no
    character that the string literal would read differently. *)
Definition literal_char (c : ascii) : bool :=
  negb (Ascii.eqb c dq) && negb (Ascii.eqb c backslash)
  && negb (nat_of_ascii c <? 32).

Definition counted_pattern (script : jstr) : option jstr :=
  match starts redis.script_head script with
  | Some rest =>
      let p := firstn (length rest - 2) rest in
      if forallb literal_char p
         && jstr_eqb (skipn (length rest - 2) rest) redis.script_tail
      then Some p
      else None
  | None => None
  end.

Section ReferenceStore.
Context {srv : Server}.

Definition ok : jsval := VStr (lit "OK").

(** One command on the store: the new store, the error and the reply. *)
Definition command (st : store) (m : method) (args : list jsval)
  : store * (jsval * jsval) :=
  match m, args with
  | SET, [VStr k; VStr v] => (write k (EString v) st, (VNull, ok))
  | GET, [VStr k] =>
      match lookup k st with
      | Some (EString v) => (st, (VNull, VStr v))
      | None => (st, (VNull, VNull))
      | Some (EHash _) => other st m args
      end
  | HMSET, [VStr k; VObj (kv :: o)] =>
      match hash_fields (kv :: o), lookup k st with
      | Some fields, Some (EHash h) =>
          (write k (EHash (fold_left (fun h fv => hset (fst fv) (snd fv) h)
                             fields h)) st, (VNull, ok))
      | Some fields, None =>
          (write k (EHash (fold_left (fun h fv => hset (fst fv) (snd fv) h)
                             fields [])) st, (VNull, ok))
      | _, _ => other st m args
      end
  | HGETALL, [VStr k] =>
      match lookup k st with
      | Some (EHash h) =>
          if existsb (fun fv => is_index (fst fv) || is_inherited (fst fv)) h
          then other st m args
          else (st, (VNull, VObj (map (fun fv => (fst fv, VStr (snd fv))) h)))
      | None => (st, (VNull, VNull))
      | Some (EString _) => other st m args
      end
  | KEYS, [VStr p] =>
      (st, (VNull, VArr (map VStr (filter (glob p) (map fst st)))))
  | DEL, [VStr k] =>
      (delete k st,
       (VNull, VNum (match lookup k st with Some _ => 1 | None => 0 end)))
  | EVAL, [VStr script; VNum 0] =>
      match counted_pattern script with
      | Some p =>
          (st, (VNull, VNum (Z.of_nat (length (filter (glob p) (map fst st))))))
      | None => other st m args
      end
  | _, _ => other st m args
  end.

(** [exec]: the queued commands in order; the reply lists each command's
    reply, an error standing in for the reply of a command that failed. *)
Fixpoint exec (st : store) (queue : list (method * list jsval))
  : store * list jsval :=
  match queue with
  | [] => (st, [])
  | (m, args) :: queue' =>
      let '(st', (error, reply)) := command st m args in
      let '(st'', replies) := exec st' queue' in
      (st'', (if truthy error then error else reply) :: replies)
  end.

Definition serve (st : store) (r : request) : store * (jsval * jsval) :=
  match r with
  | Single m args => command st m args
  | Exec queue =>
      let '(st', replies) := exec st queue in (st', (VNull, VArr replies))
  end.

End ReferenceStore.

(* ================================================================== *)
(** * A concrete host and store, for running examples *)
(* ================================================================== *)

(** Pattern matching with [*] (any run of characters) and [?] (any one
    character). *)
Fixpoint wildcard (p k : jstr) : bool :=
  match p with
  | [] => match k with [] => true | _ :: _ => false end
  | c :: p' =>
      if Ascii.eqb c "*"%char then
        (fix star (k : jstr) : bool :=
           wildcard p' k
           || match k with [] => false | _ :: k' => star k' end) k
      else
        match k with
        | [] => false
        | d :: k' => (Ascii.eqb c "?"%char || Ascii.eqb c d) && wildcard p' k'
        end
  end.

#[export] Instance sample_server : Server :=
  {| glob := wildcard;
     other := fun st _ _ => (st, (VErr (lit "ERR") None, VUndef)) |}.

Definition sample_url (s : jstr) : url :=
  {| protocol := match starts (lit "redis:") s with
                 | Some _ => Some (lit "redis:")
                 | None => None
                 end;
     u_port := None; hostname := Some (lit "localhost");
     pathname := None; query := []; u_auth := None |}.

#[export] Instance sample_host : Host :=
  {| fn_source := fun _ => lit "function (error, result) {}";
     uuid_v1 := fun n => lit "6c84fb90-12c4-11e1-840d-7b25c5ee77"
                         ++ [hex_digit (n / 16 mod 16); hex_digit (n mod 16)];
     Date_now := fun n => (1500000000000 + Z.of_nat n)%Z;
     url_parse := sample_url |}.

(** Running against the reference store. *)
Definition run_ref (ps : list prog) (st : store) (e : exports)
  : list event * store * exports :=
  run_all store serve (fun reply => reply) ps st e.

(* ================================================================== *)
(** * Properties: vocabulary *)
(* ================================================================== *)

Section Vocabulary.
Context {hp : Host}.

(** The settings under which [createClient] does not throw. *)
Definition can_connect (d : settings) : bool :=
  match redis d with
  | RConf _ => true
  | RUrl s => jsval_eqb (of_string (protocol (url_parse s))) (VStr (lit "redis:"))
  end.

(** The trace of one operation run against any store. *)
Definition trace_of {St : Type} (serve : St -> request -> St * (jsval * jsval))
  (info_object : jsval -> jsval) (p : prog) (st : St) (e : exports)
  : list event :=
  fst (fst (run St serve info_object p st e)).

End Vocabulary.

(** No request reaches the store in a trace. *)
Definition no_request (t : list event) : Prop :=
  forall c r, ~ In (Requested c r) t.

(** Every error a function is called with was handed over by the client:
    a truthy first argument of a call is the error of an earlier reply. *)
Definition errors_from_client (t : list event) : Prop :=
  forall f error rest,
    In (Called f (error :: rest)) t ->
    truthy error = true ->
    exists reply, In (Replied error reply) t.

(** [s] begins with [w]. *)
Definition begins_with (w s : jstr) : Prop := exists rest, s = w ++ rest.

(** ** The cached references *)

Inductive which : Type := The_client | The_publisher | The_subscriber.

Definition which_eqb (a b : which) : bool :=
  match a, b with
  | The_client, The_client => true
  | The_publisher, The_publisher => true
  | The_subscriber, The_subscriber => true
  | _, _ => false
  end.

Definition slot_of (w : which) (e : exports) : slot :=
  match w with
  | The_client => _client e
  | The_publisher => publisher e
  | The_subscriber => subscriber e
  end.

Definition set_slot (w : which) (s : slot) (e : exports) : exports :=
  match w with
  | The_client => with_client s e
  | The_publisher => with_publisher s e
  | The_subscriber => with_subscriber s e
  end.

Section StateVocabulary.
Context {hp : Host}.

(** The block that [init] and [pubsub] repeat for each cached reference:
    create the client if the reference does not hold one. *)
Definition ensure (w : which) : M unit :=
  (s <- gets (slot_of w) ;;
   when (negb (slot_truthy s))
     (c <- redis.createClient no_opts ;;
      modify (set_slot w (Ref c)) ;;;
      now <- redis.Date_now_ ;;
      on_client c (set_id now)))%js.

(** [e'] is [e] after one more client was created. *)
Definition fresh_client (e e' : exports) : Prop :=
  exports_defaults e' = exports_defaults e /\ _client e' = _client e
  /\ publisher e' = publisher e /\ subscriber e' = subscriber e
  /\ uuids e' = uuids e
  /\ _clients e' = _clients e ++ [length (heap e)]
  /\ exists new, heap e' = heap e ++ [new] /\ quit_calls new = 0.

(** [e'] is [e] after [ensure w] created a client. *)
Definition created (w : which) (e e' : exports) : Prop :=
  (forall w', slot_of w' e'
              = if which_eqb w w' then Ref (length (heap e)) else slot_of w' e)
  /\ exports_defaults e' = exports_defaults e
  /\ uuids e' = uuids e
  /\ _clients e' = _clients e ++ [length (heap e)]
  /\ exists new, heap e' = heap e ++ [new] /\ quit_calls new = 0.

(** The calls a caller can make on the module, besides the operations on
    the store. *)
Inductive api : Type :=
| A_createClient (o : opts)
| A_pubsub
| A_init
| A_client
| A_multi
| A_key (args : list jsval)
| A_index (o : opts)
| A_reset.

Definition call (a : api) : M unit :=
  match a with
  | A_createClient o => (redis.createClient o ;;; ret tt)%js
  | A_pubsub => (redis.pubsub ;;; ret tt)%js
  | A_init => (redis.init ;;; ret tt)%js
  | A_client => (redis.client_ ;;; ret tt)%js
  | A_multi => (redis.multi ;;; ret tt)%js
  | A_key args => (redis.key args ;;; ret tt)%js
  | A_index o => redis.index o
  | A_reset => redis.reset
  end.

(** The state after a sequence of calls; a call that throws leaves the
    state it reached. *)
Fixpoint calls (l : list api) (e : exports) : exports :=
  match l with
  | [] => e
  | a :: l' => calls l' (snd (call a e))
  end.

Definition is_reset (a : api) : bool :=
  match a with A_reset => true | _ => false end.

(** The number of [quit()] calls the client at address [c] has received. *)
Definition quits (e : exports) (c : nat) : nat :=
  match nth_error (heap e) c with
  | Some o => quit_calls o
  | None => 0
  end.

End StateVocabulary.

Section StateInvariants.
Context {hp : Host}.

(** The clients created since the heap had [n0] objects are exactly the
    ones the module remembers in [_clients], and every cached reference is
    one of them. *)
Definition tracked (n0 : nat) (e : exports) : Prop :=
  n0 <= length (heap e)
  /\ _clients e = seq n0 (length (heap e) - n0)
  /\ (forall w c, slot_of w e = Ref c -> n0 <= c < length (heap e)).

(** A cached reference that holds a client holds the same one later. *)
Definition keeps (e e' : exports) : Prop :=
  forall w c, slot_of w e = Ref c -> slot_of w e' = Ref c.

Definition advance (e e' : exports) : Prop :=
  keeps e e' /\ forall n0, tracked n0 e -> tracked n0 e'.

Definition advancing {A} (m : M A) : Prop :=
  forall e, advance e (snd (m e)).

(** The state of a freshly loaded module, or of one just reset: nothing
    remembered, nothing cached. *)
Definition blank (e : exports) : Prop :=
  _clients e = [] /\ forall w, slot_truthy (slot_of w e) = false.

End StateInvariants.

Section OperationVocabulary.
Context {hp : Host}.

(** The first thing the operation [p] does to the store is a request [m]
    whose first argument is [redis.key(key)], computed after the client was
    obtained. *)
Definition sends_under_key {St : Type}
  (serve : St -> request -> St * (jsval * jsval))
  (info_object : jsval -> jsval) (m : method) (key : jsval) (p : prog)
  (st : St) (e : exports) : Prop :=
  exists c e1 _key e2 args t st' e',
    redis.client_ e = (Val (Ref c), e1)
    /\ redis.key [key] e1 = (Val _key, e2)
    /\ run St serve info_object p st e
       = (Requested c (Single m (VStr _key :: args)) :: t, st', e').

(** The patterns [count] is left with, once the arguments are flattened,
    compacted and made unique and the callback is dropped. *)
Definition counted (patterns : list jsval) : list jsval :=
  let patterns := uniq (compact (concat_args patterns)) in
  if isFunction (last_ patterns) then initial patterns else patterns.

End OperationVocabulary.

(** [relays known p]: whenever [p] calls a function with a truthy first
    argument, that argument is in [known] or is the error of a reply that
    [p] received before the call. *)
Inductive relays (known : list jsval) : prog -> Prop :=
| relays_Ret (v : jsval) : relays known (Ret v)
| relays_Throw (x : jsval) : relays known (Throw x)
| relays_Stuck : relays known Stuck
| relays_Invoke_none (f : jsval) : relays known (Invoke f [])
| relays_Invoke (f error : jsval) (rest : list jsval) :
    (truthy error = true -> In error known) ->
    relays known (Invoke f (error :: rest))
| relays_Do (A : Type) (m : M A) (k : A -> prog) :
    (forall a, relays known (k a)) -> relays known (Do m k)
| relays_Send (c : slot) (r : request) (k : jsval -> jsval -> prog) :
    (forall error reply, relays (error :: known) (k error reply)) ->
    relays known (Send c r k).

(** ** Vocabulary for runs against the reference store *)

(** The event that ends an operation calling [f] last. *)
Definition ending (f : jsval) (args : list jsval) : event :=
  match f with
  | VFun g => Called g args
  | _ => Thrown not_a_function
  end.

(** The keys of the store a pattern matches. *)
Definition matching {srv : Server} (p : jstr) (st : store) : list jstr :=
  filter (glob p) (map fst st).

(** The non-empty ones of the prefix and the pattern, joined with the
    separator, then a star: the pattern whose keys [clear] deletes. *)
Definition clear_pattern (d : settings) (pattern : option jstr) : jstr :=
  concat_with (separator d)
    (filter (fun s => negb (length s =? 0))
       (prefix d :: match pattern with Some p => [p] | None => [] end))
  ++ lit "*".

(** First occurrences, in order. *)
Fixpoint dedup (l : list jstr) : list jstr :=
  match l with
  | [] => []
  | x :: l' => x :: filter (fun y => negb (jstr_eqb y x)) (dedup l')
  end.

(** The distinct non-empty patterns among those given, in the order of
    their first occurrence. *)
Definition distinct_nonempty (patterns : list jstr) : list jstr :=
  dedup (filter (fun s => negb (length s =? 0)) patterns).

(** A pattern that the counting script embeds as it is. *)
Definition literal (p : jstr) : Prop := forallb literal_char p = true.

(** The reply of [count]'s callback: a single count, or the counts. *)
Definition normalized (counts : list jsval) : jsval :=
  if 1 <? length counts then VArr counts else first counts.

(** ** Vocabulary for the serialisation shims *)

Fixpoint distinct (l : list jstr) : bool :=
  match l with
  | [] => true
  | x :: l' => negb (existsb (jstr_eqb x) l') && distinct l'
  end.

(** The values [JSON.stringify] and [JSON.parse] exchange without loss, as
    far as the model represents values: [null], booleans, safe integers,
    strings, and arrays and plain objects of such values; the keys of an
    object are distinct and none is an array index. *)
Fixpoint json_value (v : jsval) : bool :=
  match v with
  | VNull | VBool _ | VStr _ => true
  | VNum n => (Z.abs n <=? max_safe_integer)%Z
  | VArr l => forallb json_value l
  | VObj o =>
      forallb (fun kv => negb (is_index (fst kv)) && json_value (snd kv)) o
      && distinct (map fst o)
  | VUndef | VFun _ | VErr _ _ => false
  end.

(** The text of a value: its serialisation, [null] standing in when it has
    none. *)
Definition text (v : jsval) : jstr :=
  match JSON_stringify v with
  | Some t => t
  | None => lit "null"
  end.

(** A bound on the fuel the parser needs for the text of a value. *)
Fixpoint size (v : jsval) : nat :=
  match v with
  | VArr l => S (list_sum (map size l))
  | VObj o => S (list_sum (map (fun kv => size (snd kv)) o))
  | _ => 1
  end.

(** What may follow a number token: nothing, or a character that does not
    continue it. *)
Definition number_end (rest : jstr) : bool :=
  match rest with
  | [] => true
  | c :: _ =>
      negb (is_digit c) && negb (Ascii.eqb c "."%char)
      && negb (Ascii.eqb c "e"%char) && negb (Ascii.eqb c "E"%char)
  end.

(** The first character of the text of a value. *)
Definition opens_value (t : jstr) : bool :=
  match t with
  | [] => false
  | c :: _ =>
      negb (is_ws c) && negb (Ascii.eqb c "]"%char)
      && negb (Ascii.eqb c "}"%char)
  end.

(** A character in front of the string a parse gave. *)
Definition cons_char (c : ascii) (r : pres jstr) : pres jstr :=
  match r with
  | POk t rest => POk (c :: t) rest
  | PErr => PErr
  | PBeyond => PBeyond
  end.

(** The parser reads the text of [v] back as [v], given fuel for its size
    and whatever follows, as long as that does not continue a number. *)
Definition parses_back (v : jsval) : Prop :=
  json_value v = true ->
  forall (fuel : nat) (rest : jstr),
    2 * size v <= fuel -> number_end rest = true ->
    parse_value fuel (text v ++ rest) = POk v rest.

(** The strings [JSON.parse] rejects. *)
Definition plain_text (s : jstr) : bool :=
  match JSON_parse s with
  | SyntaxError => true
  | _ => false
  end.

(** The values [set] stores and [get] gives back: the values of
    [json_value], a string only when it is not empty and is not itself a
    JSON text. *)
Definition kept (v : jsval) : bool :=
  json_value v
  && match v with
     | VStr s => negb (length s =? 0) && plain_text s
     | _ => true
     end.

(** ** Vocabulary for the hash shim *)

(** A key that [flat] and [unflatten] treat as one segment of a path, and
    as the name of a property of a plain object. *)
Definition segment (k : jstr) : bool :=
  negb (maybe_numeric k) && negb (is_inherited k)
  && negb (existsb (Ascii.eqb "."%char) k).

(** The values [flat] assigns as they are and does not enter: anything but
    a plain object or an array that is not empty. *)
Definition leaf (v : jsval) : bool :=
  match v with
  | VObj (_ :: _) | VArr (_ :: _) => false
  | _ => true
  end.

(** The nested objects [flat] and [unflatten] carry over: the keys of each
    object are distinct segments, down to the leaves. *)
Fixpoint nested (v : jsval) : bool :=
  match v with
  | VObj (kv :: o) =>
      forallb (fun kv => segment (fst kv) && nested (snd kv)) (kv :: o)
      && distinct (map fst (kv :: o))
  | VArr (_ :: _) => false
  | _ => true
  end.

(** The nested plain objects: objects of scalars and of such objects. *)
Fixpoint plain_object (v : jsval) : bool :=
  match v with
  | VObj o =>
      forallb (fun kv => match snd kv with
                         | VObj _ => plain_object (snd kv)
                         | VNull | VBool _ | VNum _ | VStr _ => true
                         | _ => false
                         end) o
  | _ => false
  end.

(** One more key in front of the path of a leaf. *)
Definition under (k : jstr) (pl : list jstr * jsval) : list jstr * jsval :=
  (k :: fst pl, snd pl).

(** The leaves of a value with the path of keys that leads to each. *)
Fixpoint leaves (v : jsval) : list (list jstr * jsval) :=
  match v with
  | VObj (kv :: o) =>
      flat_map (fun kv => map (under (fst kv)) (leaves (snd kv))) (kv :: o)
  | _ => [([], v)]
  end.

(** The values whose leaves are all strings, as a stored hash keeps
    them. *)
Definition string_leaves (v : jsval) : bool :=
  forallb (fun pl => isString (snd pl)) (leaves v).

(** The key [flat] gives a path. *)
Definition dots (p : list jstr) : jstr := concat_with (lit ".") p.

(** A leaf as [flat] assigns it. *)
Definition dotted (pl : list jstr * jsval) : jstr * jsval :=
  (dots (fst pl), snd pl).

(** [unflatten]'s walk, on keys already split. *)
Fixpoint put_paths (entries : list (list jstr * jsval))
  (result : list (jstr * jsval)) : option (list (jstr * jsval)) :=
  match entries with
  | [] => Some result
  | (path, leaf) :: entries' =>
      match put path leaf result with
      | Some result' => put_paths entries' result'
      | None => None
      end
  end.

(** The object a walk continues in below the key [k]. *)
Definition child_of (k : jstr) (r : list (jstr * jsval))
  : option (list (jstr * jsval)) :=
  match get_prop k r with
  | VObj c => Some c
  | VUndef => Some []
  | _ => None
  end.

(** [flat] followed by [unflatten]. *)
Definition unflatten_flat (v : jsval) : outcome jsval :=
  match flat v with
  | Val x => unflatten x
  | Exn x => Exn x
  | Beyond => Beyond
  end.

(** [unflatten]'s walk over the leaves of [v] below a new key [k] adds
    the property [k] with the value [v]. *)
Definition puts_back (v : jsval) : Prop :=
  nested v = true ->
  forall (k : jstr) (r : list (jstr * jsval)),
    existsb (jstr_eqb k) (map fst r) = false ->
    put_paths (map (under k) (leaves v)) r = Some (r ++ [(k, v)]).

(** The key of a path that continues from the key [nk]. *)
Definition dots_from (nk : jstr) (p : list jstr) : jstr :=
  match p with
  | [] => nk
  | _ :: _ => nk ++ "."%char :: dots p
  end.

(** [newKey] in [flat]'s [step]. *)
Definition newKey (prev key : jstr) : jstr :=
  match prev with
  | [] => key
  | _ :: _ => prev ++ lit "." ++ key
  end.

(** [flat]'s walk visits the leaves of [v] in order. *)
Definition walks (v : jsval) : Prop :=
  nested v = true ->
  forall prev key : jstr, key <> [] ->
    step_ prev key v
    = map (fun pl => (dots_from (newKey prev key) (fst pl), snd pl)) (leaves v).

(** A leaf of a nested object, at the end of a path of segments. *)
Definition good_leaf (pl : list jstr * jsval) : Prop :=
  forallb segment (fst pl) = true /\ leaf (snd pl) = true.

(** A field of a stored hash as [hgetall] replies it. *)
Definition field_value (fv : jstr * jstr) : jstr * jsval :=
  (fst fv, VStr (snd fv)).

(** [e'] differs from [e] at most in the contents of client objects and
    the clock. *)
Definition same_module (e e' : exports) : Prop :=
  _clients e' = _clients e /\ exports_defaults e' = exports_defaults e
  /\ _client e' = _client e /\ publisher e' = publisher e
  /\ subscriber e' = subscriber e /\ uuids e' = uuids e
  /\ length (heap e') = length (heap e).

(** ** Vocabulary for the client factories and the operations *)

(** The error [createClient] throws for a connection string of another
    protocol. *)
Definition invalid_connection : jsval :=
  VErr (lit "Invalid Connection String. Require redis: protocol") None.

(** A client object as the store library hands it out: connected with the
    given arguments, [auth] and [select] called with [a] and [d]
    ([undefined]: not called), nothing else called yet. *)
Definition new_client (to h o a d : jsval) : client :=
  {| connect_to := to; connect_host := h; connect_options := o;
     auth_sent := a; selected := d; _id := VUndef; quit_calls := 0;
     unsubscribe_calls := 0; removeAllListeners_calls := 0;
     server_info := VUndef |}.

(** The connection options [createClient] works with: the object of the
    settings, or the one it makes of their connection string. *)
Definition connection_settings {hp : Host} (r : redis_setting) : redis_conf :=
  match r with
  | RConf c => c
  | RUrl s => redis.of_connection (url_parse s)
  end.

(** The line terminators among the code units of the model. *)
Definition line_break (c : ascii) : bool :=
  Ascii.eqb c "010"%char || Ascii.eqb c "013"%char.

(** The cached reference [w] holds no client. *)
Definition missing (w : which) (e : exports) : bool :=
  negb (slot_truthy (slot_of w e)).

(** The client created at address [n], if one is. *)
Definition newly (b : bool) (n : nat) : list nat := if b then [n] else [].

(** The module state [reset] leaves, the heap being [h]. *)
Definition after_reset (h : list client) (e : exports) : exports :=
  {| _clients := []; exports_defaults := defaults; _client := Null;
     publisher := Null; subscriber := Null; heap := h; uuids := uuids e;
     clock := clock e |}.

(** The heap once [reset] has silenced the subscriber. *)
Definition silenced (e : exports) : list client :=
  match subscriber e with
  | Ref s => update_nth s do_removeAllListeners
               (update_nth s do_unsubscribe (heap e))
  | _ => heap e
  end.

(** The reference [s] holds the client at address [c]. *)
Definition holds (s : slot) (c : nat) : bool :=
  match s with
  | Ref n => Nat.eqb n c
  | _ => false
  end.

(** The callback [set] settles on: the last function among the arguments
    after the value, [noop] when there is none. *)
Definition callback_of (l : list jsval) : jsval :=
  fold_left (fun _cb x => if isFunction x then x else _cb) l (VFun Noop).

(** An optional argument as [_.compact] lets it through: left out unless
    it is truthy and of the expected type. *)
Definition sent_if (b : bool) (x : jsval) : list jsval :=
  if truthy x && b then [x] else [].

(** The value is an array, which [[].concat(...args)] spreads. *)
Definition is_array (v : jsval) : bool :=
  match v with VArr _ => true | _ => false end.

(** A second host for examples, whose [url.parse] finds credentials, a
    port and a database in the connection string. *)
Definition auth_url (s : jstr) : url :=
  {| protocol := Some (lit "redis:"); u_port := Some (lit "6380");
     hostname := Some (lit "example.org"); pathname := Some (lit "/3");
     query := []; u_auth := Some (lit "user:secret") |}.

Definition auth_host : Host :=
  {| fn_source := fun _ => lit "function (error, result) {}";
     uuid_v1 := fun n => decimal (Z.of_nat n);
     Date_now := fun n => Z.of_nat n;
     url_parse := auth_url |}.

(** Options that only give a connection string. *)
Definition with_url (s : string) : opts :=
  {| o_prefix := None; o_separator := None; o_redis := OUrl (lit s) |}.

(** A store that answers every request with an error. *)
Definition refusing (st : unit) (r : request) : unit * (jsval * jsval) :=
  (st, (VErr (lit "ERR") None, VUndef)).

(* ================================================================== *)
(** * Properties: values and helpers *)
(* ================================================================== *)

Lemma jstr_eqb_eq (a b : jstr) : jstr_eqb a b = true <-> a = b.
Proof.
  unfold jstr_eqb. destruct (list_eq_dec ascii_dec a b); split; congruence.
Qed.

Lemma jstr_eqb_refl (a : jstr) : jstr_eqb a a = true.
Proof. now apply jstr_eqb_eq. Qed.

Lemma jstr_eqb_neq (a b : jstr) : jstr_eqb a b = false <-> a <> b.
Proof.
  unfold jstr_eqb. destruct (list_eq_dec ascii_dec a b); split; congruence.
Qed.

Lemma fn_eqb_eq (f g : fn) : fn_eqb f g = true <-> f = g.
Proof.
  destruct f, g; simpl; try (split; congruence).
  rewrite Nat.eqb_eq. split; congruence.
Qed.

Lemma status_eqb_eq (a b : option Z) : status_eqb a b = true <-> a = b.
Proof.
  destruct a, b; simpl; try (split; congruence).
  rewrite Z.eqb_eq. split; congruence.
Qed.

Lemma jsval_eqb_eq (a b : jsval) : jsval_eqb a b = true <-> a = b.
Proof.
  revert b. induction a as [| |x|x|x|l IH|o IH|f|m s] using jsval_ind;
    intros [| |y|y|y|l'|o'|g|m' s']; simpl; try (split; congruence).
  - rewrite Bool.eqb_true_iff. split; congruence.
  - rewrite Z.eqb_eq. split; congruence.
  - rewrite jstr_eqb_eq. split; congruence.
  - revert l'. induction IH as [|x l Hx _ IHl]; intros [|y l'];
      try (split; congruence).
    rewrite andb_true_iff, Hx, IHl. split.
    + intros [-> E]. now inversion E.
    + intros E. inversion E. auto.
  - revert o'. induction IH as [|[k x] o Hx _ IHo]; intros [|[k' y] o'];
      try (split; congruence).
    simpl in Hx.
    rewrite !andb_true_iff, jstr_eqb_eq, Hx, IHo. split.
    + intros [[-> ->] E]. now inversion E.
    + intros E. inversion E. auto.
  - rewrite fn_eqb_eq. split; congruence.
  - rewrite andb_true_iff, jstr_eqb_eq, status_eqb_eq. split.
    + intros [-> ->]. reflexivity.
    + intros E. inversion E. auto.
Qed.

Lemma update_nth_length {A} (f : A -> A) (l : list A) (n : nat) :
  length (update_nth n f l) = length l.
Proof.
  revert n. induction l as [|x l IH]; intros [|n]; simpl; auto.
Qed.

Lemma update_nth_last {A} (f : A -> A) (l : list A) (x : A) :
  update_nth (length l) f (l ++ [x]) = l ++ [f x].
Proof.
  induction l as [|y l IH]; simpl; [reflexivity|]. now rewrite IH.
Qed.

Lemma nth_error_update_nth {A} (f : A -> A) (l : list A) (n m : nat) :
  nth_error (update_nth n f l) m
  = if Nat.eqb n m then option_map f (nth_error l m) else nth_error l m.
Proof.
  revert n m. induction l as [|x l IH]; intros n m.
  - destruct n, m; simpl; try reflexivity. now destruct (Nat.eqb n m).
  - destruct n, m; simpl; try reflexivity. apply IH.
Qed.

Lemma merge_no_opts (d : settings) : merge d no_opts = d.
Proof. destruct d; reflexivity. Qed.

(* ================================================================== *)
(** * Properties: the module state *)
(* ================================================================== *)

Section StateFacts.
Context {hp : Host}.

Lemma same_module_refl (e : exports) : same_module e e.
Proof. repeat split. Qed.

Lemma same_module_trans (a b c : exports) :
  same_module a b -> same_module b c -> same_module a c.
Proof.
  unfold same_module. intuition congruence.
Qed.

Lemma on_client_same (c : nat) (f : client -> client) (e : exports) :
  exists e', on_client c f e = (Val tt, e') /\ same_module e e'
             /\ heap e' = update_nth c f (heap e).
Proof.
  eexists. split; [reflexivity|]. split; [|reflexivity].
  repeat split. simpl. apply update_nth_length.
Qed.

End StateFacts.

Section ModuleFacts.
Context {hp : Host}.

Lemma createClient_ok (o : opts) (e : exports) :
  can_connect (merge (exports_defaults e) o) = true ->
  exists e', redis.createClient o e = (Val (length (heap e)), e')
             /\ fresh_client e e'.
Proof.
  intros Hc.
  unfold redis.createClient, can_connect, bind, gets, ret, throw, when,
    on_client, modify, redis.redis_createClient in *.
  destruct (redis (merge (exports_defaults e) o)) as [s|conf] eqn:Er;
    [rewrite Hc|]; cbv beta iota zeta delta [negb];
    repeat match goal with
           | |- context [if truthy (auth ?x) then _ else _] =>
               destruct (truthy (auth x))
           | |- context [if truthy (db ?x) then _ else _] =>
               destruct (truthy (db x))
           end;
    (eexists; split; [reflexivity|]);
    unfold fresh_client; cbn [exports_defaults _client publisher subscriber
      uuids _clients heap with_heap with_clients app];
    rewrite ?update_nth_length, ?length_app, ?update_nth_last;
    cbn [length Nat.add]; rewrite ?Nat.add_1_r, ?update_nth_last;
    repeat split; eauto.
Qed.

Lemma createClient_throws (o : opts) (e : exports) :
  can_connect (merge (exports_defaults e) o) = false ->
  exists x, redis.createClient o e = (Exn x, e).
Proof.
  intros Hc.
  unfold redis.createClient, can_connect, bind, gets, ret, throw in *.
  destruct (redis (merge (exports_defaults e) o)) as [s|conf] eqn:Er;
    [|discriminate].
  rewrite Hc. cbv beta iota zeta delta [negb]. eauto.
Qed.

Lemma pubsub_ensure :
  redis.pubsub
  = (ensure The_publisher ;;; ensure The_subscriber ;;;
     p <- gets publisher ;; s <- gets subscriber ;; ret (p, s))%js.
Proof. reflexivity. Qed.

Lemma init_ensure :
  redis.init
  = (ensure The_client ;;; redis.pubsub ;;; gets _client)%js.
Proof. reflexivity. Qed.

Lemma slot_of_set_slot (w w' : which) (s : slot) (e : exports) :
  slot_of w' (set_slot w s e) = if which_eqb w w' then s else slot_of w' e.
Proof. destruct w, w'; reflexivity. Qed.

Lemma bind_val {A B} (m : M A) (k : A -> M B) (e e' : exports) (a : A) :
  m e = (Val a, e') -> bind m k e = k a e'.
Proof. unfold bind. now intros ->. Qed.

Lemma bind_exn {A B} (m : M A) (k : A -> M B) (e e' : exports) (x : jsval) :
  m e = (Exn x, e') -> bind m k e = (Exn x, e').
Proof. unfold bind. now intros ->. Qed.

Lemma bind_beyond {A B} (m : M A) (k : A -> M B) (e e' : exports) :
  m e = (Beyond, e') -> bind m k e = (Beyond, e').
Proof. unfold bind. now intros ->. Qed.

(** What [ensure w] does: nothing when the reference holds a client; it
    throws, leaving the state as it was, when the settings do not allow a
    connection; otherwise it creates one client and caches it. *)
Lemma ensure_cases (w : which) (e : exports) :
  (slot_truthy (slot_of w e) = true /\ ensure w e = (Val tt, e))
  \/ (slot_truthy (slot_of w e) = false
      /\ can_connect (exports_defaults e) = false
      /\ exists x, ensure w e = (Exn x, e))
  \/ (slot_truthy (slot_of w e) = false
      /\ can_connect (exports_defaults e) = true
      /\ exists e', ensure w e = (Val tt, e') /\ created w e e').
Proof.
  assert (E : ensure w e
              = when (negb (slot_truthy (slot_of w e)))
                  (c <- redis.createClient no_opts ;;
                   modify (set_slot w (Ref c)) ;;;
                   now <- redis.Date_now_ ;;
                   on_client c (set_id now))%js e) by reflexivity.
  rewrite E. clear E.
  destruct (slot_truthy (slot_of w e)) eqn:Es; [left; auto|right].
  cbn [negb when].
  destruct (can_connect (exports_defaults e)) eqn:Ec; [right|left].
  - repeat split.
    destruct (createClient_ok no_opts e)
      as (e1 & Hcc & Hd & Hc & Hp & Hs & Hu & Hl & new & Hh & Hq).
    { now rewrite merge_no_opts. }
    rewrite (bind_val _ _ _ _ _ Hcc).
    unfold bind, modify, redis.Date_now_, on_client.
    eexists. split; [reflexivity|].
    assert (Hh' : heap (set_slot w (Ref (length (heap e))) e1)
                  = heap e ++ [new]) by (destruct w; exact Hh).
    unfold created. repeat split.
    + intros w'. destruct w, w'; cbn; auto.
    + destruct w; cbn; exact Hd.
    + destruct w; cbn; exact Hu.
    + destruct w; cbn; exact Hl.
    + eexists. split.
      * cbn [heap with_heap with_clock]. rewrite Hh', update_nth_last.
        reflexivity.
      * exact Hq.
  - repeat split.
    destruct (createClient_throws no_opts e) as (x & Hcc).
    { now rewrite merge_no_opts. }
    rewrite (bind_exn _ _ _ _ _ Hcc). eauto.
Qed.

Lemma bind_gets {A B} (f : exports -> A) (k : A -> M B) (e : exports) :
  bind (gets f) k e = k (f e) e.
Proof. reflexivity. Qed.

Lemma bind_inv {A B} (m : M A) (k : A -> M B) (e e' : exports) (b : B) :
  bind m k e = (Val b, e') ->
  exists a e1, m e = (Val a, e1) /\ k a e1 = (Val b, e').
Proof.
  unfold bind. destruct (m e) as [[a|x|] e1]; intros H; try discriminate.
  eauto.
Qed.

Lemma advance_refl (e : exports) : advance e e.
Proof. split; [intros w c H; exact H|auto]. Qed.

Lemma advance_trans (a b c : exports) :
  advance a b -> advance b c -> advance a c.
Proof.
  intros [K1 T1] [K2 T2]. split.
  - intros w x H. apply K2, K1, H.
  - intros n0 H. apply T2, T1, H.
Qed.

Lemma advancing_bind {A B} (m : M A) (k : A -> M B) :
  advancing m -> (forall a, advancing (k a)) -> advancing (bind m k).
Proof.
  intros Hm Hk e. unfold bind. specialize (Hm e).
  destruct (m e) as [[a|x|] e1]; simpl in *; auto.
  eapply advance_trans; [exact Hm|apply Hk].
Qed.

Lemma advancing_ret {A} (a : A) : advancing (ret a).
Proof. intros e. apply advance_refl. Qed.

Lemma advancing_gets {A} (f : exports -> A) : advancing (gets f).
Proof. intros e. apply advance_refl. Qed.

Lemma advance_fresh (e e' : exports) : fresh_client e e' -> advance e e'.
Proof.
  intros (Hd & Hc & Hp & Hs & Hu & Hl & new & Hh & Hq). split.
  - intros [] c; simpl; congruence.
  - intros n0 (Hn & Hcl & Hsl). unfold tracked.
    rewrite Hh, length_app, Hl, Hcl. simpl.
    replace (length (heap e) + 1 - n0) with (S (length (heap e) - n0)) by lia.
    rewrite seq_S. replace (n0 + (length (heap e) - n0)) with (length (heap e)) by lia.
    split; [lia|split; [reflexivity|]].
    intros w c H.
    assert (H' : slot_of w e = Ref c)
      by (destruct w; simpl in *; congruence).
    apply Hsl in H'. lia.
Qed.

Lemma advancing_createClient (o : opts) : advancing (redis.createClient o).
Proof.
  intros e. destruct (can_connect (merge (exports_defaults e) o)) eqn:Ec.
  - destruct (createClient_ok o e Ec) as (e' & -> & Hf). now apply advance_fresh.
  - destruct (createClient_throws o e Ec) as (x & ->). apply advance_refl.
Qed.

Lemma advance_created (w : which) (e e' : exports) :
  slot_truthy (slot_of w e) = false -> created w e e' -> advance e e'.
Proof.
  intros Es (Hw & Hd & Hu & Hl & new & Hh & Hq). split.
  - intros w' c H. rewrite Hw. destruct (which_eqb w w') eqn:E; [|exact H].
    destruct w, w'; try discriminate; rewrite H in Es; discriminate.
  - intros n0 (Hn & Hcl & Hsl). unfold tracked.
    rewrite Hh, length_app, Hl, Hcl. simpl.
    replace (length (heap e) + 1 - n0) with (S (length (heap e) - n0)) by lia.
    rewrite seq_S. replace (n0 + (length (heap e) - n0)) with (length (heap e)) by lia.
    split; [lia|split; [reflexivity|]].
    intros w' c H. rewrite Hw in H.
    destruct (which_eqb w w'); [injection H as <-; lia|apply Hsl in H; lia].
Qed.

Lemma advancing_ensure (w : which) : advancing (ensure w).
Proof.
  intros e.
  destruct (ensure_cases w e) as [[_ ->]|[(_ & _ & x & ->)|(Es & _ & e' & -> & Hc)]];
    try apply advance_refl.
  eapply advance_created; eauto.
Qed.

Lemma advancing_pubsub : advancing redis.pubsub.
Proof.
  rewrite pubsub_ensure.
  repeat first [apply advancing_ensure | apply advancing_gets
               | apply advancing_ret
               | apply advancing_bind; [|intros ?; cbv beta]].
Qed.

Lemma advancing_init : advancing redis.init.
Proof.
  rewrite init_ensure.
  repeat first [apply advancing_ensure | apply advancing_gets
               | apply advancing_ret | apply advancing_pubsub
               | apply advancing_bind; [|intros ?; cbv beta]].
Qed.

Lemma advancing_key (args : list jsval) : advancing (redis.key args).
Proof.
  unfold redis.key.
  apply advancing_bind; [|intros ?].
  - destruct (length (concat_args args) =? 0); [|apply advancing_ret].
    apply advancing_bind; [|intros ?; apply advancing_ret].
    intros e. split; [intros [] c; simpl; auto|].
    intros n0 (Hn & Hcl & Hsl).
    split; [exact Hn|split; [exact Hcl|]].
    intros w c H. apply (Hsl w c). destruct w; exact H.
  - apply advancing_bind; [apply advancing_gets|intros ?; apply advancing_ret].
Qed.

Lemma advancing_index (o : opts) : advancing (redis.index o).
Proof.
  unfold redis.index.
  apply advancing_bind; [|intros ?].
  - intros e. split; [intros [] c; simpl; auto|].
    intros n0 (Hn & Hcl & Hsl).
    split; [exact Hn|split; [exact Hcl|]].
    intros w c H. apply (Hsl w c). destruct w; exact H.
  - apply advancing_bind; [apply advancing_init|intros ?; apply advancing_ret].
Qed.

Lemma advancing_call (a : api) : is_reset a = false -> advancing (call a).
Proof.
  destruct a; simpl; intros H; try discriminate;
    try (apply advancing_bind; [|intros ?; apply advancing_ret]);
    auto using advancing_createClient, advancing_pubsub, advancing_init,
      advancing_key, advancing_index.
Qed.

Lemma advance_calls (l : list api) (e : exports) :
  forallb (fun a => negb (is_reset a)) l = true -> advance e (calls l e).
Proof.
  revert e. induction l as [|a l IH]; intros e H; simpl in *.
  - apply advance_refl.
  - apply andb_true_iff in H as [Ha Hl].
    eapply advance_trans; [|apply IH, Hl].
    apply advancing_call. now destruct (is_reset a).
Qed.

Lemma slot_truthy_ref (s : slot) :
  slot_truthy s = true -> exists c, s = Ref c.
Proof. destruct s; simpl; try discriminate. eauto. Qed.

Lemma keeps_truthy (e e' : exports) (w : which) :
  keeps e e' -> slot_truthy (slot_of w e) = true ->
  slot_of w e' = slot_of w e.
Proof.
  intros K H. destruct (slot_truthy_ref _ H) as [c Hc].
  rewrite Hc. now apply K.
Qed.

Lemma ensure_val (w : which) (e e' : exports) :
  ensure w e = (Val tt, e') ->
  slot_truthy (slot_of w e') = true /\ advance e e'.
Proof.
  intros H. split; [|pose proof (advancing_ensure w e) as A; now rewrite H in A].
  destruct (ensure_cases w e)
    as [[Es E]|[(_ & _ & x & E)|(Es & _ & e1 & E & Hw & _)]];
    rewrite E in H; try discriminate; injection H as <-; auto.
  rewrite Hw. now destruct w.
Qed.

Lemma ensure_cached (w : which) (e : exports) :
  slot_truthy (slot_of w e) = true -> ensure w e = (Val tt, e).
Proof.
  intros H.
  destruct (ensure_cases w e) as [[_ E]|[(Es & _)|(Es & _)]]; auto; congruence.
Qed.

Lemma pubsub_cached (e : exports) :
  slot_truthy (publisher e) = true -> slot_truthy (subscriber e) = true ->
  redis.pubsub e = (Val (publisher e, subscriber e), e).
Proof.
  intros Hp Hs. rewrite pubsub_ensure.
  rewrite (bind_val _ _ _ _ _ (ensure_cached The_publisher e Hp)).
  rewrite (bind_val _ _ _ _ _ (ensure_cached The_subscriber e Hs)).
  reflexivity.
Qed.

Lemma init_cached (e : exports) :
  (forall w, slot_truthy (slot_of w e) = true) ->
  redis.init e = (Val (_client e), e).
Proof.
  intros H. rewrite init_ensure.
  rewrite (bind_val _ _ _ _ _ (ensure_cached The_client e (H The_client))).
  rewrite (bind_val _ _ _ _ _
             (pubsub_cached e (H The_publisher) (H The_subscriber))).
  reflexivity.
Qed.

Lemma pubsub_val (e e' : exports) (ps : slot * slot) :
  redis.pubsub e = (Val ps, e') ->
  ps = (publisher e', subscriber e')
  /\ slot_truthy (publisher e') = true /\ slot_truthy (subscriber e') = true
  /\ advance e e'.
Proof.
  intros H. pose proof (advancing_pubsub e) as A. rewrite H in A.
  rewrite pubsub_ensure in H.
  apply bind_inv in H as ([] & e1 & H1 & H).
  apply bind_inv in H as ([] & e2 & H2 & H).
  injection H as <- <-.
  apply ensure_val in H1 as [T1 _]. apply ensure_val in H2 as [T2 [K2 _]].
  split; [reflexivity|]. split; [|split; [exact T2|exact A]].
  change (slot_truthy (slot_of The_publisher e2) = true).
  now rewrite (keeps_truthy e1 e2 The_publisher K2 T1).
Qed.

Lemma init_val (e e' : exports) (r : slot) :
  redis.init e = (Val r, e') ->
  r = _client e' /\ (forall w, slot_truthy (slot_of w e') = true)
  /\ advance e e'.
Proof.
  intros H. pose proof (advancing_init e) as A. rewrite H in A.
  rewrite init_ensure in H.
  apply bind_inv in H as ([] & e1 & H1 & H).
  apply bind_inv in H as (ps & e2 & H2 & H).
  injection H as <- <-.
  apply ensure_val in H1 as [T1 _].
  apply pubsub_val in H2 as (_ & Tp & Ts & [K2 _]).
  split; [reflexivity|]. split; [|exact A].
  intros []; [|exact Tp|exact Ts].
  now rewrite (keeps_truthy e1 e2 The_client K2 T1).
Qed.

Lemma quits_heap (e e' : exports) (c : nat) :
  heap e = heap e' -> quits e c = quits e' c.
Proof. unfold quits. now intros ->. Qed.

Lemma quits_update_nth (e : exports) (c c' : nat) (f : client -> client) :
  (forall o, quit_calls (f o) = quit_calls o) ->
  quits (with_heap (update_nth c f (heap e)) e) c' = quits e c'.
Proof.
  intros Hf. unfold quits. cbn [heap with_heap].
  rewrite nth_error_update_nth.
  destruct (Nat.eqb c c'); [|reflexivity].
  destruct (nth_error (heap e) c'); simpl; auto.
Qed.

Lemma quits_do_quit (e : exports) (c c' : nat) :
  c < length (heap e) ->
  quits (with_heap (update_nth c do_quit (heap e)) e) c'
  = if Nat.eqb c c' then S (quits e c') else quits e c'.
Proof.
  intros Hc. unfold quits. cbn [heap with_heap].
  rewrite nth_error_update_nth.
  destruct (Nat.eqb_spec c c') as [<-|]; [|reflexivity].
  destruct (nth_error (heap e) c) eqn:E; [reflexivity|].
  apply nth_error_None in E. lia.
Qed.

Lemma forEach_quit (l : list nat) (e : exports) :
  NoDup l -> (forall c, In c l -> c < length (heap e)) ->
  exists e', forEach l (fun c => on_client c do_quit) e = (Val tt, e')
    /\ same_module e e'
    /\ (forall c, In c l -> quits e' c = S (quits e c))
    /\ (forall c, ~ In c l -> quits e' c = quits e c).
Proof.
  revert e. induction l as [|c l IH]; intros e Hnd Hin.
  - exists e. split; [reflexivity|]. split; [apply same_module_refl|].
    split; [intros c []|reflexivity].
  - inversion Hnd as [|? ? Hc Hl]; subst.
    cbn [forEach].
    set (e1 := with_heap (update_nth c do_quit (heap e)) e).
    assert (H1 : on_client c do_quit e = (Val tt, e1)) by reflexivity.
    assert (S1 : same_module e e1).
    { repeat split. unfold e1. cbn. apply update_nth_length. }
    rewrite (bind_val _ _ _ _ _ H1).
    destruct (IH e1 Hl) as (e' & E & S' & Q1 & Q2).
    { intros c' Hc'. destruct S1 as (_ & _ & _ & _ & _ & _ & ->).
      apply Hin. now right. }
    exists e'. split; [exact E|]. split; [eapply same_module_trans; eauto|].
    assert (Hlt : c < length (heap e)) by (apply Hin; now left).
    split.
    + intros c' [<-|Hc'].
      * rewrite (Q2 c Hc). unfold e1. rewrite quits_do_quit by exact Hlt.
        now rewrite Nat.eqb_refl.
      * rewrite (Q1 c' Hc'). unfold e1. rewrite quits_do_quit by exact Hlt.
        destruct (Nat.eqb_spec c c') as [->|]; [contradiction|reflexivity].
    + intros c' Hc'. rewrite Q2 by (intros ?; apply Hc'; now right).
      unfold e1. rewrite quits_do_quit by exact Hlt.
      destruct (Nat.eqb_spec c c') as [->|]; [|reflexivity].
      exfalso. apply Hc'. now left.
Qed.

(** [reset] from a state in which the clients created so far are tracked:
    each of them receives one [quit()], and the module is blank again. *)
Lemma reset_spec (n0 : nat) (e : exports) :
  tracked n0 e ->
  exists e', redis.reset e = (Val tt, e')
    /\ (forall c, n0 <= c < length (heap e) -> quits e' c = S (quits e c))
    /\ (forall c, ~ (n0 <= c < length (heap e)) -> quits e' c = quits e c)
    /\ length (heap e') = length (heap e)
    /\ _client e' = Null /\ publisher e' = Null /\ subscriber e' = Null
    /\ _clients e' = [] /\ exports_defaults e' = defaults.
Proof.
  intros (Hn & Hcl & Hsl). unfold redis.reset.
  rewrite bind_gets.
  assert (H1 : exists e1,
    (match subscriber e with
     | Ref s => (on_client s do_unsubscribe ;;;
                 on_client s do_removeAllListeners)%js
     | _ => ret tt
     end) e = (Val tt, e1)
    /\ same_module e e1 /\ forall c, quits e1 c = quits e c).
  { destruct (subscriber e) as [| |s].
    - exists e. split; [reflexivity|]. split; [apply same_module_refl|auto].
    - exists e. split; [reflexivity|]. split; [apply same_module_refl|auto].
    - eexists. split; [reflexivity|]. split.
      + repeat split. cbn. now rewrite !update_nth_length.
      + intros c. cbn [snd].
        rewrite quits_update_nth by reflexivity.
        apply quits_update_nth. reflexivity. }
  destruct H1 as (e1 & E1 & S1 & Q1).
  rewrite (bind_val _ _ _ _ _ E1).
  rewrite bind_gets.
  destruct S1 as (Cl & Df & Sc & Sp & Ss & Su & Len).
  destruct (forEach_quit (_clients e1) e1) as (e2 & E2 & S2 & Q2 & Q3).
  { rewrite Cl, Hcl. apply seq_NoDup. }
  { intros c Hc. rewrite Cl, Hcl in Hc. apply in_seq in Hc. lia. }
  rewrite (bind_val _ _ _ _ _ E2).
  destruct S2 as (Cl2 & Df2 & Sc2 & Sp2 & Ss2 & Su2 & Len2).
  eexists. split; [reflexivity|].
  cbn [heap with_clients with_defaults with_subscriber with_publisher
       with_client _client publisher subscriber _clients exports_defaults
       snd].
  split; [|split; [|split; [lia|repeat split]]].
  - intros c Hc. rewrite (quits_heap _ e2) by reflexivity.
    rewrite Q2, Q1; [reflexivity|].
    rewrite Cl, Hcl. apply in_seq. lia.
  - intros c Hc. rewrite (quits_heap _ e2) by reflexivity.
    rewrite Q3, Q1; [reflexivity|].
    rewrite Cl, Hcl. intros Hin. apply in_seq in Hin. lia.
Qed.

Lemma blank_tracked (e : exports) : blank e -> tracked (length (heap e)) e.
Proof.
  intros [Hc Hs]. split; [lia|]. split.
  - now rewrite Hc, Nat.sub_diag.
  - intros w c H. specialize (Hs w). rewrite H in Hs. discriminate.
Qed.

Lemma blank_loaded : blank loaded.
Proof. split; [reflexivity|intros []; reflexivity]. Qed.

End ModuleFacts.

(* ================================================================== *)
(** * Properties: operations *)
(* ================================================================== *)

Section OperationFacts.
Context {hp : Host}.

(** ** [key] *)

Lemma key_nonempty (args : list jsval) (e : exports) :
  concat_args args <> [] ->
  redis.key args e
  = (Val (join (separator (exports_defaults e))
            ([VStr (prefix (exports_defaults e))] ++ concat_args args)), e).
Proof.
  intros H. unfold redis.key.
  destruct (concat_args args) as [|x l] eqn:E; [congruence|].
  reflexivity.
Qed.

Lemma key_empty (args : list jsval) (e : exports) :
  concat_args args = [] ->
  redis.key args e
  = (Val (join (separator (exports_defaults e))
            [VStr (prefix (exports_defaults e)); VStr (uuid_v1 (uuids e))]),
     with_uuids (S (uuids e)) e).
Proof.
  intros H. unfold redis.key. rewrite H. reflexivity.
Qed.

Lemma join_prefix (sep p : jstr) (x : jsval) (l : list jsval) :
  join sep (VStr p :: x :: l) = p ++ sep ++ join sep (x :: l).
Proof. reflexivity. Qed.

Lemma key_total (args : list jsval) (e : exports) :
  exists x l e',
    redis.key args e
    = (Val (join (separator (exports_defaults e))
              (VStr (prefix (exports_defaults e)) :: x :: l)), e')
    /\ exports_defaults e' = exports_defaults e.
Proof.
  destruct (concat_args args) as [|x l] eqn:E.
  - rewrite (key_empty _ _ E).
    exists (VStr (uuid_v1 (uuids e))), [], (with_uuids (S (uuids e)) e).
    split; reflexivity.
  - rewrite key_nonempty by congruence. rewrite E.
    exists x, l, e. split; reflexivity.
Qed.

(** ** Obtaining the client *)

Lemma ensure_ok (w : which) (e : exports) :
  can_connect (exports_defaults e) = true ->
  exists e', ensure w e = (Val tt, e')
             /\ exports_defaults e' = exports_defaults e
             /\ uuids e' = uuids e.
Proof.
  intros Hc.
  destruct (ensure_cases w e)
    as [[_ E]|[(_ & Hn & _)|(_ & _ & e' & E & _ & Hd & Hu & _)]];
    [eauto|congruence|eauto].
Qed.

Lemma init_ok (e : exports) :
  can_connect (exports_defaults e) = true ->
  exists c e', redis.init e = (Val (Ref c), e')
               /\ exports_defaults e' = exports_defaults e
               /\ uuids e' = uuids e.
Proof.
  intros Hc.
  destruct (ensure_ok The_client e Hc) as (e1 & E1 & D1 & U1).
  destruct (ensure_ok The_publisher e1) as (e2 & E2 & D2 & U2);
    [congruence|].
  destruct (ensure_ok The_subscriber e2) as (e3 & E3 & D3 & U3);
    [congruence|].
  assert (E : redis.init e = (Val (_client e3), e3)).
  { rewrite init_ensure, (bind_val _ _ _ _ _ E1), pubsub_ensure.
    erewrite bind_val; [reflexivity|].
    rewrite (bind_val _ _ _ _ _ E2), (bind_val _ _ _ _ _ E3). reflexivity. }
  destruct (init_val _ _ _ E) as (_ & Hall & _).
  destruct (slot_truthy_ref _ (Hall The_client)) as [c Hr]. simpl in Hr.
  exists c, e3. rewrite E, Hr. repeat split; congruence.
Qed.

Lemma can_connect_defaults : can_connect defaults = true.
Proof. reflexivity. Qed.

(** ** Runs *)

Section RunFacts.
Variable St : Type.
Variable serve : St -> request -> St * (jsval * jsval).
Variable info_object : jsval -> jsval.

Lemma run_Do {A} (m : M A) (k : A -> prog) (st : St) (e e' : exports) (a : A) :
  m e = (Val a, e') ->
  run St serve info_object (Do m k) st e = run St serve info_object (k a) st e'.
Proof. simpl. now intros ->. Qed.

Lemma run_Send_first (c : nat) (r : request) (k : jsval -> jsval -> prog)
  (st : St) (e : exports) :
  exists t st' e',
    run St serve info_object (Send (Ref c) r k) st e
    = (Requested c r :: t, st', e').
Proof.
  simpl. destruct (serve st r) as [st1 [error reply]].
  destruct (run St serve info_object (k error reply) st1 _) as [[t st2] e2].
  eauto.
Qed.

Lemma compact_key (k : jstr) (l : list jsval) :
  k <> [] -> compact (VStr k :: l) = VStr k :: compact l.
Proof. destruct k; [congruence|reflexivity]. Qed.

Lemma key_prefixed (key : jsval) (e : exports) :
  prefix (exports_defaults e) ++ separator (exports_defaults e) <> [] ->
  exists _key e', redis.key [key] e = (Val _key, e') /\ _key <> [].
Proof.
  intros Hp. destruct (key_total [key] e) as (x & l & e' & E & _).
  eexists _, e'. split; [exact E|].
  rewrite join_prefix, app_assoc.
  destruct (prefix (exports_defaults e) ++ separator (exports_defaults e));
    [congruence|discriminate].
Qed.

Lemma begins_nonempty (w s : jstr) : w <> [] -> begins_with w s -> s <> [].
Proof. intros Hw [rest ->]. destruct w; [congruence|discriminate]. Qed.

Ltac send_first c e1 _key e2 Hc Hkey :=
  match goal with
  | |- context [run _ _ _ (Send (Ref c) ?r ?k) ?st e2] =>
      let t := fresh "t" in
      let st' := fresh "st'" in
      let e' := fresh "e'" in
      let R := fresh "R" in
      destruct (run_Send_first c r k st e2) as (t & st' & e' & R);
      exists c, e1, _key, e2; eexists _, t, st', e';
      split; [exact Hc|]; split; [exact Hkey|]; exact R
  end.

(** Each command, given a key that is not a function (and a value that is
    not one), obtains the client, builds the key and sends its request. *)
Lemma set_sends (key value expiry time strategy done : jsval)
  (st : St) (e : exports) :
  can_connect (exports_defaults e) = true ->
  prefix (exports_defaults e) ++ separator (exports_defaults e) <> [] ->
  isFunction key = false -> isFunction value = false ->
  sends_under_key serve info_object SET key
    (commands.set key value expiry time strategy done) st e.
Proof.
  intros Hd Hp Hk Hv. unfold sends_under_key, commands.set. rewrite Hk, Hv.
  destruct (init_ok e Hd) as (c & e1 & Hc & Hd1 & _).
  destruct (key_prefixed key e1) as (_key & e2 & Hkey & Hb);
    [now rewrite Hd1|].
  rewrite (run_Do _ _ _ _ _ _ Hc), (run_Do _ _ _ _ _ _ Hkey).
  rewrite compact_key by exact Hb.
  send_first c e1 _key e2 Hc Hkey.
Qed.

Lemma get_sends (key done : jsval) (st : St) (e : exports) :
  can_connect (exports_defaults e) = true ->
  prefix (exports_defaults e) ++ separator (exports_defaults e) <> [] ->
  isFunction key = false ->
  sends_under_key serve info_object GET key (commands.get key done) st e.
Proof.
  intros Hd Hp Hk. unfold sends_under_key, commands.get. rewrite Hk.
  destruct (init_ok e Hd) as (c & e1 & Hc & Hd1 & _).
  destruct (key_prefixed key e1) as (_key & e2 & Hkey & Hb);
    [now rewrite Hd1|].
  rewrite (run_Do _ _ _ _ _ _ Hc), (run_Do _ _ _ _ _ _ Hkey).
  rewrite compact_key by exact Hb.
  send_first c e1 _key e2 Hc Hkey.
Qed.

Lemma hmset_sends (key value done fields : jsval) (st : St) (e : exports) :
  can_connect (exports_defaults e) = true ->
  prefix (exports_defaults e) ++ separator (exports_defaults e) <> [] ->
  isFunction key = false -> isFunction value = false ->
  flat value = Val fields ->
  sends_under_key serve info_object HMSET key
    (commands.hmset key value done) st e.
Proof.
  intros Hd Hp Hk Hv Hf. unfold sends_under_key, commands.hmset.
  rewrite Hk, Hv.
  destruct (init_ok e Hd) as (c & e1 & Hc & Hd1 & _).
  destruct (key_prefixed key e1) as (_key & e2 & Hkey & Hb);
    [now rewrite Hd1|].
  rewrite (run_Do _ _ _ _ _ _ Hc), (run_Do _ _ _ _ _ _ Hkey), Hf.
  rewrite compact_key by exact Hb.
  send_first c e1 _key e2 Hc Hkey.
Qed.

Lemma hgetall_sends (key done : jsval) (st : St) (e : exports) :
  can_connect (exports_defaults e) = true ->
  prefix (exports_defaults e) ++ separator (exports_defaults e) <> [] ->
  isFunction key = false ->
  sends_under_key serve info_object HGETALL key
    (commands.hgetall key done) st e.
Proof.
  intros Hd Hp Hk. unfold sends_under_key, commands.hgetall. rewrite Hk.
  destruct (init_ok e Hd) as (c & e1 & Hc & Hd1 & _).
  destruct (key_prefixed key e1) as (_key & e2 & Hkey & Hb);
    [now rewrite Hd1|].
  rewrite (run_Do _ _ _ _ _ _ Hc), (run_Do _ _ _ _ _ _ Hkey).
  rewrite compact_key by exact Hb.
  send_first c e1 _key e2 Hc Hkey.
Qed.

(** ** Errors handed to callbacks *)

Lemma relays_run (known : list jsval) (p : prog) :
  relays known p ->
  forall (st : St) (e : exports) (f : fn) (error : jsval) (rest : list jsval),
    In (Called f (error :: rest)) (trace_of serve info_object p st e) ->
    truthy error = true ->
    In error known
    \/ exists reply,
         In (Replied error reply) (trace_of serve info_object p st e).
Proof.
  unfold trace_of. intros H.
  induction H as [known v|known x|known|known g|known g err0 rest0 Hin
                 |known A m k Hk IH|known c r k Hk IH];
    intros st e fn0 error rest Hc Ht; simpl in *.
  - destruct Hc as [Hc|[]]; discriminate.
  - destruct Hc as [Hc|[]]; discriminate.
  - destruct Hc as [Hc|[]]; discriminate.
  - destruct g; simpl in Hc; destruct Hc as [Hc|[]]; discriminate.
  - destruct g; simpl in Hc; destruct Hc as [Hc|[]]; try discriminate.
    injection Hc as _ <- _. left. auto.
  - destruct (m e) as [[a|x|] e1]; simpl in *.
    + eapply IH; eauto.
    + destruct Hc as [Hc|[]]; discriminate.
    + destruct Hc as [Hc|[]]; discriminate.
  - destruct c as [| |c]; simpl in *;
      try (destruct Hc as [Hc|[]]; discriminate).
    destruct (serve st r) as [st1 [err1 reply1]].
    destruct (run St serve info_object (k err1 reply1) st1 _)
      as [[t st2] e2] eqn:R.
    simpl in *. destruct Hc as [Hc|[Hc|Hc]]; try discriminate.
    specialize (IH err1 reply1 st1 (note_info info_object c r reply1 e)
                  fn0 error rest).
    rewrite R in IH. simpl in IH.
    destruct (IH Hc Ht) as [[<-|Hk']|[reply Hr]]; eauto.
Qed.

Lemma relays_errors_from_client (p : prog) (st : St) (e : exports) :
  relays [] p -> errors_from_client (trace_of serve info_object p st e).
Proof.
  intros H f error rest Hc Ht.
  destruct (relays_run [] p H st e f error rest Hc Ht) as [[]|Hr]. exact Hr.
Qed.

End RunFacts.

Lemma relays_set (key value expiry time strategy done : jsval) :
  relays [] (commands.set key value expiry time strategy done).
Proof.
  unfold commands.set.
  destruct (isFunction key); [constructor|].
  destruct (isFunction value); [constructor|].
  repeat (constructor; intros); simpl; auto.
Qed.

Lemma relays_get (key done : jsval) : relays [] (commands.get key done).
Proof.
  unfold commands.get.
  destruct (isFunction key); [constructor|].
  repeat (constructor; intros).
  destruct (commands.parse reply); repeat (constructor; intros); simpl; auto.
Qed.

Lemma relays_hmset (key value done : jsval) :
  relays [] (commands.hmset key value done).
Proof.
  unfold commands.hmset.
  destruct (isFunction key); [constructor|].
  destruct (isFunction value); [constructor|].
  repeat (constructor; intros).
  destruct (flat value); repeat (constructor; intros); simpl; auto.
Qed.

Lemma relays_hgetall (key done : jsval) :
  relays [] (commands.hgetall key done).
Proof.
  unfold commands.hgetall.
  destruct (isFunction key); [constructor|].
  repeat (constructor; intros).
  destruct (unflat reply); repeat (constructor; intros); simpl; auto.
Qed.

Lemma relays_info (done : jsval) : relays [] (redis.info done).
Proof.
  unfold redis.info. repeat (constructor; intros); simpl; auto.
Qed.

Lemma relays_clear (pattern done : jsval) : relays [] (redis.clear pattern done).
Proof.
  unfold redis.clear.
  destruct (truthy pattern && isFunction pattern);
    repeat (constructor; intros);
    (destruct (truthy error) eqn:Et;
     [constructor; simpl; auto
     |constructor; intros;
      destruct reply; repeat (constructor; intros); simpl; auto]).
Qed.

Lemma relays_count (patterns : list jsval) :
  counted patterns <> [] -> relays [] (redis.count patterns).
Proof.
  unfold counted, redis.count. cbv zeta.
  set (ps := if isFunction (last_ (uniq (compact (concat_args patterns))))
             then initial (uniq (compact (concat_args patterns)))
             else uniq (compact (concat_args patterns))).
  intros H. destruct ps as [|p ps']; [congruence|].
  cbn [length Nat.ltb Nat.leb].
  repeat (constructor; intros).
  destruct reply; try (destruct (truthy _));
    repeat (constructor; intros); simpl; auto.
Qed.

Lemma count_without_patterns (patterns : list jsval) :
  counted patterns = [] ->
  redis.count patterns
  = Invoke (last_ (uniq (compact (concat_args patterns))))
      [VErr (lit "Missing Count Patterns") (Some 400%Z)].
Proof.
  unfold counted, redis.count. cbv zeta. now intros ->.
Qed.

(** ** [split] on a one-character separator *)

Lemma split_go_none (c : ascii) (s : jstr) :
  ~ In c s -> split_go [c] 0 s = [s].
Proof.
  induction s as [|a s IH]; intros H; [reflexivity|].
  cbn [split_go starts].
  destruct (Ascii.eqb_spec c a) as [->|Hn]; [exfalso; apply H; now left|].
  rewrite IH; [reflexivity|]. intros Hin. apply H. now right.
Qed.

Lemma split_go_at (c : ascii) (p u : jstr) :
  ~ In c p -> split_go [c] 0 (p ++ c :: u) = p :: split_go [c] 0 u.
Proof.
  induction p as [|a p IH]; intros H.
  - cbn [app split_go starts]. rewrite Ascii.eqb_refl.
    destruct u; reflexivity.
  - cbn [app split_go starts].
    destruct (Ascii.eqb_spec c a) as [->|Hn]; [exfalso; apply H; now left|].
    rewrite IH; [reflexivity|]. intros Hin. apply H. now right.
Qed.

Lemma split_two (c : ascii) (p u : jstr) :
  ~ In c p -> ~ In c u -> split [c] (p ++ [c] ++ u) = [p; u].
Proof.
  intros Hp Hu. unfold split. cbn [app].
  now rewrite split_go_at, split_go_none.
Qed.

End OperationFacts.

(* ================================================================== *)
(** * Properties: runs against the reference store *)
(* ================================================================== *)

Section StoreFacts.
Context {hp : Host} {srv : Server}.
Variable info_object : jsval -> jsval.

Lemma init_twice (e : exports) :
  can_connect (exports_defaults e) = true ->
  exists c e1, redis.init e = (Val (Ref c), e1)
               /\ redis.init e1 = (Val (Ref c), e1)
               /\ exports_defaults e1 = exports_defaults e
               /\ uuids e1 = uuids e.
Proof.
  intros Hc. destruct (init_ok e Hc) as (c & e1 & E & Hd & Hu).
  exists c, e1. split; [exact E|]. split; [|auto].
  destruct (init_val _ _ _ E) as (Hr & Hall & _).
  rewrite init_cached by exact Hall. now rewrite <- Hr.
Qed.

Lemma jstr_eqb_sym (a b : jstr) : jstr_eqb a b = jstr_eqb b a.
Proof.
  destruct (jstr_eqb b a) eqn:E.
  - apply jstr_eqb_eq in E. subst. apply jstr_eqb_refl.
  - apply jstr_eqb_neq in E. apply jstr_eqb_neq. congruence.
Qed.

Lemma filter_all {A} (l : list A) : filter (fun _ => true) l = l.
Proof. induction l; simpl; congruence. Qed.

Lemma filter_filter {A} (f g : A -> bool) (l : list A) :
  filter f (filter g l) = filter (fun x => g x && f x) l.
Proof.
  induction l as [|x l IH]; simpl; [reflexivity|].
  destruct (g x); simpl; [destruct (f x)|]; now rewrite IH.
Qed.

Lemma fold_delete (ks : list jstr) (st : store) :
  fold_left (fun s k => delete k s) ks st
  = filter (fun kx => negb (existsb (jstr_eqb (fst kx)) ks)) st.
Proof.
  revert st. induction ks as [|k ks IH]; intros st; simpl.
  - now rewrite filter_all.
  - rewrite IH. unfold delete. rewrite filter_filter.
    apply filter_ext. intros [k' x]. simpl.
    rewrite (jstr_eqb_sym k k'). now rewrite negb_orb.
Qed.

Lemma exec_del (ks : list jstr) (st : store) :
  exists replies,
    exec st (map (fun key => (DEL, [key])) (map VStr ks))
    = (fold_left (fun s k => delete k s) ks st, replies).
Proof.
  revert st. induction ks as [|k ks IH]; intros st; simpl.
  - eauto.
  - destruct (IH (delete k st)) as [replies ->]. eauto.
Qed.

Lemma existsb_matching (p k : jstr) (st : store) :
  In k (map fst st) ->
  existsb (jstr_eqb k) (matching p st) = glob p k.
Proof.
  intros Hin. unfold matching. destruct (glob p k) eqn:G.
  - apply existsb_exists. exists k. split; [|apply jstr_eqb_refl].
    apply filter_In. auto.
  - destruct (existsb _ _) eqn:E; [|reflexivity].
    apply existsb_exists in E as (y & Hy & Heq).
    apply jstr_eqb_eq in Heq. subst y.
    apply filter_In in Hy as [_ Hy]. congruence.
Qed.

Lemma delete_matching (p : jstr) (st : store) :
  fold_left (fun s k => delete k s) (matching p st) st
  = filter (fun kx => negb (glob p (fst kx))) st.
Proof.
  rewrite fold_delete. apply filter_ext_in. intros [k x] Hin. simpl.
  rewrite existsb_matching; [reflexivity|].
  apply in_map_iff. exists (k, x). auto.
Qed.

(** The pattern [clear] computes from its arguments. *)
Lemma clear_pattern_computed (d : settings) (pattern : option jstr) :
  let arg := match pattern with Some p => VStr p | None => VUndef end in
  join [] ([if 1 <? length (compact [VStr (prefix d); arg])
            then VStr (join (separator d) (compact [VStr (prefix d); arg]))
            else VArr (compact [VStr (prefix d); arg])]
           ++ [VStr (lit "*")])
  = clear_pattern d pattern.
Proof.
  unfold clear_pattern.
  destruct (prefix d) as [|a pre], pattern as [[|b p]|]; cbn;
    rewrite ?app_nil_r; reflexivity.
Qed.

Lemma run_Invoke {St : Type} (serve' : St -> request -> St * (jsval * jsval))
  (f : jsval) (args : list jsval) (st : St) (e : exports) :
  run St serve' info_object (Invoke f args) st e = ([ending f args], st, e).
Proof. destruct f; reflexivity. Qed.

(** [clear] against the reference store. *)
Lemma clear_runs (pattern : option jstr) (done : jsval) (st : store)
  (e : exports) :
  can_connect (exports_defaults e) = true ->
  let arg := match pattern with Some p => VStr p | None => VUndef end in
  let pat := clear_pattern (exports_defaults e) pattern in
  exists c replies e',
    run store serve info_object (redis.clear arg done) st e
    = ([Requested c (Single KEYS [VStr pat]);
        Replied VNull (VArr (map VStr (matching pat st)));
        Requested c (Exec (map (fun key => (DEL, [key]))
                             (map VStr (matching pat st))));
        Replied VNull (VArr replies);
        ending (if negb (truthy done) then VFun Noop else done)
          [VNull; VArr replies]],
       filter (fun kx => negb (glob pat (fst kx))) st, e').
Proof.
  intros Hc arg pat.
  destruct (init_twice e Hc) as (c & e1 & E & E1 & Hd & _).
  destruct (exec_del (matching pat st) st) as [replies Hx].
  exists c, replies, e1.
  assert (Hn : truthy arg && isFunction arg = false).
  { subst arg. destruct pattern as [[|? ?]|]; reflexivity. }
  unfold redis.clear. rewrite Hn. cbv beta iota zeta.
  rewrite (run_Do _ _ _ (gets exports_defaults) _ _ e e (exports_defaults e) eq_refl).
  pose proof (clear_pattern_computed (exports_defaults e) pattern) as Hp.
  cbv zeta in Hp. fold arg in Hp. rewrite Hp. clear Hp.
  fold pat.
  rewrite (run_Do _ _ _ _ _ _ _ _ _ E).
  rewrite (run_Do _ _ _ _ _ _ _ _ _ E1).
  cbn [run serve command note_info truthy].
  fold (matching pat st).
  assert (Em : redis.multi e1 = (Val (Ref c), e1)) by exact E1.
  rewrite Em. cbv beta iota zeta. rewrite Hx, delete_matching.
  unfold ending.
  destruct (if negb (truthy done) then VFun Noop else done); reflexivity.
Qed.

Lemma clear_callback_first (f : fn) (done : jsval) :
  redis.clear (VFun f) done = redis.clear VUndef (VFun f).
Proof. reflexivity. Qed.

Lemma lookup_filter (g : jstr -> bool) (k : jstr) (st : store) :
  lookup k (filter (fun kx => g (fst kx)) st)
  = if g k then lookup k st else None.
Proof.
  induction st as [|[k' x] st IH]; simpl.
  - now destruct (g k).
  - destruct (g k') eqn:G; simpl.
    + destruct (jstr_eqb k k') eqn:E; [|exact IH].
      apply jstr_eqb_eq in E. subst. now rewrite G.
    + rewrite IH. destruct (jstr_eqb k k') eqn:E; [|reflexivity].
      apply jstr_eqb_eq in E. subst. now rewrite G.
Qed.

(** ** [count] against the reference store *)

Lemma starts_app (w r : jstr) : starts w (w ++ r) = Some r.
Proof.
  induction w as [|a w IH]; simpl; [now destruct r|].
  now rewrite Ascii.eqb_refl.
Qed.

Lemma counted_pattern_script (p : jstr) :
  literal p -> counted_pattern (redis.count_script (VStr p)) = Some p.
Proof.
  intros Hl. unfold counted_pattern, redis.count_script.
  cbn [join map elt_string to_string concat_with app].
  rewrite starts_app, length_app.
  replace (length p + length redis.script_tail - 2) with (length p + 0)
    by (cbn; lia).
  rewrite firstn_app_2, skipn_app, Nat.add_0_r. cbn [firstn].
  rewrite app_nil_r, skipn_all, Nat.sub_diag. cbn [app skipn].
  unfold literal in Hl. rewrite Hl, jstr_eqb_refl. reflexivity.
Qed.

Lemma exec_eval (ps : list jstr) (st : store) :
  Forall literal ps ->
  exec st (map (fun pattern =>
                  (EVAL, [VStr (redis.count_script pattern); VNum 0]))
             (map VStr ps))
  = (st, map (fun p => VNum (Z.of_nat (length (matching p st)))) ps).
Proof.
  induction 1 as [|p ps Hp _ IH]; [reflexivity|].
  cbn [map exec command]. rewrite (counted_pattern_script p Hp).
  rewrite IH. reflexivity.
Qed.

Lemma concat_args_strings (l : list jstr) (f : fn) :
  concat_args (map VStr l ++ [VFun f]) = map VStr l ++ [VFun f].
Proof.
  unfold concat_args. induction l as [|x l IH]; simpl; [reflexivity|].
  now rewrite IH.
Qed.

Lemma compact_strings (l : list jstr) (f : fn) :
  compact (map VStr l ++ [VFun f])
  = map VStr (filter (fun s => negb (length s =? 0)) l) ++ [VFun f].
Proof.
  unfold compact. induction l as [|x l IH]; simpl; [reflexivity|].
  rewrite IH. now destruct x.
Qed.

Lemma existsb_strings (x : jstr) (seen : list jstr) :
  existsb (jsval_eqb (VStr x)) (map VStr seen) = existsb (jstr_eqb x) seen.
Proof.
  induction seen as [|y seen IH]; [reflexivity|].
  cbn [map existsb]. rewrite IH. reflexivity.
Qed.

Lemma existsb_function (f : fn) (seen : list jstr) :
  existsb (jsval_eqb (VFun f)) (map VStr seen) = false.
Proof.
  induction seen as [|y seen IH]; [reflexivity|].
  cbn [map existsb]. rewrite IH. reflexivity.
Qed.

Lemma uniq_acc_strings (seen l : list jstr) (f : fn) :
  uniq_acc (map VStr seen) (map VStr l ++ [VFun f])
  = map VStr (filter (fun x => negb (existsb (jstr_eqb x) seen)) (dedup l))
    ++ [VFun f].
Proof.
  revert seen. induction l as [|x l IH]; intros seen.
  - cbn [map app uniq_acc dedup filter]. rewrite existsb_function.
    reflexivity.
  - cbn [map app uniq_acc dedup filter].
    rewrite existsb_strings, filter_filter.
    destruct (existsb (jstr_eqb x) seen) eqn:E; cbn [negb].
    + rewrite IH. f_equal. f_equal. apply filter_ext_in. intros y _.
      destruct (jstr_eqb y x) eqn:Eyx; [|reflexivity].
      apply jstr_eqb_eq in Eyx. subst y. now rewrite E.
    + change (VStr x :: map VStr seen) with (map VStr (x :: seen)).
      rewrite IH. cbn [map app]. f_equal. f_equal. f_equal.
      apply filter_ext. intros y. cbn [existsb]. now rewrite negb_orb.
Qed.

Lemma counted_strings (patterns : list jstr) (f : fn) :
  uniq (compact (concat_args (map VStr patterns ++ [VFun f])))
  = map VStr (distinct_nonempty patterns) ++ [VFun f].
Proof.
  rewrite concat_args_strings, compact_strings. unfold uniq.
  change (@nil jsval) with (map VStr []).
  rewrite uniq_acc_strings. cbn [existsb negb]. now rewrite filter_all.
Qed.

(** [count] with string patterns and a callback, against the reference
    store. *)
Lemma count_runs (patterns : list jstr) (f : fn) (st : store) (e : exports) :
  can_connect (exports_defaults e) = true ->
  Forall literal (distinct_nonempty patterns) ->
  distinct_nonempty patterns <> [] ->
  let counts := map (fun p => VNum (Z.of_nat (length (matching p st))))
                  (distinct_nonempty patterns) in
  exists c e',
    run store serve info_object
      (redis.count (map VStr patterns ++ [VFun f])) st e
    = ([Requested c
          (Exec (map (fun pattern =>
                        (EVAL, [VStr (redis.count_script pattern); VNum 0]))
                   (map VStr (distinct_nonempty patterns))));
        Replied VNull (VArr counts);
        Called f [VNull; normalized counts]], st, e').
Proof.
  intros Hc Hl Hne counts.
  destruct (init_twice e Hc) as (c & e1 & E & _).
  exists c, e1. unfold redis.count. cbv zeta.
  rewrite counted_strings.
  unfold last_, initial. rewrite last_last, removelast_last. cbn [isFunction].
  destruct (distinct_nonempty patterns) as [|p ps] eqn:D; [congruence|].
  cbn [map length Nat.ltb Nat.leb].
  change (VStr p :: map VStr ps) with (map VStr (p :: ps)).
  assert (Em : redis.multi e = (Val (Ref c), e1)) by exact E.
  rewrite (run_Do _ _ _ _ _ _ _ _ _ Em).
  cbn [run serve note_info]. rewrite (exec_eval _ _ Hl). reflexivity.
Qed.

Lemma count_alone (patterns : list jstr) (f : fn) (st : store) (e : exports) :
  distinct_nonempty patterns = [] ->
  run store serve info_object
    (redis.count (map VStr patterns ++ [VFun f])) st e
  = ([Called f [VErr (lit "Missing Count Patterns") (Some 400%Z)]], st, e).
Proof.
  intros D. unfold redis.count. cbv zeta.
  rewrite counted_strings, D.
  reflexivity.
Qed.

End StoreFacts.

(* ================================================================== *)
(** * Properties: the scalar shim *)
(* ================================================================== *)

(** ** String literals *)

Lemma parse_quoted_char (c : ascii) (tail : jstr) :
  parse_chars (quote_char c ++ tail) = cons_char c (parse_chars tail).
Proof.
  destruct c as [[] [] [] [] [] [] [] []]; reflexivity.
Qed.

Lemma parse_quoted (s rest : jstr) :
  parse_chars (flat_map quote_char s ++ dq :: rest) = POk s rest.
Proof.
  induction s as [|c s IH]; [reflexivity|].
  cbn [flat_map]. rewrite <- app_assoc, parse_quoted_char, IH. reflexivity.
Qed.

Lemma parse_quote (s rest : jstr) :
  parse_chars (tl (quote s ++ rest)) = POk s rest.
Proof.
  unfold quote. cbn [app tl]. rewrite <- app_assoc. apply parse_quoted.
Qed.

(** ** Number tokens *)

Lemma uint_of_chars_uint_chars (d : Decimal.uint) :
  uint_of_chars (uint_chars d) = d.
Proof.
  induction d as [|d IH|d IH|d IH|d IH|d IH|d IH|d IH|d IH|d IH|d IH];
    [reflexivity|..]; cbn [uint_chars uint_of_chars]; rewrite IH;
    reflexivity.
Qed.

Lemma uint_chars_digits (d : Decimal.uint) :
  forallb is_digit (uint_chars d) = true.
Proof.
  induction d as [|d IH|d IH|d IH|d IH|d IH|d IH|d IH|d IH|d IH|d IH];
    [reflexivity|..]; cbn [uint_chars forallb]; rewrite IH; reflexivity.
Qed.

Lemma number_end_not_digit (c : ascii) (rest : jstr) :
  number_end (c :: rest) = true -> is_digit c = false.
Proof.
  cbn. rewrite !andb_true_iff, negb_true_iff. tauto.
Qed.

Lemma span_digits_app (ds rest : jstr) :
  forallb is_digit ds = true -> number_end rest = true ->
  span_digits (ds ++ rest) = (ds, rest).
Proof.
  intros Hd Hr. induction ds as [|c ds IH]; cbn [app].
  - destruct rest as [|c rest]; [reflexivity|].
    cbn [span_digits]. now rewrite (number_end_not_digit _ _ Hr).
  - cbn [forallb] in Hd. apply andb_true_iff in Hd as [Hc Hd].
    cbn [span_digits]. rewrite Hc, (IH Hd). reflexivity.
Qed.

Lemma to_uint_head (p : positive) :
  exists c t, uint_chars (Pos.to_uint p) = c :: t
              /\ Ascii.eqb c "0"%char = false
              /\ Ascii.eqb c "-"%char = false.
Proof.
  pose proof (DecimalPos.Unsigned.to_of (Pos.to_uint p)) as H.
  rewrite DecimalPos.Unsigned.of_to in H. cbn [N.to_uint] in H.
  destruct (Pos.to_uint p) as [|d|d|d|d|d|d|d|d|d|d] eqn:E;
    try (cbn [uint_chars]; eexists _, _; repeat split; reflexivity).
  - exfalso. now apply (DecimalPos.Unsigned.to_uint_nonnil p).
  - exfalso. rewrite DecimalFacts.unorm_D0 in H.
    unfold Decimal.unorm in H.
    destruct (Decimal.nzhead d) eqn:N; try discriminate.
    + injection H as ->. now apply (DecimalPos.Unsigned.to_uint_nonzero p).
    + apply (DecimalFacts.nzhead_nonzero d d). congruence.
Qed.

Lemma Z_of_to_uint (p : positive) : Z.of_uint (Pos.to_uint p) = Z.pos p.
Proof.
  unfold Z.of_uint. now rewrite DecimalPos.Unsigned.of_to.
Qed.

Lemma number_end_continues (rest : jstr) :
  number_end rest = true -> continues_number rest = false.
Proof.
  destruct rest as [|c rest]; [reflexivity|]. cbn.
  rewrite !andb_true_iff, !negb_true_iff. intros [[[_ ->] ->] ->]. reflexivity.
Qed.

Lemma digits_token_positive (neg : bool) (p : positive) (rest : jstr) :
  (Z.pos p <= max_safe_integer)%Z ->
  number_end rest = true ->
  digits_token neg (uint_chars (Pos.to_uint p) ++ rest)
  = POk (VNum (if neg then Z.neg p else Z.pos p)) rest.
Proof.
  intros Hn Hr. unfold digits_token.
  rewrite (span_digits_app _ rest (uint_chars_digits _) Hr).
  destruct (to_uint_head p) as (c & t & E & H0 & _).
  rewrite E at 1. rewrite H0. cbn [andb].
  rewrite (number_end_continues rest Hr).
  rewrite uint_of_chars_uint_chars, Z_of_to_uint.
  assert (Hs : (max_safe_integer <? Z.pos p)%Z = false)
    by (apply Z.ltb_ge; lia).
  rewrite Hs. destruct neg; reflexivity.
Qed.

Lemma parse_number_decimal (n : Z) (rest : jstr) :
  (Z.abs n <=? max_safe_integer)%Z = true ->
  number_end rest = true ->
  parse_number (decimal n ++ rest) = POk (VNum n) rest.
Proof.
  intros Hn Hr. apply Z.leb_le in Hn.
  unfold decimal, parse_number. destruct n as [|p|p]; cbn [Z.to_int int_chars].
  - cbn [uint_chars app]. change (Ascii.eqb "0" "-") with false. cbv iota.
    unfold digits_token.
    change ("0"%char :: rest) with (["0"%char] ++ rest).
    rewrite (span_digits_app ["0"%char] rest eq_refl Hr).
    cbn [andb negb length Nat.eqb].
    change (Ascii.eqb "0" "0") with true. cbn [andb].
    rewrite (number_end_continues rest Hr). reflexivity.
  - destruct (to_uint_head p) as (c & t & E & _ & Hm).
    rewrite E. cbn [app]. rewrite Hm.
    change (c :: t ++ rest) with ((c :: t) ++ rest). rewrite <- E.
    apply (digits_token_positive false); [cbn in Hn; lia|exact Hr].
  - cbn [app]. change (Ascii.eqb "-" "-") with true. cbv iota.
    apply (digits_token_positive true); [cbn in Hn; lia|exact Hr].
Qed.

(** ** Objects *)

Lemma set_prop_fresh (k : jstr) (x : jsval) (o : list (jstr * jsval)) :
  existsb (jstr_eqb k) (map fst o) = false ->
  set_prop k x o = o ++ [(k, x)].
Proof.
  induction o as [|[k' y] o IH]; cbn [map existsb set_prop app fst];
    [reflexivity|].
  intros H. apply orb_false_iff in H as [Hk Ho].
  rewrite Hk, (IH Ho). reflexivity.
Qed.

Lemma existsb_app {A} (f : A -> bool) (l l' : list A) :
  existsb f (l ++ l') = existsb f l || existsb f l'.
Proof. induction l; simpl; [reflexivity|]. now rewrite IHl, orb_assoc. Qed.

Lemma fold_set_prop (ms acc : list (jstr * jsval)) :
  distinct (map fst ms) = true ->
  (forall k, In k (map fst ms) -> existsb (jstr_eqb k) (map fst acc) = false) ->
  fold_left (fun o kv => set_prop (fst kv) (snd kv) o) ms acc = acc ++ ms.
Proof.
  revert acc. induction ms as [|[k x] ms IH]; intros acc Hd Hacc.
  - now rewrite app_nil_r.
  - cbn [map fst distinct] in Hd. apply andb_true_iff in Hd as [Hk Hd].
    apply negb_true_iff in Hk.
    cbn [fold_left fst snd].
    rewrite set_prop_fresh by (apply Hacc; now left).
    rewrite IH; [now rewrite <- app_assoc|exact Hd|].
    intros k' Hk'. rewrite map_app, existsb_app. cbn [map fst existsb].
    rewrite (Hacc k') by (now right). cbn [orb]. rewrite orb_false_r.
    destruct (jstr_eqb k' k) eqn:E; [|reflexivity].
    apply jstr_eqb_eq in E. subst k'.
    assert (existsb (jstr_eqb k) (map fst ms) = true); [|congruence].
    apply existsb_exists. exists k. split; [exact Hk'|apply jstr_eqb_refl].
Qed.

Lemma object_of_distinct (ms : list (jstr * jsval)) :
  distinct (map fst ms) = true -> object_of ms = ms.
Proof.
  intros H. unfold object_of. now rewrite fold_set_prop.
Qed.

(** ** One step of the parser *)

Lemma digit_dispatch (c : ascii) :
  is_digit c || Ascii.eqb c "-"%char = true ->
  is_ws c = false
  /\ Ascii.eqb c "["%char = false /\ Ascii.eqb c "{"%char = false
  /\ Ascii.eqb c dq = false /\ Ascii.eqb c "t"%char = false
  /\ Ascii.eqb c "f"%char = false /\ Ascii.eqb c "n"%char = false
  /\ Ascii.eqb c "]"%char = false /\ Ascii.eqb c "}"%char = false.
Proof.
  destruct c as [[] [] [] [] [] [] [] []]; intros H; try discriminate;
    repeat split; reflexivity.
Qed.

Lemma parse_value_number (f : nat) (c : ascii) (s : jstr) :
  is_digit c || Ascii.eqb c "-"%char = true ->
  parse_value (S f) (c :: s) = parse_number (c :: s).
Proof.
  intros H.
  destruct (digit_dispatch c H) as (W & A & O & Q & T & F & N & _).
  cbn [parse_value skip_ws]. rewrite W, A, O, Q, T, F, N. reflexivity.
Qed.

Lemma parse_value_string (f : nat) (s : jstr) :
  parse_value (S f) (dq :: s) = lift VStr (parse_chars s).
Proof. reflexivity. Qed.

Lemma parse_value_array (f : nat) (s : jstr) :
  opens_value s = true ->
  parse_value (S f) ("["%char :: s) = lift VArr (parse_elements f s).
Proof.
  destruct s as [|c s]; [discriminate|]. cbn [opens_value].
  rewrite !andb_true_iff, !negb_true_iff. intros [[W A] _].
  cbn [parse_value skip_ws]. change (is_ws "[") with false. cbv iota.
  change (Ascii.eqb "[" "[") with true. cbv iota.
  cbn [skip_ws]. rewrite W, A. reflexivity.
Qed.

Lemma parse_value_object (f : nat) (s : jstr) :
  opens_value s = true ->
  parse_value (S f) ("{"%char :: s)
  = match parse_members f s with
    | POk ms r' =>
        if existsb is_index (map fst ms) then PBeyond
        else POk (VObj (object_of ms)) r'
    | PErr => PErr
    | PBeyond => PBeyond
    end.
Proof.
  destruct s as [|c s]; [discriminate|]. cbn [opens_value].
  rewrite !andb_true_iff, !negb_true_iff. intros [[W _] O].
  cbn [parse_value skip_ws]. change (is_ws "{") with false. cbv iota.
  change (Ascii.eqb "{" "[") with false.
  change (Ascii.eqb "{" "{") with true. cbv iota.
  cbn [skip_ws]. rewrite W, O. reflexivity.
Qed.

Lemma parse_elements_S (f : nat) (s : jstr) :
  parse_elements (S f) s
  = match parse_value f s with
    | POk v r =>
        match skip_ws r with
        | c :: r' =>
            if Ascii.eqb c ","%char then lift (cons v) (parse_elements f r')
            else if Ascii.eqb c "]"%char then POk [v] r'
            else PErr
        | [] => PErr
        end
    | PErr => PErr
    | PBeyond => PBeyond
    end.
Proof. reflexivity. Qed.

Lemma parse_members_quoted (f : nat) (k s : jstr) :
  parse_members (S f) (quote k ++ ":"%char :: s)
  = match parse_value f s with
    | POk v r =>
        match skip_ws r with
        | c3 :: r' =>
            if Ascii.eqb c3 ","%char
            then lift (cons (k, v)) (parse_members f r')
            else if Ascii.eqb c3 "}"%char then POk [(k, v)] r'
            else PErr
        | [] => PErr
        end
    | PErr => PErr
    | PBeyond => PBeyond
    end.
Proof.
  unfold quote. cbn [app parse_members skip_ws].
  change (is_ws dq) with false. cbv iota.
  rewrite Ascii.eqb_refl. rewrite <- app_assoc. cbn [app].
  rewrite parse_quoted. cbn [skip_ws]. reflexivity.
Qed.

(** ** The text of a value *)

Lemma json_value_text (v : jsval) :
  json_value v = true -> JSON_stringify v = Some (text v).
Proof.
  unfold text. destruct v as [| |[]|n|s|l|o|f|m [st|]]; try discriminate;
    reflexivity.
Qed.

Lemma text_array (l : list jsval) :
  text (VArr l) = "["%char :: concat_with (lit ",") (map text l) ++ lit "]".
Proof. reflexivity. Qed.

Lemma members_text (o : list (jstr * jsval)) :
  forallb (fun kv => negb (is_index (fst kv)) && json_value (snd kv)) o = true ->
  flat_map (fun kv => match JSON_stringify (snd kv) with
                      | Some t => [quote (fst kv) ++ ":"%char :: t]
                      | None => []
                      end) o
  = map (fun kv => quote (fst kv) ++ ":"%char :: text (snd kv)) o.
Proof.
  induction o as [|[k x] o IH]; [reflexivity|].
  cbn [forallb flat_map map fst snd]. intros H.
  apply andb_true_iff in H as [H Ho]. apply andb_true_iff in H as [_ Hx].
  rewrite (json_value_text x Hx), (IH Ho). reflexivity.
Qed.

Lemma text_object (o : list (jstr * jsval)) :
  forallb (fun kv => negb (is_index (fst kv)) && json_value (snd kv)) o = true ->
  text (VObj o)
  = "{"%char :: concat_with (lit ",")
                  (map (fun kv => quote (fst kv) ++ ":"%char :: text (snd kv)) o)
    ++ lit "}".
Proof.
  intros H. unfold text. cbn [JSON_stringify]. now rewrite (members_text o H).
Qed.

Lemma decimal_head (n : Z) :
  exists c t, decimal n = c :: t /\ is_digit c || Ascii.eqb c "-"%char = true.
Proof.
  unfold decimal. destruct n as [|p|p]; cbn [Z.to_int int_chars].
  - eexists _, _. split; reflexivity.
  - pose proof (uint_chars_digits (Pos.to_uint p)) as D.
    destruct (to_uint_head p) as (c & t & E & _). rewrite E in *.
    cbn [forallb] in D. apply andb_true_iff in D as [D _].
    exists c, t. now rewrite D.
  - eexists _, _. split; reflexivity.
Qed.

Lemma text_opens (v : jsval) (rest : jstr) :
  json_value v = true -> opens_value (text v ++ rest) = true.
Proof.
  intros H. destruct v as [| |[]|n|s|l|o|f|m st]; try discriminate;
    try reflexivity.
  destruct (decimal_head n) as (c & t & E & D).
  unfold text. cbn [JSON_stringify]. rewrite E. cbn [app opens_value].
  destruct (digit_dispatch c D) as (W & _ & _ & _ & _ & _ & _ & A & O).
  now rewrite W, A, O.
Qed.

Lemma size_pos (v : jsval) : 1 <= size v.
Proof. destruct v; cbn; lia. Qed.

(** ** Parsing back the text of a value *)

Lemma concat_with_cons (sep x y : jstr) (l : list jstr) :
  concat_with sep (x :: y :: l) = x ++ sep ++ concat_with sep (y :: l).
Proof. reflexivity. Qed.

Lemma parse_elements_back (l : list jsval) :
  Forall parses_back l ->
  forallb json_value l = true ->
  l <> [] ->
  forall (fuel : nat) (rest : jstr),
    2 * list_sum (map size l) + 1 <= fuel ->
    parse_elements fuel
      (concat_with (lit ",") (map text l) ++ "]"%char :: rest)
    = POk l rest.
Proof.
  induction 1 as [|x l Hx Hl IH]; [congruence|].
  intros Hj _ fuel rest Hf.
  cbn [forallb] in Hj. apply andb_true_iff in Hj as [Hjx Hjl].
  change (list_sum (map size (x :: l)))
    with (size x + list_sum (map size l)) in Hf.
  pose proof (size_pos x) as Px.
  destruct fuel as [|f]; [lia|]. rewrite parse_elements_S.
  assert (Hfx : 2 * size x <= f) by lia.
  assert (Hfl : 2 * list_sum (map size l) + 1 <= f) by lia.
  destruct l as [|y l].
  - cbn [map concat_with].
    rewrite (Hx Hjx f ("]"%char :: rest) Hfx eq_refl).
    reflexivity.
  - cbn [map]. rewrite concat_with_cons, <- !app_assoc.
    cbn [lit list_ascii_of_string app].
    rewrite (Hx Hjx f (","%char :: _) Hfx eq_refl).
    cbn [lit list_ascii_of_string app skip_ws].
    change (is_ws ",") with false. cbv iota.
    change (Ascii.eqb "," ",") with true. cbv iota.
    change (text y :: map text l) with (map text (y :: l)).
    rewrite IH; [reflexivity|exact Hjl|discriminate|exact Hfl].
Qed.

Lemma parse_members_back (o : list (jstr * jsval)) :
  Forall (fun kv => parses_back (snd kv)) o ->
  forallb (fun kv => negb (is_index (fst kv)) && json_value (snd kv)) o = true ->
  o <> [] ->
  forall (fuel : nat) (rest : jstr),
    2 * list_sum (map (fun kv => size (snd kv)) o) + 1 <= fuel ->
    parse_members fuel
      (concat_with (lit ",")
         (map (fun kv => quote (fst kv) ++ ":"%char :: text (snd kv)) o)
       ++ "}"%char :: rest)
    = POk o rest.
Proof.
  induction 1 as [|[k x] o Hx Ho IH]; [congruence|].
  intros Hj _ fuel rest Hf. cbn [snd fst] in *.
  cbn [forallb fst snd] in Hj. apply andb_true_iff in Hj as [Hjx Hjo].
  apply andb_true_iff in Hjx as [_ Hjx].
  change (list_sum (map (fun kv => size (snd kv)) ((k, x) :: o)))
    with (size x + list_sum (map (fun kv => size (snd kv)) o)) in Hf.
  pose proof (size_pos x) as Px.
  destruct fuel as [|f]; [lia|].
  assert (Hfx : 2 * size x <= f) by lia.
  assert (Hfl : 2 * list_sum (map (fun kv => size (snd kv)) o) + 1 <= f) by lia.
  destruct o as [|[k' y] o].
  - cbn [map concat_with fst snd]. rewrite <- app_assoc. cbn [app].
    rewrite parse_members_quoted.
    rewrite (Hx Hjx f ("}"%char :: rest) Hfx eq_refl).
    reflexivity.
  - cbn [map fst snd]. rewrite concat_with_cons, <- !app_assoc.
    cbn [lit list_ascii_of_string app]. rewrite parse_members_quoted.
    rewrite (Hx Hjx f (","%char :: _) Hfx eq_refl).
    cbn [lit list_ascii_of_string app skip_ws].
    change (is_ws ",") with false. cbv iota.
    change (Ascii.eqb "," ",") with true. cbv iota.
    change ((quote k' ++ ":"%char :: text y)
            :: map (fun kv => quote (fst kv) ++ ":"%char :: text (snd kv)) o)
      with (map (fun kv => quote (fst kv) ++ ":"%char :: text (snd kv))
              ((k', y) :: o)).
    rewrite IH; [reflexivity|exact Hjo|discriminate|exact Hfl].
Qed.

Lemma existsb_is_index (o : list (jstr * jsval)) :
  forallb (fun kv => negb (is_index (fst kv)) && json_value (snd kv)) o = true ->
  existsb is_index (map fst o) = false.
Proof.
  induction o as [|[k x] o IH]; [reflexivity|].
  cbn [forallb map existsb fst snd]. intros H.
  apply andb_true_iff in H as [H Ho]. apply andb_true_iff in H as [Hk _].
  apply negb_true_iff in Hk. now rewrite Hk, (IH Ho).
Qed.

Lemma parse_text (v : jsval) : parses_back v.
Proof.
  induction v as [| |b|n|s|l IH|o IH|f|m st] using jsval_ind;
    intros Hj fuel rest Hf Hr; try discriminate;
    (destruct fuel as [|fuel]; [pose proof (size_pos (VArr [])); cbn in Hf; lia|]).
  - reflexivity.
  - destruct b; reflexivity.
  - destruct (decimal_head n) as (c & t & E & D).
    unfold text. cbn [JSON_stringify]. rewrite E. cbn [app].
    rewrite (parse_value_number _ _ _ D).
    change (c :: t ++ rest) with ((c :: t) ++ rest). rewrite <- E.
    now apply parse_number_decimal.
  - unfold text. cbn [JSON_stringify]. unfold quote. cbn [app].
    rewrite parse_value_string, <- app_assoc. cbn [app].
    now rewrite parse_quoted.
  - rewrite text_array. cbn [app].
    destruct l as [|x l]; [reflexivity|].
    rewrite <- app_assoc. cbn [lit list_ascii_of_string app].
    rewrite parse_value_array.
    + rewrite parse_elements_back; auto; [discriminate|].
      cbn [size] in Hf. lia.
    + cbn [map]. destruct l as [|y l].
      * cbn [map concat_with]. apply text_opens.
        cbn [json_value forallb] in Hj. now apply andb_true_iff in Hj as [Hj _].
      * cbn [map]. rewrite concat_with_cons, <- app_assoc. apply text_opens.
        cbn [json_value forallb] in Hj. now apply andb_true_iff in Hj as [Hj _].
  - cbn [json_value] in Hj. apply andb_true_iff in Hj as [Hj Hd].
    rewrite (text_object o Hj). cbn [app].
    destruct o as [|[k x] o]; [reflexivity|].
    rewrite <- app_assoc. cbn [lit list_ascii_of_string app].
    rewrite parse_value_object.
    + rewrite parse_members_back; auto; [|discriminate|cbn [size] in Hf; lia].
      rewrite (existsb_is_index _ Hj), (object_of_distinct _ Hd). reflexivity.
    + cbn [map fst snd]. destruct o as [|[k' y] o].
      * cbn [map concat_with]. reflexivity.
      * cbn [map]. reflexivity.
Qed.

Lemma length_concat_with (sep : jstr) (l : list jstr) :
  list_sum (map (@length ascii) l) <= length (concat_with sep l).
Proof.
  induction l as [|x l IH]; [apply Nat.le_refl|].
  change (list_sum (map (@length ascii) (x :: l)))
    with (length x + list_sum (map (@length ascii) l)).
  destruct l as [|y l].
  - cbn [map list_sum fold_right concat_with]. lia.
  - rewrite concat_with_cons, !length_app. lia.
Qed.

Lemma list_sum_le {A : Type} (f g : A -> nat) (l : list A) :
  Forall (fun x => f x <= g x) l ->
  list_sum (map f l) <= list_sum (map g l).
Proof.
  induction 1 as [|x l Hx _ IH]; [apply Nat.le_refl|].
  change (f x + list_sum (map f l) <= g x + list_sum (map g l)). lia.
Qed.

Lemma size_text (v : jsval) :
  json_value v = true -> size v <= length (text v).
Proof.
  induction v as [| |b|n|s|l IH|o IH|f|m st] using jsval_ind;
    intros Hj; try discriminate.
  - cbn. lia.
  - destruct b; cbn; lia.
  - destruct (decimal_head n) as (c & t & E & _).
    unfold text. cbn [JSON_stringify size]. rewrite E. cbn [length]. lia.
  - unfold text. cbn [JSON_stringify size quote length]. lia.
  - rewrite text_array. cbn [size length]. rewrite length_app.
    pose proof (length_concat_with (lit ",") (map text l)) as L.
    rewrite map_map in L.
    assert (S : list_sum (map size l)
                <= list_sum (map (fun x => length (text x)) l)).
    { apply list_sum_le. cbn [json_value] in Hj.
      rewrite forallb_forall in Hj. rewrite Forall_forall in *.
      intros x Hx. apply (IH x Hx), (Hj x Hx). }
    lia.
  - cbn [json_value] in Hj. apply andb_true_iff in Hj as [Hj _].
    rewrite (text_object o Hj). cbn [size length]. rewrite length_app.
    pose proof (length_concat_with (lit ",")
      (map (fun kv => quote (fst kv) ++ ":"%char :: text (snd kv)) o)) as L.
    rewrite map_map in L.
    assert (S : list_sum (map (fun kv => size (snd kv)) o)
                <= list_sum (map (fun kv : jstr * jsval =>
                     length (quote (fst kv) ++ ":"%char :: text (snd kv))) o)).
    { apply list_sum_le.
      rewrite forallb_forall in Hj. rewrite Forall_forall in *.
      intros x Hx. specialize (Hj x Hx). apply andb_true_iff in Hj as [_ Hj].
      specialize (IH x Hx Hj). rewrite length_app. cbn [length]. lia. }
    lia.
Qed.

(** [JSON.parse] gives back the value [JSON.stringify] was given. *)
Lemma JSON_parse_text (v : jsval) :
  json_value v = true -> JSON_parse (text v) = Parsed v.
Proof.
  intros Hj. unfold JSON_parse.
  pose proof (parse_text v Hj (2 * length (text v) + 2) [] ) as P.
  rewrite app_nil_r in P. rewrite P; [reflexivity| |reflexivity].
  pose proof (size_text v Hj). lia.
Qed.

Section ScalarFacts.
Context {hp : Host} {srv : Server}.
Variable info_object : jsval -> jsval.

Lemma lookup_write (k : jstr) (x : entry) (st : store) :
  lookup k (write k x st) = Some x.
Proof.
  induction st as [|[k' y] st IH]; cbn [write lookup].
  - now rewrite jstr_eqb_refl.
  - destruct (jstr_eqb k k') eqn:E; cbn [lookup].
    + now rewrite jstr_eqb_refl.
    + now rewrite E.
Qed.

Lemma text_nonempty (v : jsval) : json_value v = true -> text v <> [].
Proof.
  intros Hj E. pose proof (size_text v Hj) as L. pose proof (size_pos v).
  rewrite E in L. cbn in L. lia.
Qed.

(** What [stringify] makes of a value that is kept. *)
Lemma stringify_kept (v : jsval) :
  kept v = true ->
  exists t, commands.stringify v = VStr t /\ t <> []
            /\ commands.parse (VStr t) = Val v.
Proof.
  unfold kept. intros H. apply andb_true_iff in H as [Hj H].
  destruct (isString v) eqn:S.
  - destruct v; try discriminate. apply andb_true_iff in H as [Hn Hp].
    exists s. split; [reflexivity|]. split.
    + intros ->. discriminate.
    + unfold commands.parse, plain_text in *. cbn [clone to_string].
      now destruct (JSON_parse s).
  - exists (text v). split; [|split].
    + unfold commands.stringify. rewrite S. cbn [negb].
      now rewrite (json_value_text v Hj).
    + now apply text_nonempty.
    + unfold commands.parse. cbn [clone to_string].
      now rewrite (JSON_parse_text v Hj).
Qed.

Lemma parse_stringify (v : jsval) :
  json_value v = true ->
  (forall s, v = VStr s -> plain_text s = true) ->
  commands.parse (commands.stringify v) = Val v.
Proof.
  intros Hj Hs. destruct (isString v) eqn:S.
  - destruct v; try discriminate. specialize (Hs s eq_refl).
    unfold commands.parse, commands.stringify, plain_text in *.
    cbn [isString negb clone to_string]. now destruct (JSON_parse s).
  - unfold commands.stringify. rewrite S. cbn [negb].
    rewrite (json_value_text v Hj). unfold commands.parse.
    cbn [clone to_string]. now rewrite (JSON_parse_text v Hj).
Qed.

Lemma key_of (key : jsval) (e : exports) :
  prefix (exports_defaults e) ++ separator (exports_defaults e) <> [] ->
  concat_args [key] <> [] ->
  exists k, redis.key [key] e = (Val k, e) /\ k <> [].
Proof.
  intros Hp Ha. eexists. split; [apply (key_nonempty [key] e Ha)|].
  destruct (concat_args [key]) as [|x l]; [congruence|].
  cbn [app]. rewrite join_prefix, app_assoc.
  destruct (prefix (exports_defaults e) ++ separator (exports_defaults e));
    [congruence|discriminate].
Qed.

Lemma set_runs (key v : jsval) (f : fn) (st : store) (e : exports)
  (c : nat) (e1 : exports) (k t : jstr) :
  redis.client_ e = (Val (Ref c), e1) ->
  redis.key [key] e1 = (Val k, e1) -> k <> [] ->
  isFunction key = false -> isFunction v = false ->
  commands.stringify v = VStr t -> t <> [] ->
  run store serve info_object
    (commands.set key v (VFun f) VUndef VUndef VUndef) st e
  = ([Requested c (Single SET [VStr k; VStr t]); Replied VNull ok;
      Called f [VNull; v]], write k (EString t) st, e1).
Proof.
  intros Ec K Hkne Hk Hfv Ht Hne.
  unfold commands.set. rewrite Hk, Hfv.
  rewrite (run_Do _ _ _ _ _ _ _ _ _ Ec), (run_Do _ _ _ _ _ _ _ _ _ K).
  rewrite Ht. cbn [truthy isString isNumber isFunction andb].
  rewrite compact_key by exact Hkne.
  assert (Tt : truthy (VStr t) = true) by (destruct t; [congruence|reflexivity]).
  unfold compact. cbn [filter]. rewrite Tt. cbn [truthy].
  reflexivity.
Qed.

Lemma get_runs (key v : jsval) (g : fn) (st : store) (e : exports)
  (c : nat) (e1 : exports) (k t : jstr) :
  redis.client_ e = (Val (Ref c), e1) ->
  redis.key [key] e1 = (Val k, e1) -> k <> [] ->
  isFunction key = false ->
  lookup k st = Some (EString t) ->
  commands.parse (VStr t) = Val v ->
  run store serve info_object (commands.get key (VFun g)) st e
  = ([Requested c (Single GET [VStr k]); Replied VNull (VStr t);
      Called g [VNull; v]], st, e1).
Proof.
  intros Ec K Hkne Hk Hl Hpt.
  unfold commands.get. rewrite Hk.
  rewrite (run_Do _ _ _ _ _ _ _ _ _ Ec), (run_Do _ _ _ _ _ _ _ _ _ K).
  rewrite compact_key by exact Hkne. unfold compact. cbn [filter].
  cbn [run serve command note_info]. rewrite Hl.
  cbn [isFunction]. rewrite Hpt. reflexivity.
Qed.

Lemma set_then_get (key v : jsval) (f g : fn) (st : store) (e : exports) :
  can_connect (exports_defaults e) = true ->
  prefix (exports_defaults e) ++ separator (exports_defaults e) <> [] ->
  isFunction key = false ->
  concat_args [key] <> [] ->
  kept v = true ->
  exists c k t st' e',
    run_all store serve info_object
      [commands.set key v (VFun f) VUndef VUndef VUndef;
       commands.get key (VFun g)] st e
    = ([Requested c (Single SET [VStr k; VStr t]); Replied VNull ok;
        Called f [VNull; v];
        Requested c (Single GET [VStr k]); Replied VNull (VStr t);
        Called g [VNull; v]], st', e')
    /\ redis.key [key] e' = (Val k, e')
    /\ commands.stringify v = VStr t.
Proof.
  intros Hc Hp Hk Ha Hv.
  destruct (stringify_kept v Hv) as (t & Ht & Hne & Hpt).
  assert (Hfv : isFunction v = false).
  { unfold kept in Hv. apply andb_true_iff in Hv as [Hj _].
    destruct v; try reflexivity; discriminate. }
  destruct (init_twice e Hc) as (c & e1 & E1 & E2 & Hd & Hu).
  destruct (key_of key e1) as (k & K & Hkne); [congruence|exact Ha|].
  exists c, k, t, (write k (EString t) st), e1.
  split; [|split; [exact K|exact Ht]].
  cbn [run_all].
  rewrite (set_runs key v f st e c e1 k t E1 K Hkne Hk Hfv Ht Hne).
  rewrite (get_runs key v g _ e1 c e1 k t E2 K Hkne Hk (lookup_write _ _ _) Hpt).
  reflexivity.
Qed.

End ScalarFacts.

(* ================================================================== *)
(** * Properties: the hash shim *)
(* ================================================================== *)

(** ** Paths *)

Lemma segment_head (k : jstr) :
  segment k = true ->
  exists c t, k = c :: t /\ is_digit c = false /\ c <> "."%char.
Proof.
  unfold segment. destruct k as [|c t]; [discriminate|].
  intros H. apply andb_true_iff in H as [H Hd].
  apply andb_true_iff in H as [Hm _].
  exists c, t. split; [reflexivity|].
  apply negb_true_iff in Hm. cbn [maybe_numeric] in Hm.
  repeat (apply orb_false_iff in Hm as [Hm ?]).
  split; [assumption|].
  apply negb_true_iff in Hd. cbn [existsb] in Hd.
  apply orb_false_iff in Hd as [Hd _].
  intros ->. discriminate.
Qed.

Lemma segment_no_dot (k : jstr) : segment k = true -> ~ In "."%char k.
Proof.
  unfold segment. intros H. apply andb_true_iff in H as [_ Hd].
  apply negb_true_iff in Hd. intros Hin.
  assert (E : existsb (Ascii.eqb ".") k = true).
  { apply existsb_exists. exists "."%char. split; [exact Hin|reflexivity]. }
  congruence.
Qed.

Lemma dots_cons (k k' : jstr) (p : list jstr) :
  dots (k :: k' :: p) = k ++ "."%char :: dots (k' :: p).
Proof. reflexivity. Qed.

Lemma split_dots (p : list jstr) :
  p <> [] -> forallb segment p = true -> split (lit ".") (dots p) = p.
Proof.
  induction p as [|k p IH]; [congruence|]. intros _ H.
  cbn [forallb] in H. apply andb_true_iff in H as [Hk Hp].
  pose proof (segment_no_dot k Hk) as Hn.
  destruct p as [|k' p].
  - unfold split. cbn [lit list_ascii_of_string dots concat_with].
    now apply split_go_none.
  - rewrite dots_cons. unfold split in *. cbn [lit list_ascii_of_string] in *.
    rewrite split_go_at by exact Hn. f_equal. apply IH; [discriminate|exact Hp].
Qed.

Lemma dots_head (p : list jstr) :
  p <> [] -> forallb segment p = true ->
  exists c t, dots p = c :: t /\ is_digit c = false.
Proof.
  destruct p as [|k p]; [congruence|]. intros _ H.
  cbn [forallb] in H. apply andb_true_iff in H as [Hk _].
  destruct (segment_head k Hk) as (c & t & -> & Hd & _).
  destruct p as [|k' p].
  - exists c, t. split; [reflexivity|exact Hd].
  - rewrite dots_cons. eexists c, _. split; [reflexivity|exact Hd].
Qed.

Lemma dots_not_index (p : list jstr) :
  p <> [] -> forallb segment p = true -> is_index (dots p) = false.
Proof.
  intros Hp H. destruct (dots_head p Hp H) as (c & t & -> & Hd).
  unfold is_index. cbn [forallb]. now rewrite Hd.
Qed.

Lemma inherited_no_dot (k : jstr) : is_inherited k = true -> ~ In "."%char k.
Proof.
  unfold is_inherited. intros H. apply existsb_exists in H as (n & Hin & E).
  apply jstr_eqb_eq in E. subst n.
  cbn in Hin.
  repeat (destruct Hin as [<-|Hin];
          [intros D; cbn in D; intuition discriminate|]).
  destruct Hin.
Qed.

Lemma dots_not_inherited (p : list jstr) :
  p <> [] -> forallb segment p = true -> is_inherited (dots p) = false.
Proof.
  destruct p as [|k p]; [congruence|]. intros _ H.
  cbn [forallb] in H. apply andb_true_iff in H as [Hk _].
  destruct p as [|k' p].
  - unfold segment in Hk. apply andb_true_iff in Hk as [Hk _].
    apply andb_true_iff in Hk as [_ Hk]. now apply negb_true_iff in Hk.
  - destruct (is_inherited (dots (k :: k' :: p))) eqn:E; [|reflexivity].
    exfalso. apply (inherited_no_dot _ E). rewrite dots_cons.
    apply in_or_app. right. now left.
Qed.

(** ** [unflatten] *)

Lemma put_all_dotted (L : list (list jstr * jsval)) (r : list (jstr * jsval)) :
  Forall (fun pl => fst pl <> [] /\ forallb segment (fst pl) = true) L ->
  put_all (map dotted L) r = put_paths L r.
Proof.
  intros H. revert r. induction H as [|[p l] L [Hp Hs] _ IH]; intros r;
    [reflexivity|].
  cbn [map dotted put_all put_paths fst snd] in *.
  rewrite (split_dots p Hp Hs). destruct (put p l r); [apply IH|reflexivity].
Qed.

Lemma put_paths_app (L L' : list (list jstr * jsval)) (r : list (jstr * jsval)) :
  put_paths (L ++ L') r
  = match put_paths L r with
    | Some r' => put_paths L' r'
    | None => None
    end.
Proof.
  revert r. induction L as [|[p l] L IH]; intros r; [reflexivity|].
  cbn [app put_paths]. destruct (put p l r); [apply IH|reflexivity].
Qed.

Lemma get_set_prop (k : jstr) (x : jsval) (r : list (jstr * jsval)) :
  get_prop k (set_prop k x r) = x.
Proof.
  induction r as [|[k' y] r IH]; cbn [set_prop get_prop].
  - now rewrite jstr_eqb_refl.
  - destruct (jstr_eqb k k') eqn:E; cbn [get_prop].
    + now rewrite jstr_eqb_refl.
    + now rewrite E.
Qed.

Lemma set_set_prop (k : jstr) (x y : jsval) (r : list (jstr * jsval)) :
  set_prop k x (set_prop k y r) = set_prop k x r.
Proof.
  induction r as [|[k' z] r IH]; cbn [set_prop].
  - now rewrite jstr_eqb_refl.
  - destruct (jstr_eqb k k') eqn:E; cbn [set_prop].
    + now rewrite jstr_eqb_refl.
    + now rewrite E, IH.
Qed.

Lemma get_prop_fresh (k : jstr) (r : list (jstr * jsval)) :
  existsb (jstr_eqb k) (map fst r) = false -> get_prop k r = VUndef.
Proof.
  induction r as [|[k' y] r IH]; [reflexivity|].
  cbn [map fst existsb get_prop]. intros H.
  apply orb_false_iff in H as [E H]. rewrite E. now apply IH.
Qed.

(** One entry below the key [k]. *)
Lemma put_under (k : jstr) (p : list jstr) (l : jsval)
  (r child : list (jstr * jsval)) :
  p <> [] -> child_of k r = Some child ->
  put (k :: p) l r
  = match put p l child with
    | Some child' => Some (set_prop k (VObj child') r)
    | None => None
    end.
Proof.
  intros Hp Hc. destruct p as [|k1 p]; [congruence|].
  unfold child_of in Hc. cbn [put].
  destruct (get_prop k r); try discriminate; now injection Hc as ->.
Qed.

(** All the entries below [k]: what they make of the child is assigned to
    [k] once. *)
Lemma put_paths_under (k : jstr) (L : list (list jstr * jsval)) :
  L <> [] -> Forall (fun pl => fst pl <> []) L ->
  forall r child, child_of k r = Some child ->
  put_paths (map (under k) L) r
  = match put_paths L child with
    | Some child' => Some (set_prop k (VObj child') r)
    | None => None
    end.
Proof.
  induction L as [|[p l] L IH]; [congruence|]. intros _ H r child Hc.
  inversion H as [|? ? Hp HL]; subst. cbn [fst] in Hp.
  cbn [map under put_paths fst snd].
  rewrite (put_under k p l r child Hp Hc).
  destruct (put p l child) as [child'|]; [|reflexivity].
  destruct L as [|e L]; [reflexivity|].
  rewrite (IH ltac:(discriminate) HL (set_prop k (VObj child') r) child').
  - destruct (put_paths (e :: L) child'); [|reflexivity].
    now rewrite set_set_prop.
  - unfold child_of. now rewrite get_set_prop.
Qed.

Lemma leaves_nonempty (v : jsval) : leaves v <> [].
Proof.
  induction v as [| |b|n|s|l IH|o IH|f|m st] using jsval_ind;
    try discriminate.
  destruct o as [|[k x] o]; [discriminate|].
  cbn [leaves flat_map fst snd]. inversion IH as [|? ? Hx _]; subst.
  cbn [snd] in Hx. destruct (leaves x); [congruence|discriminate].
Qed.

Lemma leaves_object (kv : jstr * jsval) (o : list (jstr * jsval)) :
  leaves (VObj (kv :: o))
  = flat_map (fun kv => map (under (fst kv)) (leaves (snd kv))) (kv :: o).
Proof. reflexivity. Qed.

Lemma leaves_paths (kv : jstr * jsval) (o : list (jstr * jsval)) :
  Forall (fun pl => fst pl <> []) (leaves (VObj (kv :: o))).
Proof.
  rewrite leaves_object. apply Forall_flat_map, Forall_forall.
  intros x _. apply Forall_map, Forall_forall. intros pl _. discriminate.
Qed.

Lemma put_members (o : list (jstr * jsval)) :
  Forall (fun kv => puts_back (snd kv)) o ->
  forallb (fun kv => segment (fst kv) && nested (snd kv)) o = true ->
  distinct (map fst o) = true ->
  forall r,
    (forall k, In k (map fst o) -> existsb (jstr_eqb k) (map fst r) = false) ->
    put_paths (flat_map (fun kv => map (under (fst kv)) (leaves (snd kv))) o) r
    = Some (r ++ o).
Proof.
  induction 1 as [|[k x] o Hx _ IH]; intros Hn Hd r Hr.
  - cbn. now rewrite app_nil_r.
  - cbn [forallb fst snd] in Hn. apply andb_true_iff in Hn as [Hkx Hn].
    apply andb_true_iff in Hkx as [_ Hnx].
    cbn [map fst distinct] in Hd. apply andb_true_iff in Hd as [Hk Hd].
    apply negb_true_iff in Hk.
    cbn [flat_map fst snd] in *. rewrite put_paths_app.
    rewrite (Hx Hnx k r) by (apply Hr; now left).
    rewrite (IH Hn Hd).
    + now rewrite <- app_assoc.
    + intros k' Hk'. rewrite map_app, existsb_app. cbn [map fst existsb].
      rewrite (Hr k') by now right. rewrite orb_false_r. cbn [orb].
      destruct (jstr_eqb k' k) eqn:E; [|reflexivity].
      apply jstr_eqb_eq in E. subst k'.
      assert (X : existsb (jstr_eqb k) (map fst o) = true).
      { apply existsb_exists. exists k. split; [exact Hk'|apply jstr_eqb_refl]. }
      congruence.
Qed.

Lemma put_leaves (v : jsval) : puts_back v.
Proof.
  induction v as [| |b|n|s|l IH|o IH|f|m st] using jsval_ind;
    intros Hn k r Hr;
    try (cbn [leaves map under fst snd put_paths put];
         now rewrite set_prop_fresh).
  destruct o as [|kv o].
  - cbn [leaves map under fst snd put_paths put].
    now rewrite set_prop_fresh.
  - cbn [nested] in Hn. apply andb_true_iff in Hn as [Hn Hd].
    rewrite (put_paths_under k (leaves (VObj (kv :: o)))
               (leaves_nonempty _) (leaves_paths kv o) r []).
    + rewrite leaves_object, (put_members (kv :: o) IH Hn Hd [])
        by reflexivity.
      cbn [app]. now rewrite set_prop_fresh.
    + unfold child_of. now rewrite get_prop_fresh.
Qed.

(** [unflatten]'s walk over the leaves of a nested object rebuilds it. *)
Lemma put_paths_leaves (kv : jstr * jsval) (o : list (jstr * jsval)) :
  nested (VObj (kv :: o)) = true ->
  put_paths (leaves (VObj (kv :: o))) [] = Some (kv :: o).
Proof.
  intros Hn. cbn [nested] in Hn. apply andb_true_iff in Hn as [Hn Hd].
  rewrite leaves_object.
  rewrite (put_members (kv :: o)); [reflexivity| |exact Hn|exact Hd|reflexivity].
  apply Forall_forall. intros x _. apply put_leaves.
Qed.

(** ** [flat] *)

Lemma dots_dots_from (k : jstr) (p : list jstr) : dots (k :: p) = dots_from k p.
Proof. destruct p; reflexivity. Qed.

Lemma dots_from_under (nk k : jstr) (p : list jstr) :
  dots_from (nk ++ "."%char :: k) p = nk ++ "."%char :: dots_from k p.
Proof.
  destruct p as [|k' p]; cbn [dots_from]; [reflexivity|].
  now rewrite <- app_assoc.
Qed.

Lemma newKey_nonempty (prev key : jstr) : key <> [] -> newKey prev key <> [].
Proof.
  intros H. destruct prev; [exact H|discriminate].
Qed.

Lemma step_object (prev key : jstr) (kv : jstr * jsval) (o : list (jstr * jsval)) :
  step_ prev key (VObj (kv :: o))
  = flat_map (fun kv => step_ (newKey prev key) (fst kv) (snd kv)) (kv :: o).
Proof. reflexivity. Qed.

Lemma flat_map_ext_in {A B} (f g : A -> list B) (l : list A) :
  (forall x, In x l -> f x = g x) -> flat_map f l = flat_map g l.
Proof.
  induction l as [|x l IH]; intros H; [reflexivity|].
  cbn [flat_map]. rewrite (H x) by now left.
  rewrite IH; [reflexivity|]. intros y Hy. apply H. now right.
Qed.

Lemma map_flat_map {A B C} (g : B -> C) (f : A -> list B) (l : list A) :
  map g (flat_map f l) = flat_map (fun x => map g (f x)) l.
Proof.
  induction l as [|x l IH]; [reflexivity|].
  cbn [flat_map]. now rewrite map_app, IH.
Qed.

Lemma segment_nonempty (k : jstr) : segment k = true -> k <> [].
Proof. intros H. destruct (segment_head k H) as (c & t & -> & _). discriminate. Qed.

Lemma step_leaves (v : jsval) : walks v.
Proof.
  induction v as [| |b|n|s|l IH|o IH|f|m st] using jsval_ind;
    intros Hn prev key Hk; try reflexivity.
  - destruct l; [reflexivity|discriminate].
  - destruct o as [|kv o]; [reflexivity|].
    cbn [nested] in Hn. apply andb_true_iff in Hn as [Hn _].
    rewrite step_object, leaves_object, map_flat_map.
    apply flat_map_ext_in. intros [k x] Hin.
    rewrite forallb_forall in Hn. specialize (Hn _ Hin).
    cbn [fst snd] in *. apply andb_true_iff in Hn as [Hs Hx].
    rewrite Forall_forall in IH. specialize (IH _ Hin). cbn [snd] in IH.
    rewrite (IH Hx (newKey prev key) k (segment_nonempty k Hs)).
    rewrite map_map. apply map_ext. intros [p l]. cbn [under fst snd].
    f_equal. pose proof (newKey_nonempty prev key Hk) as Hnk.
    destruct (newKey prev key) as [|c nk] eqn:E; [congruence|].
    cbn [newKey lit list_ascii_of_string app].
    change (c :: nk ++ "."%char :: k) with ((c :: nk) ++ "."%char :: k).
    now rewrite dots_from_under, <- dots_dots_from.
Qed.

(** What [flat] assigns for a nested object: the leaves under the keys of
    their paths. *)
Lemma step_nested (kv : jstr * jsval) (o : list (jstr * jsval)) :
  nested (VObj (kv :: o)) = true ->
  step (VObj (kv :: o)) = Val (map dotted (leaves (VObj (kv :: o)))).
Proof.
  intros Hn. cbn [step]. f_equal.
  cbn [nested] in Hn. apply andb_true_iff in Hn as [Hn _].
  rewrite leaves_object, map_flat_map.
  apply flat_map_ext_in. intros [k x] Hin.
  rewrite forallb_forall in Hn. specialize (Hn _ Hin).
  cbn [fst snd] in *. apply andb_true_iff in Hn as [Hs Hx].
  rewrite (step_leaves x Hx [] k (segment_nonempty k Hs)).
  rewrite map_map. apply map_ext. intros [p l].
  unfold dotted. cbn [under fst snd newKey]. now rewrite dots_dots_from.
Qed.

(** ** The leaves of a nested object *)

Lemma leaves_good (v : jsval) : nested v = true -> Forall good_leaf (leaves v).
Proof.
  induction v as [| |b|n|s|l IH|o IH|f|m st] using jsval_ind;
    intros Hn; try (constructor; [|constructor]; split; reflexivity).
  - destruct l; [|discriminate].
    constructor; [|constructor]; split; reflexivity.
  - destruct o as [|kv o];
      [constructor; [|constructor]; split; reflexivity|].
    cbn [nested] in Hn. apply andb_true_iff in Hn as [Hn _].
    rewrite leaves_object. apply Forall_flat_map, Forall_forall.
    intros [k x] Hin. rewrite forallb_forall in Hn. specialize (Hn _ Hin).
    cbn [fst snd] in *. apply andb_true_iff in Hn as [Hs Hx].
    rewrite Forall_forall in IH. specialize (IH _ Hin Hx). cbn [snd] in IH.
    apply Forall_map. revert IH. apply Forall_impl.
    intros [p l] [Hp Hl]. split; [|exact Hl].
    cbn [under fst forallb] in *. now rewrite Hs, Hp.
Qed.

Lemma NoDup_app_heads {A} (l l' : list A) :
  NoDup l -> NoDup l' -> (forall x, In x l -> ~ In x l') -> NoDup (l ++ l').
Proof.
  induction 1 as [|x l Hx Hl IH]; intros Hl' D; [exact Hl'|].
  cbn [app]. constructor.
  - intros Hin. apply in_app_or in Hin as [Hin|Hin]; [now apply Hx|].
    apply (D x); [now left|exact Hin].
  - apply IH; [exact Hl'|]. intros y Hy. apply D. now right.
Qed.

Lemma NoDup_map_injective {A B} (f : A -> B) (l : list A) :
  (forall a b, f a = f b -> a = b) -> NoDup l -> NoDup (map f l).
Proof.
  intros Hf. induction 1 as [|x l Hx _ IH]; [constructor|].
  cbn [map]. constructor; [|exact IH].
  intros Hin. apply in_map_iff in Hin as (y & E & Hy).
  apply Hf in E. subst y. contradiction.
Qed.

Lemma leaves_distinct (v : jsval) :
  nested v = true -> NoDup (map fst (leaves v)).
Proof.
  induction v as [| |b|n|s|l IH|o IH|f|m st] using jsval_ind;
    intros Hn; try (constructor; [intros []|constructor]).
  destruct o as [|kv o]; [constructor; [intros []|constructor]|].
  - cbn [nested] in Hn. apply andb_true_iff in Hn as [Hn Hd].
    rewrite leaves_object.
    revert IH Hn Hd. generalize (kv :: o). clear kv o.
    induction l as [|[k x] l IHl]; intros IH Hn Hd; [constructor|].
    cbn [flat_map fst snd]. rewrite map_app.
    inversion IH as [|? ? Hx IH']; subst. cbn [snd] in Hx.
    cbn [forallb fst snd] in Hn. apply andb_true_iff in Hn as [Hkx Hn].
    apply andb_true_iff in Hkx as [_ Hnx].
    cbn [map fst distinct] in Hd. apply andb_true_iff in Hd as [Hk Hd].
    apply negb_true_iff in Hk.
    apply NoDup_app_heads.
    + rewrite map_map.
      change (fun x0 => fst (under k x0)) with (fun x0 : list jstr * jsval => k :: fst x0).
      rewrite <- (map_map fst (cons k)).
      apply NoDup_map_injective; [|exact (Hx Hnx)].
      intros a b E. now injection E.
    + apply IHl; assumption.
    + intros p Hp Hp'.
      apply in_map_iff in Hp as (pl & <- & Hpl).
      apply in_map_iff in Hpl as (pl0 & <- & _).
      apply in_map_iff in Hp' as (pl' & E & Hpl').
      apply in_flat_map in Hpl' as ([k' x'] & Hin & Hpl').
      apply in_map_iff in Hpl' as (pl1 & <- & _).
      cbn [under fst snd] in E. injection E as E _. subst k'.
      assert (X : existsb (jstr_eqb k) (map fst l) = true).
      { apply existsb_exists. exists k. split; [|apply jstr_eqb_refl].
        apply in_map_iff. now exists (k, x'). }
      congruence.
Qed.

Lemma distinct_NoDup (l : list jstr) : NoDup l -> distinct l = true.
Proof.
  induction 1 as [|x l Hx _ IH]; [reflexivity|].
  cbn [distinct]. rewrite IH, andb_true_r. apply negb_true_iff.
  destruct (existsb (jstr_eqb x) l) eqn:E; [|reflexivity].
  apply existsb_exists in E as (y & Hy & E). apply jstr_eqb_eq in E.
  subst y. contradiction.
Qed.

Lemma dotted_keys_distinct (L : list (list jstr * jsval)) :
  Forall (fun pl => fst pl <> [] /\ forallb segment (fst pl) = true) L ->
  NoDup (map fst L) ->
  distinct (map fst (map dotted L)) = true.
Proof.
  intros HL Hd. apply distinct_NoDup. rewrite map_map.
  change (fun x => fst (dotted x)) with (fun x : list jstr * jsval => dots (fst x)).
  rewrite <- (map_map fst dots).
  assert (G : Forall (fun p => p <> [] /\ forallb segment p = true) (map fst L)).
  { apply Forall_map. exact HL. }
  clear HL. induction Hd as [|p ps Hp Hps IH]; [constructor|].
  inversion G as [|? ? [Gp Gs] G']; subst.
  cbn [map]. constructor; [|now apply IH].
  intros Hin. apply in_map_iff in Hin as (q & E & Hq).
  rewrite Forall_forall in G'. destruct (G' q Hq) as [Gq Gqs].
  apply (f_equal (split (lit "."))) in E.
  rewrite !split_dots in E by assumption. subst q. contradiction.
Qed.

Lemma leaves_entries (kv : jstr * jsval) (o : list (jstr * jsval)) :
  nested (VObj (kv :: o)) = true ->
  Forall (fun pl => fst pl <> [] /\ forallb segment (fst pl) = true)
    (leaves (VObj (kv :: o))).
Proof.
  intros Hn. pose proof (leaves_paths kv o) as P.
  pose proof (leaves_good _ Hn) as G. rewrite Forall_forall in *.
  intros pl Hin. split; [now apply P|]. now destruct (G pl Hin).
Qed.

Lemma flat_nested (kv : jstr * jsval) (o : list (jstr * jsval)) :
  nested (VObj (kv :: o)) = true ->
  flat (VObj (kv :: o)) = Val (VObj (map dotted (leaves (VObj (kv :: o))))).
Proof.
  intros Hn. unfold flat. rewrite (step_nested kv o Hn).
  pose proof (leaves_entries kv o Hn) as E.
  assert (X : existsb (fun kv0 : jstr * jsval =>
                         is_index (fst kv0) || is_inherited (fst kv0))
                (map dotted (leaves (VObj (kv :: o)))) = false).
  { destruct (existsb _ _) eqn:X; [|reflexivity].
    apply existsb_exists in X as (x & Hin & Hx).
    apply in_map_iff in Hin as (pl & <- & Hin).
    rewrite Forall_forall in E. destruct (E pl Hin) as [Hp Hs].
    cbn [dotted fst] in Hx.
    now rewrite (dots_not_index _ Hp Hs), (dots_not_inherited _ Hp Hs) in Hx. }
  rewrite X, object_of_distinct; [reflexivity|].
  apply dotted_keys_distinct; [exact E|]. now apply leaves_distinct.
Qed.

Lemma unflatten_dotted (kv : jstr * jsval) (o : list (jstr * jsval)) :
  nested (VObj (kv :: o)) = true ->
  unflatten (VObj (map dotted (leaves (VObj (kv :: o))))) = Val (VObj (kv :: o)).
Proof.
  intros Hn. unfold unflatten.
  pose proof (leaves_entries kv o Hn) as E.
  pose proof (leaves_good _ Hn) as G.
  assert (X : forallb plain_entry (map dotted (leaves (VObj (kv :: o)))) = true).
  { apply forallb_forall. intros x Hin.
    apply in_map_iff in Hin as (pl & <- & Hin).
    rewrite Forall_forall in E, G. destruct (E pl Hin) as [Hp Hs].
    destruct (G pl Hin) as [_ Hl].
    unfold plain_entry. cbn [dotted fst snd].
    change (leaf (snd pl) = true) in Hl.
    replace (match snd pl with
             | VArr (_ :: _) | VObj (_ :: _) => false
             | _ => true
             end) with (leaf (snd pl)) by (now destruct (snd pl) as [| | | | |[]|[]| |]).
    rewrite Hl, andb_true_r.
    rewrite (split_dots _ Hp Hs). apply forallb_forall. intros k Hk.
    rewrite forallb_forall in Hs. specialize (Hs k Hk). unfold segment in Hs.
    now apply andb_true_iff in Hs as [Hs _]. }
  rewrite X, (put_all_dotted _ _ E), (put_paths_leaves kv o Hn). reflexivity.
Qed.

(** [unflatten(flat(v))] is [v] for a nested object [v]. *)
Lemma unflatten_flat_nested (o : list (jstr * jsval)) :
  nested (VObj o) = true ->
  unflatten_flat (VObj o) = Val (VObj o).
Proof.
  intros Hn. destruct o as [|kv o]; [reflexivity|]. unfold unflatten_flat.
  now rewrite (flat_nested kv o Hn), (unflatten_dotted kv o Hn).
Qed.

Lemma string_leaves_fields (v : jsval) :
  string_leaves v = true ->
  Forall (fun kv : jstr * jsval => exists s, snd kv = VStr s)
    (map dotted (leaves v)).
Proof.
  unfold string_leaves. intros H. rewrite forallb_forall in H.
  apply Forall_map, Forall_forall. intros pl Hin. specialize (H pl Hin).
  cbn [dotted snd]. destruct (snd pl); try discriminate. now eexists.
Qed.

(** ** The hash in the store *)

Lemma hash_fields_strings (a : list (jstr * jsval)) :
  Forall (fun kv => exists s, snd kv = VStr s) a ->
  exists fields, hash_fields a = Some fields /\ map field_value fields = a.
Proof.
  induction 1 as [|[k x] a [s Hs] _ (fields & Hf & Hm)].
  - now exists [].
  - cbn [snd] in Hs. subst x. exists ((k, s) :: fields).
    cbn [hash_fields]. rewrite Hf. split; [reflexivity|].
    cbn [map]. now rewrite Hm.
Qed.

Lemma hset_fresh (f v : jstr) (h : list (jstr * jstr)) :
  existsb (jstr_eqb f) (map fst h) = false -> hset f v h = h ++ [(f, v)].
Proof.
  induction h as [|[f' v'] h IH]; cbn [map existsb hset app fst];
    [reflexivity|].
  intros H. apply orb_false_iff in H as [Hk Ho].
  rewrite Hk, (IH Ho). reflexivity.
Qed.

Lemma fold_hset (fields acc : list (jstr * jstr)) :
  distinct (map fst fields) = true ->
  (forall k, In k (map fst fields) -> existsb (jstr_eqb k) (map fst acc) = false) ->
  fold_left (fun h fv => hset (fst fv) (snd fv) h) fields acc = acc ++ fields.
Proof.
  revert acc. induction fields as [|[k x] ms IH]; intros acc Hd Hacc.
  - now rewrite app_nil_r.
  - cbn [map fst distinct] in Hd. apply andb_true_iff in Hd as [Hk Hd].
    apply negb_true_iff in Hk.
    cbn [fold_left fst snd].
    rewrite hset_fresh by (apply Hacc; now left).
    rewrite IH; [now rewrite <- app_assoc|exact Hd|].
    intros k' Hk'. rewrite map_app, existsb_app. cbn [map fst existsb].
    rewrite (Hacc k') by now right. rewrite orb_false_r. cbn [orb].
    destruct (jstr_eqb k' k) eqn:E; [|reflexivity].
    apply jstr_eqb_eq in E. subst k'.
    assert (X : existsb (jstr_eqb k) (map fst ms) = true).
    { apply existsb_exists. exists k. split; [exact Hk'|apply jstr_eqb_refl]. }
    congruence.
Qed.

Lemma field_value_keys (fields : list (jstr * jstr)) :
  map fst (map field_value fields) = map fst fields.
Proof. rewrite map_map. now apply map_ext. Qed.

Section HashFacts.
Context {hp : Host} {srv : Server}.
Variable info_object : jsval -> jsval.

Lemma hmset_runs (key : jsval) (kv : jstr * jsval) (o : list (jstr * jsval))
  (f : fn) (st : store) (e : exports) (c : nat) (e1 : exports) (k : jstr) :
  redis.client_ e = (Val (Ref c), e1) ->
  redis.key [key] e1 = (Val k, e1) -> k <> [] ->
  isFunction key = false ->
  nested (VObj (kv :: o)) = true ->
  string_leaves (VObj (kv :: o)) = true ->
  lookup k st = None ->
  exists fields,
    map field_value fields = map dotted (leaves (VObj (kv :: o)))
    /\ run store serve info_object
         (commands.hmset key (VObj (kv :: o)) (VFun f)) st e
       = ([Requested c (Single HMSET
                          [VStr k; VObj (map dotted (leaves (VObj (kv :: o))))]);
           Replied VNull ok; Called f [VNull; VObj (kv :: o)]],
          write k (EHash fields) st, e1).
Proof.
  intros Ec K Hkne Hk Hn Hs Hl.
  pose proof (leaves_entries kv o Hn) as E.
  destruct (hash_fields_strings (map dotted (leaves (VObj (kv :: o))))
              (string_leaves_fields _ Hs))
    as (fields & Hf & Hm).
  exists fields. split; [exact Hm|].
  unfold commands.hmset. rewrite Hk. cbn [isFunction].
  rewrite (run_Do _ _ _ _ _ _ _ _ _ Ec), (run_Do _ _ _ _ _ _ _ _ _ K).
  rewrite (flat_nested kv o Hn).
  rewrite compact_key by exact Hkne. unfold compact. cbn [filter truthy].
  assert (Hd : distinct (map fst fields) = true).
  { rewrite <- field_value_keys, Hm.
    apply dotted_keys_distinct; [exact E|]. now apply leaves_distinct. }
  destruct (map dotted (leaves (VObj (kv :: o)))) as [|a l] eqn:A.
  { apply map_eq_nil in A. now apply leaves_nonempty in A. }
  cbn [run serve command note_info]. rewrite Hf, Hl.
  rewrite (fold_hset fields [] Hd) by reflexivity. reflexivity.
Qed.

Lemma hgetall_runs (key v : jsval) (g : fn) (st : store) (e : exports)
  (c : nat) (e1 : exports) (k : jstr) (fields : list (jstr * jstr)) :
  redis.client_ e = (Val (Ref c), e1) ->
  redis.key [key] e1 = (Val k, e1) -> k <> [] ->
  isFunction key = false ->
  lookup k st = Some (EHash fields) ->
  existsb (fun fv => is_index (fst fv) || is_inherited (fst fv)) fields = false ->
  unflat (VObj (map field_value fields)) = Val v ->
  run store serve info_object (commands.hgetall key (VFun g)) st e
  = ([Requested c (Single HGETALL [VStr k]);
      Replied VNull (VObj (map field_value fields));
      Called g [VNull; v]], st, e1).
Proof.
  intros Ec K Hkne Hk Hl Hx Hu.
  unfold commands.hgetall. rewrite Hk.
  rewrite (run_Do _ _ _ _ _ _ _ _ _ Ec), (run_Do _ _ _ _ _ _ _ _ _ K).
  rewrite compact_key by exact Hkne. unfold compact. cbn [filter].
  cbn [run serve command note_info]. rewrite Hl, Hx.
  cbn [isFunction]. change (map (fun fv => (fst fv, VStr (snd fv))) fields)
    with (map field_value fields). rewrite Hu. reflexivity.
Qed.

Lemma hmset_then_hgetall (key : jsval) (kv : jstr * jsval)
  (o : list (jstr * jsval)) (f g : fn) (st : store) (e : exports) (k : jstr) :
  can_connect (exports_defaults e) = true ->
  isFunction key = false ->
  redis.key [key] e = (Val k, e) -> k <> [] ->
  lookup k st = None ->
  nested (VObj (kv :: o)) = true ->
  string_leaves (VObj (kv :: o)) = true ->
  exists c fields st' e',
    run_all store serve info_object
      [commands.hmset key (VObj (kv :: o)) (VFun f);
       commands.hgetall key (VFun g)] st e
    = ([Requested c (Single HMSET [VStr k; VObj fields]); Replied VNull ok;
        Called f [VNull; VObj (kv :: o)];
        Requested c (Single HGETALL [VStr k]); Replied VNull (VObj fields);
        Called g [VNull; VObj (kv :: o)]], st', e')
    /\ flat (VObj (kv :: o)) = Val (VObj fields).
Proof.
  intros Hc Hk K Hkne Hl Hn Hsl.
  destruct (init_twice e Hc) as (c & e1 & E1 & E2 & Hd & Hu).
  assert (K1 : redis.key [key] e1 = (Val k, e1)).
  { assert (A : concat_args [key] <> []).
    { intros A. rewrite (key_empty [key] e A) in K.
      injection K as _ K. apply (f_equal uuids) in K.
      destruct e; cbn in K. lia. }
    pose proof (key_nonempty [key] e A) as K0.
    rewrite (key_nonempty [key] e1 A), Hd.
    rewrite K in K0. injection K0 as ->. reflexivity. }
  destruct (hmset_runs key kv o f st e c e1 k E1 K1 Hkne Hk Hn Hsl Hl)
    as (fields & Hm & R).
  pose proof (leaves_entries kv o Hn) as E.
  exists c, (map dotted (leaves (VObj (kv :: o)))),
    (write k (EHash fields) st), e1.
  split; [|now apply flat_nested].
  cbn [run_all]. rewrite R.
  rewrite (hgetall_runs key (VObj (kv :: o)) g _ e1 c e1 k fields E2 K1 Hkne Hk
             (lookup_write _ _ _)).
  - now rewrite Hm.
  - destruct (existsb _ fields) eqn:X; [|reflexivity].
    apply existsb_exists in X as (x & Hin & Hx).
    assert (Hin' : In (fst x) (map fst (map dotted (leaves (VObj (kv :: o)))))).
    { rewrite <- Hm, field_value_keys. now apply in_map. }
    apply in_map_iff in Hin' as (y & Ey & Hy).
    apply in_map_iff in Hy as (pl & <- & Hpl).
    rewrite Forall_forall in E. destruct (E pl Hpl) as [Hp Hs].
    cbn [dotted fst] in Ey. rewrite <- Ey in Hx.
    now rewrite (dots_not_index _ Hp Hs), (dots_not_inherited _ Hp Hs) in Hx.
  - rewrite Hm. now apply unflatten_dotted.
Qed.

End HashFacts.

(* ================================================================== *)
(** * The properties of the specification *)
(* ================================================================== *)



(** C7 — graceful shutdown.  From a module that was blank (just loaded or
    just reset) and then used through any calls other than [reset],
    [reset()] (equally [quit()]) sends one [quit()] to every client
    created in between, the cached client, publisher and subscriber being
    among them; afterwards the three cached references are [null],
    [_clients] is empty and [defaults] is the original [defaults] again. *)
Theorem reset_quits_every_client {hp : Host} (e0 : exports) (l : list api) :
  blank e0 ->
  forallb (fun a => negb (is_reset a)) l = true ->
  exists e',
    redis.reset (calls l e0) = (Val tt, e')
    /\ redis.quit (calls l e0) = (Val tt, e')
    /\ (forall c, length (heap e0) <= c < length (heap (calls l e0)) ->
                  quits e' c = S (quits (calls l e0) c))
    /\ (forall w c, slot_of w (calls l e0) = Ref c ->
                    length (heap e0) <= c < length (heap (calls l e0)))
    /\ _client e' = Null /\ publisher e' = Null /\ subscriber e' = Null
    /\ _clients e' = [] /\ exports_defaults e' = defaults
    /\ blank e'.
Proof.
  intros Hb Hl.
  pose proof (blank_tracked e0 Hb) as T0.
  destruct (advance_calls l e0 Hl) as [_ T]. specialize (T _ T0).
  destruct (reset_spec _ _ T) as (e' & E & Q & _ & _ & Hc & Hp & Hs & Hcl & Hd).
  exists e'. repeat split; auto.
  - destruct T as (_ & _ & Hsl). apply (Hsl w c H).
  - destruct T as (_ & _ & Hsl). apply (Hsl w c H).
  - intros []; simpl; rewrite ?Hc, ?Hp, ?Hs; reflexivity.
Qed.

Lemma reset_quits_every_client_witness :
  let l := [A_index {| o_prefix := Some (lit "q"); o_separator := None;
                       o_redis := ONone |};
            A_createClient no_opts; A_key []] in
  let e := calls (hp := sample_host) l loaded in
  blank loaded
  /\ forallb (fun a => negb (is_reset a)) l = true
  /\ length (heap e) = 4
  /\ exists e', redis.reset e = (Val tt, e')
       /\ quits e' 0 = 1 /\ quits e' 3 = 1 /\ _clients e' = []
       /\ exports_defaults e' = defaults.
Proof.
  intros l e.
  assert (Hb : blank loaded) by (split; [reflexivity|intros []; reflexivity]).
  assert (Hl : forallb (fun a => negb (is_reset a)) l = true) by reflexivity.
  split; [exact Hb|]. split; [exact Hl|].
  split; [vm_compute; reflexivity|].
  destruct (reset_quits_every_client (hp := sample_host) loaded l Hb Hl)
    as (e' & E & _ & Q & _ & _ & _ & _ & Hcl & Hd & _).
  exists e'. split; [exact E|].
  assert (R0 : length (heap loaded) <= 0 < length (heap e))
    by (vm_compute; lia).
  assert (R3 : length (heap loaded) <= 3 < length (heap e))
    by (vm_compute; lia).
  split; [rewrite (Q 0 R0); vm_compute; reflexivity|].
  split; [rewrite (Q 3 R3); vm_compute; reflexivity|].
  split; assumption.
Defined.

(** C9 — a function in place of the key (or, for [set] and [hmset], of the
    value).  [set], [get], [hmset] and [hgetall] called with a function as
    first argument, and [set] and [hmset] called with a function as second
    argument after a first argument that is not one, return the result of
    calling that function without arguments: run against any store, the
    operation consists of that call alone, no request is issued and
    neither the store nor the module state changes. *)
Theorem function_argument_is_invoked {hp : Host} (St : Type)
  (serve : St -> request -> St * (jsval * jsval))
  (info_object : jsval -> jsval) (st : St) (e : exports)
  (f : fn) (key value expiry time strategy done : jsval) :
  isFunction key = false ->
  run St serve info_object
    (commands.set (VFun f) value expiry time strategy done) st e
  = ([Called f []], st, e)
  /\ run St serve info_object (commands.get (VFun f) done) st e
     = ([Called f []], st, e)
  /\ run St serve info_object (commands.hmset (VFun f) value done) st e
     = ([Called f []], st, e)
  /\ run St serve info_object (commands.hgetall (VFun f) done) st e
     = ([Called f []], st, e)
  /\ run St serve info_object
       (commands.set key (VFun f) expiry time strategy done) st e
     = ([Called f []], st, e)
  /\ run St serve info_object (commands.hmset key (VFun f) done) st e
     = ([Called f []], st, e)
  /\ no_request [Called f []].
Proof.
  intros Hk. unfold commands.set, commands.hmset. rewrite Hk.
  repeat split; try reflexivity.
  intros c r [H|[]]. discriminate.
Qed.

Lemma function_argument_is_invoked_witness :
  isFunction (VStr (lit "k")) = false
  /\ run store serve (fun reply => reply)
       (commands.set (hp := sample_host) (VStr (lit "k")) (VFun (User 7))
          VUndef VUndef VUndef VUndef)
       [(lit "r:k", EString (lit "v"))] loaded
     = ([Called (User 7) []], [(lit "r:k", EString (lit "v"))], loaded).
Proof.
  split; [reflexivity|].
  exact (proj1 (proj2 (proj2 (proj2 (proj2
    (function_argument_is_invoked (hp := sample_host) store serve
       (fun reply => reply) [(lit "r:k", EString (lit "v"))] loaded (User 7)
       (VStr (lit "k")) VUndef VUndef VUndef VUndef VUndef eq_refl)))))).
Defined.

(** C3 — key namespacing.  [key(...args)] flattens its arguments into
    segments, puts [defaults.prefix] in front and joins everything with
    [defaults.separator]; [set], [get], [hmset] and [hgetall] obtain the
    client, apply [key] to the caller's key and only then send their
    request, whose first argument is that key (the key is not empty when
    the prefix and the separator are not both empty).  With the default
    options ['ab'] is stored under ['r:ab'] and [['users', 'ab']] under
    ['r:users:ab']. *)
Theorem key_namespacing {hp : Host} (St : Type)
  (serve : St -> request -> St * (jsval * jsval))
  (info_object : jsval -> jsval) (st : St) (e : exports)
  (args : list jsval) (key value expiry time strategy done : jsval) :
  can_connect (exports_defaults e) = true ->
  prefix (exports_defaults e) ++ separator (exports_defaults e) <> [] ->
  isFunction key = false ->
  isFunction value = false ->
  (forall e0 : exports,
     concat_args args <> [] ->
     redis.key args e0
     = (Val (join (separator (exports_defaults e0))
               ([VStr (prefix (exports_defaults e0))] ++ concat_args args)),
        e0))
  /\ sends_under_key serve info_object SET key
       (commands.set key value expiry time strategy done) st e
  /\ sends_under_key serve info_object GET key (commands.get key done) st e
  /\ (forall fields, flat value = Val fields ->
        sends_under_key serve info_object HMSET key
          (commands.hmset key value done) st e)
  /\ sends_under_key serve info_object HGETALL key
       (commands.hgetall key done) st e
  /\ (exports_defaults e = defaults ->
      redis.key [VStr (lit "ab")] e = (Val (lit "r:ab"), e)
      /\ redis.key [VArr [VStr (lit "users"); VStr (lit "ab")]] e
         = (Val (lit "r:users:ab"), e)).
Proof.
  intros Hc Hp Hk Hv.
  split; [intros e0 Ha; now apply key_nonempty|].
  split; [now apply set_sends|].
  split; [now apply get_sends|].
  split; [intros fields Hf; now apply hmset_sends with fields|].
  split; [now apply hgetall_sends|].
  intros Hd. rewrite !key_nonempty by discriminate. rewrite Hd.
  split; reflexivity.
Qed.

Lemma key_namespacing_witness :
  can_connect (hp := sample_host) (exports_defaults loaded) = true
  /\ prefix (exports_defaults loaded) ++ separator (exports_defaults loaded)
     <> []
  /\ isFunction (VStr (lit "ab")) = false
  /\ isFunction (VNum 5) = false
  /\ redis.key (hp := sample_host) [VStr (lit "users"); VStr (lit "likes")]
       loaded
     = (Val (lit "r:users:likes"), loaded)
  /\ sends_under_key (hp := sample_host) serve (fun reply => reply) SET
       (VStr (lit "ab"))
       (commands.set (VStr (lit "ab")) (VNum 5) VUndef VUndef VUndef VUndef)
       [] loaded
  /\ redis.key (hp := sample_host) [VStr (lit "ab")] loaded
     = (Val (lit "r:ab"), loaded).
Proof.
  assert (Hc : can_connect (hp := sample_host) (exports_defaults loaded) = true)
    by (vm_compute; reflexivity).
  assert (Hp : prefix (exports_defaults loaded)
               ++ separator (exports_defaults loaded) <> [])
    by (intros E; discriminate E).
  assert (Ha : concat_args [VStr (lit "users"); VStr (lit "likes")] <> [])
    by (intros E; discriminate E).
  pose proof (key_namespacing (hp := sample_host) store serve
                (fun reply => reply) [] loaded
                [VStr (lit "users"); VStr (lit "likes")]
                (VStr (lit "ab")) (VNum 5) VUndef VUndef VUndef VUndef
                Hc Hp eq_refl eq_refl) as (K & S & _ & _ & _ & D).
  specialize (K loaded Ha). destruct (D eq_refl) as [Dab _].
  split; [exact Hc|]. split; [exact Hp|]. split; [reflexivity|].
  split; [reflexivity|]. split; [exact K|]. split; [exact S|exact Dab].
Defined.

(** C1 — where the errors handed to callbacks come from.  For [set], [get],
    [hmset], [hgetall], [clear] and [info], and for [count] when at least
    one pattern is left to count, every truthy error a function is called
    with is the error the client handed to the operation's callback in a
    reply.  [count] without a pattern is the exception: it makes no request
    and calls its callback with an error of its own, [Missing Count
    Patterns] with status 400. *)
Theorem errors_are_relayed {hp : Host} (St : Type)
  (serve : St -> request -> St * (jsval * jsval))
  (info_object : jsval -> jsval) (st : St) (e : exports)
  (key value expiry time strategy done pattern : jsval)
  (patterns : list jsval) :
  errors_from_client
    (trace_of serve info_object
       (commands.set key value expiry time strategy done) st e)
  /\ errors_from_client
       (trace_of serve info_object (commands.get key done) st e)
  /\ errors_from_client
       (trace_of serve info_object (commands.hmset key value done) st e)
  /\ errors_from_client
       (trace_of serve info_object (commands.hgetall key done) st e)
  /\ errors_from_client
       (trace_of serve info_object (redis.clear pattern done) st e)
  /\ errors_from_client (trace_of serve info_object (redis.info done) st e)
  /\ (counted patterns <> [] ->
      errors_from_client
        (trace_of serve info_object (redis.count patterns) st e))
  /\ (forall f, counted patterns = [] ->
      last_ (uniq (compact (concat_args patterns))) = VFun f ->
      run St serve info_object (redis.count patterns) st e
      = ([Called f [VErr (lit "Missing Count Patterns") (Some 400%Z)]],
         st, e)).
Proof.
  repeat split.
  - apply relays_errors_from_client, relays_set.
  - apply relays_errors_from_client, relays_get.
  - apply relays_errors_from_client, relays_hmset.
  - apply relays_errors_from_client, relays_hgetall.
  - apply relays_errors_from_client, relays_clear.
  - apply relays_errors_from_client, relays_info.
  - intros H. apply relays_errors_from_client, relays_count, H.
  - intros f H L. rewrite (count_without_patterns _ H), L. reflexivity.
Qed.

Lemma errors_are_relayed_witness :
  counted [VStr (lit "abc:*"); VFun (User 1)] <> []
  /\ errors_from_client
       (trace_of serve (fun reply => reply)
          (redis.count (hp := sample_host)
             [VStr (lit "abc:*"); VFun (User 1)]) [] loaded).
Proof.
  assert (H : counted [VStr (lit "abc:*"); VFun (User 1)] <> [])
    by (vm_compute; discriminate).
  split; [exact H|].
  exact (proj1 (proj2 (proj2 (proj2 (proj2 (proj2 (proj2
    (errors_are_relayed (hp := sample_host) store serve (fun reply => reply)
       [] loaded VUndef VUndef VUndef VUndef VUndef VUndef VUndef
       [VStr (lit "abc:*"); VFun (User 1)]))))))) H).
Defined.

(** C1 as it is worded fails: [count] called with its callback alone
    reaches no client, yet the callback receives an error. *)
Lemma count_makes_its_own_error :
  ~ (forall (hp : Host) (St : Type)
       (serve : St -> request -> St * (jsval * jsval))
       (info_object : jsval -> jsval) (st : St) (e : exports)
       (patterns : list jsval),
       errors_from_client
         (trace_of serve info_object (redis.count patterns) st e)).
Proof.
  intros H.
  specialize (H sample_host store serve (fun reply => reply) [] loaded
                [VFun (User 1)] (User 1)
                (VErr (lit "Missing Count Patterns") (Some 400%Z)) []).
  destruct H as [reply Hr]; [left; reflexivity|reflexivity|].
  destruct Hr as [Hr|[]]. discriminate.
Qed.

(** C10 — [key()] always returns a prefixed key.  For every argument list
    the result begins with [defaults.prefix] followed by
    [defaults.separator], so it is empty only if both are; without
    arguments (or with an empty list) the key is the prefix, the separator
    and the next identifier of [uuid.v1()], and it splits on the separator
    into exactly those two segments when the separator is a single
    character that occurs neither in the prefix nor in the identifier (as
    the default [':'] with the default prefix). *)
Theorem key_is_prefixed {hp : Host} (args : list jsval) (e : exports) (c : ascii) :
  separator (exports_defaults e) = [c] ->
  ~ In c (prefix (exports_defaults e)) ->
  ~ In c (uuid_v1 (uuids e)) ->
  (forall (args' : list jsval) (e0 : exports),
     exists k e', redis.key args' e0 = (Val k, e')
       /\ begins_with (prefix (exports_defaults e0)
                       ++ separator (exports_defaults e0)) k
       /\ (prefix (exports_defaults e0) ++ separator (exports_defaults e0)
           <> [] -> k <> [])
       /\ (concat_args args' = [] ->
           k = prefix (exports_defaults e0) ++ separator (exports_defaults e0)
               ++ uuid_v1 (uuids e0)
           /\ uuids e' = S (uuids e0)))
  /\ (concat_args args = [] ->
      exists k e', redis.key args e = (Val k, e')
        /\ split (separator (exports_defaults e)) k
           = [prefix (exports_defaults e); uuid_v1 (uuids e)]).
Proof.
  intros Hs Hp Hu. split.
  - intros args' e0.
    destruct (concat_args args') as [|x l] eqn:E.
    + rewrite (key_empty _ _ E). eexists _, _. split; [reflexivity|].
      assert (B : begins_with
                    (prefix (exports_defaults e0)
                     ++ separator (exports_defaults e0))
                    (join (separator (exports_defaults e0))
                       [VStr (prefix (exports_defaults e0));
                        VStr (uuid_v1 (uuids e0))])).
      { exists (uuid_v1 (uuids e0)). cbn. now rewrite app_assoc. }
      split; [exact B|]. split.
      * intros Hne. eapply begins_nonempty; eauto.
      * intros _. split; reflexivity.
    + rewrite key_nonempty by congruence. rewrite E.
      eexists _, _. split; [reflexivity|].
      assert (B : begins_with
                    (prefix (exports_defaults e0)
                     ++ separator (exports_defaults e0))
                    (join (separator (exports_defaults e0))
                       ([VStr (prefix (exports_defaults e0))] ++ x :: l))).
      { cbn [app]. rewrite join_prefix. eexists. now rewrite app_assoc. }
      split; [exact B|]. split.
      * intros Hne. eapply begins_nonempty; eauto.
      * discriminate.
  - intros E. rewrite (key_empty _ _ E). eexists _, _.
    split; [reflexivity|]. rewrite Hs. cbn [join map elt_string to_string concat_with].
    now apply split_two.
Qed.

Lemma key_is_prefixed_witness :
  separator (exports_defaults loaded) = [":"%char]
  /\ ~ In ":"%char (prefix (exports_defaults loaded))
  /\ ~ In ":"%char (uuid_v1 (Host := sample_host) (uuids loaded))
  /\ exists k e', redis.key (hp := sample_host) [] loaded = (Val k, e')
       /\ split (lit ":") k
          = [lit "r"; lit "6c84fb90-12c4-11e1-840d-7b25c5ee7700"].
Proof.
  assert (Hp : ~ In ":"%char (prefix (exports_defaults loaded))).
  { vm_compute. intros [H|[]]. discriminate. }
  assert (Hu : ~ In ":"%char (uuid_v1 (Host := sample_host) (uuids loaded))).
  { vm_compute. intuition discriminate. }
  split; [reflexivity|]. split; [exact Hp|]. split; [exact Hu|].
  exact (proj2 (key_is_prefixed (hp := sample_host) [] loaded ":"%char
                  eq_refl Hp Hu) eq_refl).
Defined.

(** C10 as it is worded fails: with the separator ['-'], a documented
    option, the key without arguments splits into six segments, the
    identifier having four dashes of its own. *)
Lemma key_with_dash_separator :
  ~ (forall (hp : Host) (args : list jsval) (e e' : exports) (k : jstr),
       redis.key args e = (Val k, e') ->
       begins_with (prefix (exports_defaults e)
                    ++ separator (exports_defaults e)) k
       /\ (concat_args args = [] ->
           length (split (separator (exports_defaults e)) k) = 2)).
Proof.
  intros H.
  pose (dash := {| o_prefix := Some (lit "q"); o_separator := Some (lit "-");
                   o_redis := ONone |}).
  pose (e := snd (redis.index (hp := sample_host) dash loaded)).
  destruct (H sample_host [] e (snd (redis.key [] e))
              (lit "q-6c84fb90-12c4-11e1-840d-7b25c5ee7700"))
    as [_ L]; [vm_compute; reflexivity|].
  specialize (L eq_refl). vm_compute in L. discriminate.
Qed.

(** C6 — pattern-based deletion.  [clear(pattern, done)] deletes exactly
    the keys that match the non-empty ones of [defaults.prefix] and
    [pattern], joined with [defaults.separator] and followed by ['*'], and
    leaves every other key as it was.  With a non-empty prefix that is
    [prefix + separator + pattern + '*'] for a non-empty pattern and
    [prefix + '*'] when no pattern is given, also when the callback comes
    first. *)
Theorem clear_deletes_matching {hp : Host} {srv : Server}
  (info_object : jsval -> jsval) (pattern : option jstr) (done : jsval)
  (st : store) (e : exports) :
  can_connect (exports_defaults e) = true ->
  let d := exports_defaults e in
  let arg := match pattern with Some p => VStr p | None => VUndef end in
  let st' := snd (fst (run store serve info_object
                         (redis.clear arg done) st e)) in
  st' = filter (fun kx => negb (glob (clear_pattern d pattern) (fst kx))) st
  /\ (forall k, glob (clear_pattern d pattern) k = true -> lookup k st' = None)
  /\ (forall k, glob (clear_pattern d pattern) k = false ->
                lookup k st' = lookup k st)
  /\ (forall p, pattern = Some p -> prefix d <> [] -> p <> [] ->
                clear_pattern d pattern
                = prefix d ++ separator d ++ p ++ lit "*")
  /\ (pattern = None -> clear_pattern d pattern = prefix d ++ lit "*")
  /\ (forall f done0, redis.clear (VFun f) done0 = redis.clear VUndef (VFun f)).
Proof.
  intros Hc d arg st'.
  destruct (clear_runs info_object pattern done st e Hc)
    as (c & replies & e' & R).
  assert (Hst : st' = filter (fun kx => negb (glob (clear_pattern d pattern)
                                                (fst kx))) st).
  { unfold st', arg. now rewrite R. }
  split; [exact Hst|]. rewrite Hst.
  split; [|split; [|split; [|split]]].
  - intros k Hk.
    rewrite (lookup_filter (fun k => negb (glob (clear_pattern d pattern) k))).
    now rewrite Hk.
  - intros k Hk.
    rewrite (lookup_filter (fun k => negb (glob (clear_pattern d pattern) k))).
    now rewrite Hk.
  - intros p -> Hp Hn. unfold clear_pattern.
    destruct (prefix d) as [|a pre]; [congruence|].
    destruct p as [|b p]; [congruence|].
    cbn. now rewrite <- !app_assoc.
  - intros ->. unfold clear_pattern. now destruct (prefix d).
  - intros f done0. apply clear_callback_first.
Qed.

Lemma clear_deletes_matching_witness :
  let st := [(lit "r:users:1", EString (lit "a"));
             (lit "r:other", EString (lit "b"));
             (lit "x", EString (lit "c"))] in
  can_connect (hp := sample_host) (exports_defaults loaded) = true
  /\ snd (fst (run store serve (fun reply => reply)
                 (redis.clear (hp := sample_host) (VStr (lit "users"))
                    (VFun (User 1))) st loaded))
     = [(lit "r:other", EString (lit "b")); (lit "x", EString (lit "c"))].
Proof.
  intros st. split; [reflexivity|].
  destruct (clear_deletes_matching (hp := sample_host) (srv := sample_server)
              (fun reply => reply) (Some (lit "users")) (VFun (User 1)) st
              loaded eq_refl) as [H _].
  rewrite H. vm_compute. reflexivity.
Defined.

(** C6 as it is worded fails with an empty prefix: [clear('users')] then
    deletes the keys matching ['users*'], not those matching
    [':users*']. *)
Lemma clear_with_empty_prefix :
  ~ (forall (hp : Host) (srv : Server) (info_object : jsval -> jsval)
       (p : jstr) (done : jsval) (st : store) (e : exports),
       can_connect (exports_defaults e) = true ->
       snd (fst (run store serve info_object
                   (redis.clear (VStr p) done) st e))
       = filter (fun kx =>
                   negb (glob (prefix (exports_defaults e)
                               ++ separator (exports_defaults e)
                               ++ p ++ lit "*") (fst kx))) st).
Proof.
  intros H.
  specialize (H sample_host sample_server (fun reply => reply)
                (lit "users") (VFun (User 1))
                [(lit "users1", EString (lit "a"));
                 (lit ":users:1", EString (lit "b"))]
                (with_defaults
                   (merge defaults {| o_prefix := Some []; o_separator := None;
                                      o_redis := ONone |}) loaded)
                eq_refl).
  vm_compute in H. discriminate.
Qed.










(* ================================================================== *)
(** * Further properties of the module and its operations *)
(* ================================================================== *)

Section FactoryFacts.
Context {hp : Host}.

Lemma createClient_invalid (o : opts) (e : exports) (s : jstr) :
  redis (merge (exports_defaults e) o) = RUrl s ->
  of_string (protocol (url_parse s)) <> VStr (lit "redis:") ->
  redis.createClient o e = (Exn invalid_connection, e).
Proof.
  intros Hr Hp. unfold redis.createClient, bind, gets. rewrite Hr.
  destruct (jsval_eqb (of_string (protocol (url_parse s))) (VStr (lit "redis:")))
    eqn:E; [apply jsval_eqb_eq in E; contradiction|].
  reflexivity.
Qed.

Lemma createClient_val (o : opts) (e e' : exports) (c : nat) :
  redis.createClient o e = (Val c, e') ->
  c = length (heap e) /\ fresh_client e e'
  /\ can_connect (merge (exports_defaults e) o) = true.
Proof.
  intros H. destruct (can_connect (merge (exports_defaults e) o)) eqn:Ec.
  - destruct (createClient_ok o e Ec) as (e1 & E & F). rewrite E in H.
    injection H as <- <-. auto.
  - destruct (createClient_throws o e Ec) as (x & E). rewrite E in H.
    discriminate.
Qed.

Lemma createClient_connects (o : opts) (e : exports) :
  can_connect (merge (exports_defaults e) o) = true ->
  let conf := connection_settings (redis (merge (exports_defaults e) o)) in
  exists e',
    redis.createClient o e = (Val (length (heap e)), e')
    /\ heap e'
       = heap e
         ++ [new_client
               (if truthy (socket conf) then socket conf
                else or_ (port conf) (VNum 6379))
               (if truthy (socket conf) then VNull
                else or_ (host conf) (VStr (lit "127.0.0.1")))
               (options conf)
               (if truthy (auth conf) then auth conf else VUndef)
               (if truthy (db conf) then db conf else VUndef)].
Proof.
  intros Hc conf.
  unfold redis.createClient, can_connect, bind, gets, ret, throw, when,
    on_client, modify, redis.redis_createClient in *.
  unfold conf, connection_settings.
  destruct (redis (merge (exports_defaults e) o)) as [s|cf] eqn:Er;
    [rewrite Hc|]; cbv beta iota zeta delta [negb];
    match goal with
    | |- context [truthy (auth ?x)] =>
        destruct (truthy (auth x)) eqn:Ta; destruct (truthy (db x)) eqn:Td;
        destruct (truthy (socket x)) eqn:Ts
    end;
    (eexists; split; [reflexivity|]);
    cbn [heap with_heap with_clients];
    rewrite ?update_nth_last;
    unfold or_; rewrite ?Ts; cbn [truthy]; try reflexivity.
Qed.

Lemma strip_user_no_colon (line s : jstr) :
  ~ In ":"%char s -> strip_user line s = rev line ++ s.
Proof.
  revert line. induction s as [|c s IH]; intros line H.
  - cbn. now rewrite app_nil_r.
  - cbn [strip_user].
    destruct (Ascii.eqb_spec c ":"%char) as [->|_]; [exfalso; apply H; now left|].
    assert (Hs : ~ In ":"%char s) by (intros X; apply H; now right).
    destruct (Ascii.eqb c "010" || Ascii.eqb c "013").
    + rewrite (IH [] Hs). reflexivity.
    + rewrite (IH (c :: line) Hs). cbn [rev]. now rewrite <- app_assoc.
Qed.

Lemma strip_user_password (line user pass : jstr) :
  ~ In ":"%char user -> existsb line_break user = false ->
  strip_user line (user ++ ":"%char :: pass) = pass.
Proof.
  revert line. induction user as [|c u IH]; intros line Hc Hl.
  - cbn. reflexivity.
  - cbn [app strip_user].
    destruct (Ascii.eqb_spec c ":"%char) as [->|_]; [exfalso; apply Hc; now left|].
    cbn [existsb] in Hl. apply orb_false_iff in Hl as [Hb Hl].
    unfold line_break in Hb. rewrite Hb.
    apply IH; [intros X; apply Hc; now right|exact Hl].
Qed.

Lemma ensure_step (w : which) (e : exports) :
  can_connect (exports_defaults e) = true ->
  exists e',
    ensure w e = (Val tt, e')
    /\ length (heap e') = length (heap e) + Nat.b2n (missing w e)
    /\ _clients e' = _clients e ++ newly (missing w e) (length (heap e))
    /\ (forall w', slot_of w' e'
                   = if missing w e && which_eqb w w'
                     then Ref (length (heap e)) else slot_of w' e)
    /\ exports_defaults e' = exports_defaults e
    /\ uuids e' = uuids e.
Proof.
  intros Hc. unfold missing.
  destruct (ensure_cases w e)
    as [[T E]|[(_ & F & _)|(T & _ & e1 & E1 & W1 & D1 & U1 & L1 & n1 & H1 & _)]];
    [|congruence|].
  - exists e. rewrite T. cbn [negb andb newly length Nat.b2n].
    rewrite app_nil_r, Nat.add_0_r. repeat split; auto.
  - exists e1. rewrite T. cbn [negb andb newly length Nat.b2n].
    rewrite H1, length_app. cbn [length]. repeat split; auto.
Qed.

Lemma pubsub_creates_missing (e : exports) :
  can_connect (exports_defaults e) = true ->
  let n := length (heap e) in
  let mp := missing The_publisher e in
  let ms := missing The_subscriber e in
  exists e',
    redis.pubsub e = (Val (publisher e', subscriber e'), e')
    /\ publisher e' = (if mp then Ref n else publisher e)
    /\ subscriber e' = (if ms then Ref (n + Nat.b2n mp)
                        else subscriber e)
    /\ _client e' = _client e
    /\ _clients e'
       = _clients e ++ newly mp n ++ newly ms (n + Nat.b2n mp)
    /\ length (heap e') = n + Nat.b2n mp + Nat.b2n ms
    /\ exports_defaults e' = exports_defaults e
    /\ uuids e' = uuids e.
Proof.
  intros Hc n mp ms. rewrite pubsub_ensure.
  destruct (ensure_step The_publisher e Hc) as (e1 & E1 & H1 & L1 & W1 & D1 & U1).
  destruct (ensure_step The_subscriber e1) as (e2 & E2 & H2 & L2 & W2 & D2 & U2);
    [congruence|].
  rewrite (bind_val _ _ _ _ _ E1), (bind_val _ _ _ _ _ E2).
  assert (Ms : missing The_subscriber e1 = ms).
  { unfold missing, ms. rewrite (W1 The_subscriber). cbn.
    now rewrite andb_false_r. }
  rewrite Ms in *. fold mp in H1, L1, W1. fold n in H1, L1, W1.
  exists e2. split; [reflexivity|].
  pose proof (W2 The_publisher) as P2. pose proof (W2 The_subscriber) as S2.
  pose proof (W2 The_client) as C2. pose proof (W1 The_publisher) as P1.
  pose proof (W1 The_subscriber) as S1. pose proof (W1 The_client) as C1.
  cbn [which_eqb slot_of] in *. rewrite ?andb_false_r, ?andb_true_r in *.
  rewrite H1 in *.
  repeat split; try congruence.
  - rewrite S2. destruct ms; congruence.
  - rewrite L2, L1, <- app_assoc. reflexivity.
Qed.

Lemma init_creates_missing (e : exports) :
  can_connect (exports_defaults e) = true ->
  let n := length (heap e) in
  let mc := missing The_client e in
  let mp := missing The_publisher e in
  let ms := missing The_subscriber e in
  let np := n + Nat.b2n mc in
  let ns := np + Nat.b2n mp in
  exists e',
    redis.init e = (Val (_client e'), e')
    /\ _client e' = (if mc then Ref n else _client e)
    /\ publisher e' = (if mp then Ref np else publisher e)
    /\ subscriber e' = (if ms then Ref ns else subscriber e)
    /\ _clients e' = _clients e ++ newly mc n ++ newly mp np ++ newly ms ns
    /\ length (heap e') = ns + Nat.b2n ms
    /\ exports_defaults e' = exports_defaults e
    /\ uuids e' = uuids e.
Proof.
  intros Hc n mc mp ms np ns. rewrite init_ensure.
  destruct (ensure_step The_client e Hc) as (e1 & E1 & H1 & L1 & W1 & D1 & U1).
  destruct (pubsub_creates_missing e1)
    as (e2 & E2 & P2 & S2 & C2 & L2 & H2 & D2 & U2); [congruence|].
  rewrite (bind_val _ _ _ _ _ E1), (bind_val _ _ _ _ _ E2).
  pose proof (W1 The_publisher) as P1.
  pose proof (W1 The_subscriber) as S1. pose proof (W1 The_client) as C1.
  cbn [which_eqb slot_of] in *. rewrite ?andb_false_r, ?andb_true_r in *.
  assert (Mp : missing The_publisher e1 = mp)
    by (unfold missing, mp; cbn [slot_of]; now rewrite P1).
  assert (Ms : missing The_subscriber e1 = ms)
    by (unfold missing, ms; cbn [slot_of]; now rewrite S1).
  rewrite Mp, Ms, H1 in *. fold mc n in C1, L1, H1, P2, S2, L2, H2.
  fold np in P2, S2, L2, H2. fold ns in S2, L2, H2.
  exists e2. split; [reflexivity|].
  repeat split; try congruence.
  - rewrite P2. destruct mp; congruence.
  - rewrite S2. destruct ms; congruence.
  - rewrite L2, L1, <- app_assoc. reflexivity.
Qed.

Lemma forEach_on_client (l : list nat) (f : client -> client) (e : exports) :
  exists h,
    forEach l (fun c => on_client c f) e = (Val tt, with_heap h e)
    /\ length h = length (heap e)
    /\ forall (B : Type) (p : client -> B),
         (forall o, p (f o) = p o) ->
         forall c, option_map p (nth_error h c)
                   = option_map p (nth_error (heap e) c).
Proof.
  revert e. induction l as [|c l IH]; intros e.
  - exists (heap e). split; [now destruct e|]. split; [reflexivity|auto].
  - cbn [forEach]. unfold bind at 1. unfold on_client at 1, modify.
    destruct (IH (with_heap (update_nth c f (heap e)) e)) as (h & E & L & K).
    exists h. rewrite E. split; [reflexivity|]. cbn [heap with_heap] in L, K.
    split; [now rewrite L, update_nth_length|].
    intros B p Hp c'. rewrite (K B p Hp c'), nth_error_update_nth.
    destruct (Nat.eqb c c'); [|reflexivity].
    destruct (nth_error (heap e) c'); cbn; [now rewrite Hp|reflexivity].
Qed.

Lemma reset_total (e : exports) :
  exists h,
    redis.reset e = (Val tt, after_reset h e)
    /\ length h = length (heap e)
    /\ forall (B : Type) (p : client -> B),
         (forall o, p (do_quit o) = p o) ->
         forall c, option_map p (nth_error h c)
                   = option_map p (nth_error (silenced e) c).
Proof.
  unfold redis.reset, silenced. rewrite bind_gets.
  destruct (subscriber e) as [| |s] eqn:Es.
  - unfold bind at 1, ret at 1. rewrite bind_gets.
    destruct (forEach_on_client (_clients e) do_quit e) as (h & E & L & K).
    rewrite (bind_val _ _ _ _ _ E). exists h. split; [reflexivity|].
    split; [exact L|exact K].
  - unfold bind at 1, ret at 1. rewrite bind_gets.
    destruct (forEach_on_client (_clients e) do_quit e) as (h & E & L & K).
    rewrite (bind_val _ _ _ _ _ E). exists h. split; [reflexivity|].
    split; [exact L|exact K].
  - set (e0 := with_heap (update_nth s do_removeAllListeners
                            (update_nth s do_unsubscribe (heap e))) e).
    assert (E0 : (on_client s do_unsubscribe ;;;
                  on_client s do_removeAllListeners)%js e = (Val tt, e0))
      by reflexivity.
    rewrite (bind_val _ _ _ _ _ E0), bind_gets.
    destruct (forEach_on_client (_clients e0) do_quit e0) as (h & E & L & K).
    rewrite (bind_val _ _ _ _ _ E). exists h. split; [reflexivity|].
    unfold e0 in L, K. cbn [heap with_heap] in L, K.
    split; [now rewrite L, !update_nth_length|exact K].
Qed.

Lemma reset_after_reset (h : list client) (e : exports) :
  redis.reset (after_reset h e) = (Val tt, after_reset h e).
Proof. reflexivity. Qed.

End FactoryFacts.

Section AnyStoreFacts.
Context {hp : Host}.
Variable St : Type.
Variable serve : St -> request -> St * (jsval * jsval).
Variable info_object : jsval -> jsval.

Lemma run_Send (c : nat) (r : request) (k : jsval -> jsval -> prog)
  (st st' : St) (e : exports) (error reply : jsval) :
  serve st r = (st', (error, reply)) ->
  run St serve info_object (Send (Ref c) r k) st e
  = (let '(t, st'', e') :=
       run St serve info_object (k error reply) st' (note_info info_object c r reply e)
     in (Requested c r :: Replied error reply :: t, st'', e')).
Proof. intros H. cbn [run]. now rewrite H. Qed.

Lemma run_ending (f : jsval) (args : list jsval) (st : St) (e : exports) :
  run St serve info_object (Invoke f args) st e = ([ending f args], st, e).
Proof. destruct f; reflexivity. Qed.

Lemma set_runs_any (key value expiry time strategy done : jsval)
  (st st' : St) (e e1 e2 : exports) (c : nat) (k : jstr)
  (error reply : jsval) :
  redis.client_ e = (Val (Ref c), e1) ->
  redis.key [key] e1 = (Val k, e2) -> k <> [] ->
  isFunction key = false -> isFunction value = false ->
  let args := [VStr k] ++ sent_if true (commands.stringify value)
              ++ sent_if (isString expiry) expiry
              ++ sent_if (isNumber time) time
              ++ sent_if (isString strategy) strategy in
  serve st (Single SET args) = (st', (error, reply)) ->
  run St serve info_object
    (commands.set key value expiry time strategy done) st e
  = ([Requested c (Single SET args); Replied error reply;
      ending (callback_of [expiry; time; strategy; done]) [error; value]],
     st', e2).
Proof.
  intros Ec K Hkne Hk Hv args Hs.
  unfold commands.set. rewrite Hk, Hv.
  rewrite (run_Do _ _ _ _ _ _ _ _ _ Ec), (run_Do _ _ _ _ _ _ _ _ _ K).
  cbv zeta.
  assert (A : compact
                [VStr k; commands.stringify value;
                 if truthy expiry && isString expiry then expiry else VUndef;
                 if truthy time && isNumber time then time else VUndef;
                 if truthy strategy && isString strategy then strategy
                 else VUndef] = args).
  { unfold args, sent_if, compact. rewrite andb_true_r.
    cbn [filter app].
    assert (Tk : truthy (VStr k) = true) by (destruct k; [congruence|reflexivity]).
    rewrite Tk.
    destruct (truthy (commands.stringify value));
      destruct (truthy expiry && isString expiry) eqn:E1;
      destruct (truthy time && isNumber time) eqn:E2;
      destruct (truthy strategy && isString strategy) eqn:E3;
      repeat match goal with
             | H : truthy ?x && _ = true |- _ =>
                 let T := fresh in
                 apply andb_true_iff in H as [T _]; rewrite ?T
             end; cbn [truthy app]; reflexivity. }
  rewrite A. rewrite (run_Send _ _ _ _ _ _ _ _ Hs).
  cbn [note_info]. rewrite run_ending. reflexivity.
Qed.

Lemma get_runs_any (key done : jsval) (st st' : St) (e e1 e2 : exports)
  (c : nat) (k : jstr) (error reply : jsval) :
  redis.client_ e = (Val (Ref c), e1) ->
  redis.key [key] e1 = (Val k, e2) -> k <> [] ->
  isFunction key = false ->
  serve st (Single GET [VStr k]) = (st', (error, reply)) ->
  run St serve info_object (commands.get key done) st e
  = ([Requested c (Single GET [VStr k]); Replied error reply;
      match commands.parse reply with
      | Val v => ending (callback_of [done]) [error; v]
      | Exn x => Thrown x
      | Beyond => Unmodelled
      end], st', e2).
Proof.
  intros Ec K Hkne Hk Hs. unfold commands.get. rewrite Hk.
  rewrite (run_Do _ _ _ _ _ _ _ _ _ Ec), (run_Do _ _ _ _ _ _ _ _ _ K).
  cbv zeta. rewrite compact_key by exact Hkne. unfold compact. cbn [filter].
  rewrite (run_Send _ _ _ _ _ _ _ _ Hs). cbn [note_info].
  destruct (commands.parse reply); [rewrite run_ending| |]; reflexivity.
Qed.

Lemma flat_object (value fields : jsval) :
  flat value = Val fields -> truthy fields = true.
Proof.
  unfold flat. destruct (step value); try discriminate.
  destruct (existsb _ _); [discriminate|]. now intros [= <-].
Qed.

Lemma hmset_runs_any (key value done : jsval) (st st' : St)
  (e e1 e2 : exports) (c : nat) (k : jstr) (fields error reply : jsval) :
  redis.client_ e = (Val (Ref c), e1) ->
  redis.key [key] e1 = (Val k, e2) -> k <> [] ->
  isFunction key = false -> isFunction value = false ->
  flat value = Val fields ->
  serve st (Single HMSET [VStr k; fields]) = (st', (error, reply)) ->
  run St serve info_object (commands.hmset key value done) st e
  = ([Requested c (Single HMSET [VStr k; fields]); Replied error reply;
      ending (callback_of [done]) [error; value]], st', e2).
Proof.
  intros Ec K Hkne Hk Hv Hf Hs. unfold commands.hmset. rewrite Hk, Hv.
  rewrite (run_Do _ _ _ _ _ _ _ _ _ Ec), (run_Do _ _ _ _ _ _ _ _ _ K), Hf.
  cbv zeta. rewrite compact_key by exact Hkne. unfold compact. cbn [filter].
  rewrite (flat_object _ _ Hf).
  rewrite (run_Send _ _ _ _ _ _ _ _ Hs). cbn [note_info].
  rewrite run_ending. reflexivity.
Qed.

Lemma hgetall_runs_any (key done : jsval) (st st' : St) (e e1 e2 : exports)
  (c : nat) (k : jstr) (error reply : jsval) :
  redis.client_ e = (Val (Ref c), e1) ->
  redis.key [key] e1 = (Val k, e2) -> k <> [] ->
  isFunction key = false ->
  serve st (Single HGETALL [VStr k]) = (st', (error, reply)) ->
  run St serve info_object (commands.hgetall key done) st e
  = ([Requested c (Single HGETALL [VStr k]); Replied error reply;
      match unflat reply with
      | Val v => ending (callback_of [done]) [error; v]
      | Exn x => Thrown x
      | Beyond => Unmodelled
      end], st', e2).
Proof.
  intros Ec K Hkne Hk Hs. unfold commands.hgetall. rewrite Hk.
  rewrite (run_Do _ _ _ _ _ _ _ _ _ Ec), (run_Do _ _ _ _ _ _ _ _ _ K).
  cbv zeta. rewrite compact_key by exact Hkne. unfold compact. cbn [filter].
  rewrite (run_Send _ _ _ _ _ _ _ _ Hs). cbn [note_info].
  destruct (unflat reply); [rewrite run_ending| |]; reflexivity.
Qed.

Lemma clear_begins (pattern : option jstr) (done : jsval) (st st1 : St)
  (e : exports) (error keys : jsval) :
  can_connect (exports_defaults e) = true ->
  let arg := match pattern with Some p => VStr p | None => VUndef end in
  let pat := clear_pattern (exports_defaults e) pattern in
  let cb := if negb (truthy done) then VFun Noop else done in
  serve st (Single KEYS [VStr pat]) = (st1, (error, keys)) ->
  exists c e1,
    redis.init e = (Val (Ref c), e1)
    /\ run St serve info_object (redis.clear arg done) st e
       = (let '(t, st2, e2) :=
            run St serve info_object
              (if truthy error then Invoke cb [error]
               else
                 Do redis.multi (fun _client =>
                 match keys with
                 | VArr l =>
                     Send _client (Exec (map (fun key => (DEL, [key])) l))
                       (fun error replies => Invoke cb [error; replies])
                 | VUndef | VNull =>
                     Send _client (Exec [])
                       (fun error replies => Invoke cb [error; replies])
                 | _ => Stuck
                 end)) st1 e1
          in (Requested c (Single KEYS [VStr pat]) :: Replied error keys :: t,
              st2, e2))
    /\ redis.multi e1 = (Val (Ref c), e1).
Proof.
  intros Hc arg pat cb Hs.
  destruct (init_twice e Hc) as (c & e1 & E & E1 & Hd & _).
  exists c, e1. split; [exact E|]. split; [|exact E1].
  assert (Hn : truthy arg && isFunction arg = false).
  { subst arg. destruct pattern as [[|? ?]|]; reflexivity. }
  unfold redis.clear. rewrite Hn. cbv beta iota zeta.
  rewrite (run_Do _ _ _ (gets exports_defaults) _ _ e e (exports_defaults e) eq_refl).
  pose proof (clear_pattern_computed (exports_defaults e) pattern) as Hp.
  cbv zeta in Hp. fold arg in Hp. rewrite Hp. clear Hp.
  fold pat.
  rewrite (run_Do _ _ _ _ _ _ _ _ _ E).
  rewrite (run_Do _ _ _ _ _ _ _ _ _ E1).
  rewrite (run_Send _ _ _ _ _ _ _ _ Hs). cbn [note_info]. reflexivity.
Qed.

Lemma clear_error (pattern : option jstr) (done : jsval) (st st1 : St)
  (e : exports) (error keys : jsval) :
  can_connect (exports_defaults e) = true ->
  let arg := match pattern with Some p => VStr p | None => VUndef end in
  let pat := clear_pattern (exports_defaults e) pattern in
  let cb := if negb (truthy done) then VFun Noop else done in
  serve st (Single KEYS [VStr pat]) = (st1, (error, keys)) ->
  truthy error = true ->
  exists c e1,
    run St serve info_object (redis.clear arg done) st e
    = ([Requested c (Single KEYS [VStr pat]); Replied error keys;
        ending cb [error]], st1, e1).
Proof.
  intros Hc arg pat cb Hs Ht.
  destruct (clear_begins pattern done st st1 e error keys Hc Hs)
    as (c & e1 & _ & R & _).
  exists c, e1. fold arg in R. rewrite R, Ht. fold cb.
  rewrite run_ending. reflexivity.
Qed.

Lemma clear_success (pattern : option jstr) (done : jsval) (st st1 st2 : St)
  (e : exports) (error error' replies : jsval) (l : list jsval) :
  can_connect (exports_defaults e) = true ->
  let arg := match pattern with Some p => VStr p | None => VUndef end in
  let pat := clear_pattern (exports_defaults e) pattern in
  let cb := if negb (truthy done) then VFun Noop else done in
  serve st (Single KEYS [VStr pat]) = (st1, (error, VArr l)) ->
  truthy error = false ->
  serve st1 (Exec (map (fun key => (DEL, [key])) l))
  = (st2, (error', replies)) ->
  exists c e1,
    run St serve info_object (redis.clear arg done) st e
    = ([Requested c (Single KEYS [VStr pat]); Replied error (VArr l);
        Requested c (Exec (map (fun key => (DEL, [key])) l));
        Replied error' replies;
        ending cb [error'; replies]], st2, e1).
Proof.
  intros Hc arg pat cb Hs Ht Hx.
  destruct (clear_begins pattern done st st1 e error (VArr l) Hc Hs)
    as (c & e1 & _ & R & Em).
  exists c, e1. fold arg in R. rewrite R, Ht. fold cb.
  rewrite (run_Do _ _ _ _ _ _ _ _ _ Em).
  rewrite (run_Send _ _ _ _ _ _ _ _ Hx). cbn [note_info].
  rewrite run_ending. reflexivity.
Qed.

End AnyStoreFacts.

Section OperationRunFacts.
Context {hp : Host}.
Variable St : Type.
Variable serve : St -> request -> St * (jsval * jsval).
Variable info_object : jsval -> jsval.

Lemma info_runs (n0 : nat) (done : jsval) (st st' : St) (e : exports)
  (error reply : jsval) :
  tracked n0 e ->
  can_connect (exports_defaults e) = true ->
  serve st (Single INFO []) = (st', (error, reply)) ->
  exists c e1,
    redis.init e = (Val (Ref c), e1)
    /\ c < length (heap e1)
    /\ run St serve info_object (redis.info done) st e
       = ([Requested c (Single INFO []); Replied error reply;
           ending done [error; info_object reply]], st',
          with_heap (update_nth c (set_server_info (info_object reply))
                       (heap e1)) e1).
Proof.
  intros T Hc Hs.
  destruct (init_twice e Hc) as (c & e1 & E & E1 & Hd & _).
  destruct (init_val _ _ _ E) as (Hr & Hall & [_ A]).
  destruct (A n0 T) as (_ & _ & Hsl).
  assert (Hlt : c < length (heap e1)).
  { destruct (Hsl The_client c); [cbn; congruence|lia]. }
  exists c, e1. split; [exact E|]. split; [exact Hlt|].
  unfold redis.info.
  rewrite (run_Do _ _ _ _ _ _ _ _ _ E).
  assert (Ec : redis.client_ e1 = (Val (Ref c), e1)) by exact E1.
  rewrite (run_Do _ _ _ _ _ _ _ _ _ Ec).
  rewrite (run_Send _ _ _ _ _ _ _ _ _ _ _ Hs). cbn [note_info].
  set (e2 := with_heap _ e1).
  assert (R : (c0 <- gets _client ;;
               match c0 with
               | Ref c1 =>
                   h <- gets heap ;;
                   match nth_error h c1 with
                   | Some o => ret (server_info o)
                   | None => ret VUndef
                   end
               | _ => throw (VErr (lit "Cannot read property of null") None)
               end)%js e2 = (Val (info_object reply), e2)).
  { unfold bind, gets, e2. cbn [_client with_heap]. rewrite <- Hr.
    cbn [heap with_heap]. rewrite nth_error_update_nth, Nat.eqb_refl.
    destruct (nth_error (heap e1) c) eqn:N; [reflexivity|].
    apply nth_error_None in N. lia. }
  rewrite (run_Do _ _ _ _ _ _ _ _ _ R). rewrite run_ending. reflexivity.
Qed.

Lemma count_runs_any (patterns : list jstr) (f : fn) (st st' : St)
  (e : exports) (error reply : jsval) :
  can_connect (exports_defaults e) = true ->
  distinct_nonempty patterns <> [] ->
  let queue := map (fun pattern =>
                      (EVAL, [VStr (redis.count_script pattern); VNum 0]))
                 (map VStr (distinct_nonempty patterns)) in
  serve st (Exec queue) = (st', (error, reply)) ->
  exists c e1,
    run St serve info_object
      (redis.count (map VStr patterns ++ [VFun f])) st e
    = ([Requested c (Exec queue); Replied error reply;
        match reply with
        | VArr l => Called f [error; normalized l]
        | _ => if truthy reply then Unmodelled else Called f [error; reply]
        end], st', e1).
Proof.
  intros Hc Hne queue Hs.
  destruct (init_twice e Hc) as (c & e1 & E & _).
  exists c, e1. unfold redis.count. cbv zeta.
  rewrite counted_strings.
  unfold last_, initial. rewrite last_last, removelast_last. cbn [isFunction].
  destruct (distinct_nonempty patterns) as [|p ps] eqn:D; [congruence|].
  cbn [map length Nat.ltb Nat.leb].
  change (VStr p :: map VStr ps) with (map VStr (p :: ps)).
  assert (Em : redis.multi e = (Val (Ref c), e1)) by exact E.
  rewrite (run_Do _ _ _ _ _ _ _ _ _ Em).
  fold queue in Hs |- *. unfold queue in Hs. cbn [map] in Hs.
  rewrite (run_Send _ _ _ _ _ _ _ _ _ _ _ Hs). cbn [note_info].
  destruct reply as [| |b|n|s|l|o|g|m s]; try reflexivity.
  destruct b; reflexivity.
  destruct n; reflexivity.
  destruct s; reflexivity.
Qed.

Lemma cannot_connect (d : settings) :
  can_connect d = false ->
  exists s, redis d = RUrl s
            /\ of_string (protocol (url_parse s)) <> VStr (lit "redis:").
Proof.
  unfold can_connect. destruct (redis d) as [s|c]; [|discriminate].
  intros H. exists s. split; [reflexivity|].
  intros E. rewrite E in H. discriminate.
Qed.

Lemma ensure_throws (w : which) (e : exports) :
  can_connect (exports_defaults e) = false ->
  missing w e = true ->
  ensure w e = (Exn invalid_connection, e).
Proof.
  intros Hc Hm. unfold missing in Hm. apply negb_true_iff in Hm.
  destruct (cannot_connect _ Hc) as (s & Hr & Hp).
  assert (E : ensure w e
              = when (negb (slot_truthy (slot_of w e)))
                  (c <- redis.createClient no_opts ;;
                   modify (set_slot w (Ref c)) ;;;
                   now <- redis.Date_now_ ;;
                   on_client c (set_id now))%js e) by reflexivity.
  rewrite E, Hm. cbn [negb when].
  apply bind_exn. apply createClient_invalid with s; [|exact Hp].
  now rewrite merge_no_opts.
Qed.

Lemma init_throws (e : exports) :
  can_connect (exports_defaults e) = false ->
  (exists w, missing w e = true) ->
  redis.init e = (Exn invalid_connection, e).
Proof.
  intros Hc [w Hw]. rewrite init_ensure, pubsub_ensure.
  destruct (missing The_client e) eqn:Mc.
  { apply bind_exn. now apply ensure_throws. }
  rewrite (bind_val _ _ _ _ _
             (ensure_cached The_client e
                (proj1 (negb_false_iff _) Mc))).
  destruct (missing The_publisher e) eqn:Mp.
  { apply bind_exn, bind_exn. now apply ensure_throws. }
  destruct (missing The_subscriber e) eqn:Ms.
  { apply bind_exn.
    rewrite (bind_val _ _ _ _ _
               (ensure_cached The_publisher e
                  (proj1 (negb_false_iff _) Mp))).
    apply bind_exn. now apply ensure_throws. }
  destruct w; congruence.
Qed.

Lemma run_Do_exn {A} (m : M A) (k : A -> prog) (st : St) (e e' : exports)
  (x : jsval) :
  m e = (Exn x, e') ->
  run St serve info_object (Do m k) st e = ([Thrown x], st, e').
Proof. cbn [run]. now intros ->. Qed.

Lemma commands_throw (e : exports) (st : St)
  (key value expiry time strategy done : jsval) (patterns : list jsval) :
  can_connect (exports_defaults e) = false ->
  (exists w, missing w e = true) ->
  isFunction key = false -> isFunction value = false ->
  let thrown := ([Thrown invalid_connection], st, e) in
  run St serve info_object
    (commands.set key value expiry time strategy done) st e = thrown
  /\ run St serve info_object (commands.get key done) st e = thrown
  /\ run St serve info_object (commands.hmset key value done) st e = thrown
  /\ run St serve info_object (commands.hgetall key done) st e = thrown
  /\ run St serve info_object (redis.info done) st e = thrown
  /\ run St serve info_object (redis.clear key done) st e = thrown
  /\ (counted patterns <> [] ->
      run St serve info_object (redis.count patterns) st e = thrown).
Proof.
  intros Hc Hw Hk Hv thrown. pose proof (init_throws e Hc Hw) as E.
  assert (Ec : redis.client_ e = (Exn invalid_connection, e)) by exact E.
  assert (Em : redis.multi e = (Exn invalid_connection, e)) by exact E.
  unfold commands.set, commands.get, commands.hmset, commands.hgetall,
    redis.info, redis.clear. rewrite Hk, Hv. rewrite andb_false_r.
  repeat split; try (apply run_Do_exn; assumption).
  - cbv zeta.
    rewrite (run_Do _ _ _ (gets exports_defaults) _ _ e e (exports_defaults e) eq_refl).
    apply run_Do_exn. exact E.
  - intros Hp. unfold counted in Hp. unfold redis.count. cbv zeta.
    destruct (isFunction (last_ (uniq (compact (concat_args patterns)))));
      (destruct (0 <? length _) eqn:L;
       [apply run_Do_exn; exact Em
       |apply Nat.ltb_ge in L;
        match type of L with
        | length ?l <= 0 => destruct l; [congruence|cbn in L; lia]
        end]).
Qed.

Lemma run_Invoke_state (f : jsval) (args : list jsval) (st : St) (e : exports) :
  snd (run St serve info_object (Invoke f args) st e) = e.
Proof. now rewrite run_ending. Qed.

Lemma send_state (c : nat) (m : method) (args : list jsval)
  (k : jsval -> jsval -> prog) (st : St) (e : exports) :
  m <> INFO ->
  (forall error reply st', snd (run St serve info_object (k error reply) st' e) = e) ->
  snd (run St serve info_object (Send (Ref c) (Single m args) k) st e) = e.
Proof.
  intros Hm Hk. cbn [run]. destruct (serve st (Single m args)) as [st' [error reply]].
  assert (N : note_info info_object c (Single m args) reply e = e)
    by (destruct m; try reflexivity; congruence).
  rewrite N. specialize (Hk error reply st').
  destruct (run St serve info_object (k error reply) st' e) as [[t st''] e'].
  exact Hk.
Qed.

Lemma exec_state (c : nat) (queue : list (method * list jsval))
  (k : jsval -> jsval -> prog) (st : St) (e : exports) :
  (forall error reply st', snd (run St serve info_object (k error reply) st' e) = e) ->
  snd (run St serve info_object (Send (Ref c) (Exec queue) k) st e) = e.
Proof.
  intros Hk. cbn [run]. destruct (serve st (Exec queue)) as [st' [error reply]].
  cbn [note_info]. specialize (Hk error reply st').
  destruct (run St serve info_object (k error reply) st' e) as [[t st''] e'].
  exact Hk.
Qed.

Lemma commands_keep_module (e : exports) (st : St)
  (key value expiry time strategy done pattern : jsval)
  (patterns : list jsval) :
  (forall w, slot_truthy (slot_of w e) = true) ->
  concat_args [key] <> [] ->
  snd (run St serve info_object
         (commands.set key value expiry time strategy done) st e) = e
  /\ snd (run St serve info_object (commands.get key done) st e) = e
  /\ snd (run St serve info_object (commands.hmset key value done) st e) = e
  /\ snd (run St serve info_object (commands.hgetall key done) st e) = e
  /\ snd (run St serve info_object (redis.clear pattern done) st e) = e
  /\ snd (run St serve info_object (redis.count patterns) st e) = e.
Proof.
  intros Hall Ha.
  pose proof (init_cached e Hall) as E.
  assert (Ec : redis.client_ e = (Val (_client e), e)) by exact E.
  assert (Em : redis.multi e = (Val (_client e), e)) by exact E.
  pose proof (key_nonempty [key] e Ha) as K.
  destruct (slot_truthy_ref _ (Hall The_client)) as [c Hcl]. cbn in Hcl.
  rewrite Hcl in *.
  unfold commands.set, commands.get, commands.hmset, commands.hgetall.
  repeat split.
  - destruct (isFunction key); [apply run_Invoke_state|].
    destruct (isFunction value); [apply run_Invoke_state|].
    rewrite (run_Do _ _ _ _ _ _ _ _ _ Ec), (run_Do _ _ _ _ _ _ _ _ _ K).
    apply send_state; [discriminate|]. intros. apply run_Invoke_state.
  - destruct (isFunction key); [apply run_Invoke_state|].
    rewrite (run_Do _ _ _ _ _ _ _ _ _ Ec), (run_Do _ _ _ _ _ _ _ _ _ K).
    apply send_state; [discriminate|]. intros.
    destruct (commands.parse reply); [apply run_Invoke_state|reflexivity..].
  - destruct (isFunction key); [apply run_Invoke_state|].
    destruct (isFunction value); [apply run_Invoke_state|].
    rewrite (run_Do _ _ _ _ _ _ _ _ _ Ec), (run_Do _ _ _ _ _ _ _ _ _ K).
    destruct (flat value); [|reflexivity..].
    apply send_state; [discriminate|]. intros. apply run_Invoke_state.
  - destruct (isFunction key); [apply run_Invoke_state|].
    rewrite (run_Do _ _ _ _ _ _ _ _ _ Ec), (run_Do _ _ _ _ _ _ _ _ _ K).
    apply send_state; [discriminate|]. intros.
    destruct (unflat reply); [apply run_Invoke_state|reflexivity..].
  - unfold redis.clear.
    destruct (if truthy pattern && isFunction pattern
              then (VUndef, pattern) else (pattern, done)) as [p d].
    cbv zeta.
    rewrite (run_Do _ _ _ (gets exports_defaults) _ _ e e (exports_defaults e) eq_refl).
    rewrite (run_Do _ _ _ _ _ _ _ _ _ E), (run_Do _ _ _ _ _ _ _ _ _ Ec).
    apply send_state; [discriminate|]. intros.
    destruct (truthy error); [apply run_Invoke_state|].
    rewrite (run_Do _ _ _ _ _ _ _ _ _ Em).
    destruct reply; try reflexivity;
      apply exec_state; intros; apply run_Invoke_state.
  - unfold redis.count. cbv zeta.
    match goal with
    | |- context [if 0 <? ?n then _ else _] => destruct (0 <? n)
    end; [|apply run_Invoke_state].
    rewrite (run_Do _ _ _ _ _ _ _ _ _ Em).
    apply exec_state. intros.
    destruct reply; try apply run_Invoke_state;
      cbn [truthy]; try reflexivity.
    + destruct b; [reflexivity|apply run_Invoke_state].
    + destruct n; try reflexivity; apply run_Invoke_state.
    + destruct s; [apply run_Invoke_state|reflexivity].
Qed.

End OperationRunFacts.

Section KeyFacts.
Context {hp : Host}.

Lemma index_runs (o : opts) (e : exports) :
  can_connect (merge (exports_defaults e) o) = true ->
  exists e',
    redis.index o e = (Val tt, e')
    /\ exports_defaults e' = merge (exports_defaults e) o
    /\ (forall w, slot_truthy (slot_of w e') = true)
    /\ (forall w c, slot_of w e = Ref c -> slot_of w e' = Ref c).
Proof.
  intros Hc. unfold redis.index.
  set (e0 := with_defaults (merge (exports_defaults e) o) e).
  assert (E0 : modify (fun e => with_defaults (merge (exports_defaults e) o) e) e
               = (Val tt, e0)) by reflexivity.
  rewrite (bind_val _ _ _ _ _ E0).
  destruct (init_ok e0 Hc) as (c & e1 & E & Hd & _).
  rewrite (bind_val _ _ _ _ _ E). exists e1. split; [reflexivity|].
  destruct (init_val _ _ _ E) as (_ & Hall & [K _]).
  split; [exact Hd|]. split; [exact Hall|].
  intros w c' H. apply K. destruct w; exact H.
Qed.

Lemma concat_args_array (l : list jsval) : concat_args [VArr l] = l.
Proof. cbn. apply app_nil_r. Qed.

Lemma concat_args_plain (l : list jsval) :
  forallb (fun x => negb (is_array x)) l = true -> concat_args l = l.
Proof.
  induction l as [|x l IH]; [reflexivity|]. cbn [forallb]. intros H.
  apply andb_true_iff in H as [Hx Hl]. unfold concat_args in *.
  cbn [flat_map]. rewrite (IH Hl). destruct x; try reflexivity. discriminate.
Qed.

Lemma key_depends_on_segments (args args' : list jsval) (e : exports) :
  concat_args args = concat_args args' -> redis.key args e = redis.key args' e.
Proof. unfold redis.key. now intros ->. Qed.

Lemma stringify_cases (v : jsval) :
  match v with
  | VUndef | VFun _ => commands.stringify v = VUndef
  | VStr s => commands.stringify v = VStr s
  | _ => exists t, commands.stringify v = VStr t /\ t <> []
                   /\ JSON_stringify v = Some t
  end.
Proof.
  destruct v as [| |b|n|s|l|o|f|m st]; try reflexivity;
    unfold commands.stringify; cbn [isString negb].
  - eexists. split; [reflexivity|]. split; [discriminate|reflexivity].
  - destruct b; eexists; (split; [reflexivity|]);
      (split; [discriminate|reflexivity]).
  - destruct (JSON_stringify (VNum n)) as [t|] eqn:E; [|discriminate].
    exists t. split; [reflexivity|]. split; [|reflexivity].
    cbn in E. injection E as <-.
    destruct (decimal_head n) as (c & r & -> & _). discriminate.
  - eexists. split; [reflexivity|]. split; [discriminate|reflexivity].
  - eexists. split; [reflexivity|]. split; [discriminate|reflexivity].
  - destruct st; eexists; (split; [reflexivity|]);
      (split; [discriminate|reflexivity]).
Qed.

End KeyFacts.


(** X1 — [createClient] with a connection string of another protocol
    throws [Invalid Connection String. Require redis: protocol]; no client
    is created and the module state is as before. *)
Theorem createClient_rejects_other_protocols {hp : Host}
  (o : opts) (e : exports) (s : jstr) :
  redis (merge (exports_defaults e) o) = RUrl s ->
  of_string (protocol (url_parse s)) <> VStr (lit "redis:") ->
  redis.createClient o e = (Exn invalid_connection, e).
Proof. apply createClient_invalid. Qed.

Lemma createClient_rejects_other_protocols_witness :
  redis.createClient (hp := sample_host) (with_url "http://localhost") loaded
  = (Exn invalid_connection, loaded).
Proof.
  apply (createClient_rejects_other_protocols (hp := sample_host)
           (with_url "http://localhost") loaded (lit "http://localhost")).
  - reflexivity.
  - vm_compute. discriminate.
Defined.

(** X2 — every client [createClient] returns is a new one and is
    remembered: two calls return different clients, [_clients] grows by
    these two in order, and neither the cached references nor the
    settings change. *)
Theorem createClient_remembers_every_client {hp : Host}
  (o o' : opts) (e e1 e2 : exports) (c c' : nat) :
  redis.createClient o e = (Val c, e1) ->
  redis.createClient o' e1 = (Val c', e2) ->
  c = length (heap e) /\ c' = S c
  /\ _clients e2 = _clients e ++ [c; c']
  /\ length (heap e2) = length (heap e) + 2
  /\ (forall w, slot_of w e2 = slot_of w e)
  /\ exports_defaults e2 = exports_defaults e.
Proof.
  intros H1 H2.
  apply createClient_val in H1
    as (-> & (D1 & C1 & P1 & S1 & U1 & L1 & n1 & G1 & _) & _).
  apply createClient_val in H2
    as (-> & (D2 & C2 & P2 & S2 & U2 & L2 & n2 & G2 & _) & _).
  assert (Len : length (heap e1) = S (length (heap e)))
    by (rewrite G1, length_app; cbn; lia).
  repeat split.
  - exact Len.
  - rewrite L2, L1, Len, <- app_assoc. reflexivity.
  - rewrite G2, length_app, Len. cbn. lia.
  - intros []; cbn; congruence.
  - congruence.
Qed.

Lemma createClient_remembers_every_client_witness :
  let e1 := snd (redis.createClient (hp := sample_host) no_opts loaded) in
  let e2 := snd (redis.createClient (hp := sample_host) no_opts e1) in
  redis.createClient (hp := sample_host) no_opts loaded = (Val 0, e1)
  /\ redis.createClient (hp := sample_host) no_opts e1 = (Val 1, e2)
  /\ _clients e2 = [0; 1].
Proof.
  intros e1 e2.
  assert (H1 : redis.createClient (hp := sample_host) no_opts loaded
               = (Val 0, e1)) by (vm_compute; reflexivity).
  assert (H2 : redis.createClient (hp := sample_host) no_opts e1
               = (Val 1, e2)) by (vm_compute; reflexivity).
  split; [exact H1|]. split; [exact H2|].
  pose proof (createClient_remembers_every_client (hp := sample_host)
                no_opts no_opts loaded e1 e2 0 1 H1 H2)
    as (_ & _ & L & _).
  exact L.
Defined.

(** X3 — what [createClient] connects with: the socket when there is
    one (and then no host), otherwise the port, [6379] by default, and the
    host, ['127.0.0.1'] by default; [auth] and [select] are called only
    for a truthy [auth] and [db], so database [0] is never selected. *)
Theorem createClient_connects_as_configured {hp : Host}
  (o : opts) (e : exports) :
  can_connect (merge (exports_defaults e) o) = true ->
  let conf := connection_settings (redis (merge (exports_defaults e) o)) in
  exists e',
    redis.createClient o e = (Val (length (heap e)), e')
    /\ heap e'
       = heap e
         ++ [new_client
               (if truthy (socket conf) then socket conf
                else or_ (port conf) (VNum 6379))
               (if truthy (socket conf) then VNull
                else or_ (host conf) (VStr (lit "127.0.0.1")))
               (options conf)
               (if truthy (auth conf) then auth conf else VUndef)
               (if truthy (db conf) then db conf else VUndef)].
Proof. apply createClient_connects. Qed.

Lemma createClient_connects_as_configured_witness :
  let o := {| o_prefix := None; o_separator := None;
              o_redis := OConf {| port := VUndef; host := VUndef;
                                  socket := VUndef; db := VNum 0;
                                  auth := VStr (lit "secret");
                                  options := VUndef |} |} in
  can_connect (hp := sample_host) (merge (exports_defaults loaded) o) = true
  /\ exists e',
       redis.createClient (hp := sample_host) o loaded = (Val 0, e')
       /\ heap e' = [new_client (VNum 6379) (VStr (lit "127.0.0.1")) VUndef
                       (VStr (lit "secret")) VUndef].
Proof.
  intros o.
  assert (Hc : can_connect (hp := sample_host)
                 (merge (exports_defaults loaded) o) = true) by reflexivity.
  split; [exact Hc|].
  exact (createClient_connects_as_configured (hp := sample_host) o loaded Hc).
Defined.

Lemma or_default_truthy (x d : jsval) : truthy d = true -> truthy (or_ x d) = true.
Proof. intros H. unfold or_. destruct (truthy x) eqn:T; assumption. Qed.

Lemma truthy_string (s : jstr) : s <> [] -> truthy (VStr s) = true.
Proof. destruct s; [congruence|reflexivity]. Qed.

Lemma of_connection_auth {hp : Host} (u : url) (user pass : jstr) :
  u_auth u = Some (user ++ ":"%char :: pass) ->
  ~ In ":"%char user -> existsb line_break user = false ->
  auth (redis.of_connection u) = VStr pass.
Proof.
  intros Ha Hu Hl. unfold redis.of_connection. cbn [auth]. rewrite Ha.
  rewrite truthy_string by (destruct user; discriminate).
  now rewrite (strip_user_password [] user pass Hu Hl).
Qed.

Lemma of_connection_db {hp : Host} (u : url) (c0 : ascii) (d : jstr) :
  pathname u = Some (c0 :: d) -> d <> [] ->
  db (redis.of_connection u) = VStr d.
Proof.
  intros Hp Hd. unfold redis.of_connection. cbn [db]. rewrite Hp.
  rewrite truthy_string by discriminate. cbn [tl].
  unfold or_. now rewrite !truthy_string by exact Hd.
Qed.

(** X4 — a connection string.  With the [redis:] protocol,
    [createClient] connects to the port of the string, [6379] when it has
    none, and to its host name, passes the parsed query as the client
    options, authenticates with what follows the first colon of the
    [auth] part (the user name is dropped), and selects the database named
    by the path after its first character. *)
Theorem connection_string_credentials {hp : Host}
  (o : opts) (e : exports) (s user pass : jstr) :
  redis (merge (exports_defaults e) o) = RUrl s ->
  protocol (url_parse s) = Some (lit "redis:") ->
  u_auth (url_parse s) = Some (user ++ ":"%char :: pass) ->
  ~ In ":"%char user -> existsb line_break user = false ->
  pass <> [] ->
  exists e' cl,
    redis.createClient o e = (Val (length (heap e)), e')
    /\ nth_error (heap e') (length (heap e)) = Some cl
    /\ auth_sent cl = VStr pass
    /\ connect_to cl = or_ (of_string (u_port (url_parse s))) (VNum 6379)
    /\ connect_host cl
       = or_ (of_string (hostname (url_parse s))) (VStr (lit "127.0.0.1"))
    /\ connect_options cl = VObj (query (url_parse s))
    /\ (forall c0 d, pathname (url_parse s) = Some (c0 :: d) -> d <> [] ->
                     selected cl = VStr d).
Proof.
  intros Hr Hp Ha Hu Hl Hne.
  assert (Hc : can_connect (merge (exports_defaults e) o) = true).
  { unfold can_connect. rewrite Hr, Hp. reflexivity. }
  destruct (createClient_connects o e Hc) as (e' & E & H).
  rewrite Hr in H. cbn [connection_settings] in H.
  eexists e', _. split; [exact E|]. split.
  { rewrite H, nth_error_app2, Nat.sub_diag by lia. reflexivity. }
  cbn [new_client auth_sent connect_to connect_host connect_options selected].
  rewrite (of_connection_auth _ user pass Ha Hu Hl).
  rewrite (truthy_string pass Hne).
  split; [reflexivity|].
  cbn [redis.of_connection socket port host options truthy].
  split.
  { unfold or_ at 1. now rewrite or_default_truthy. }
  split; [reflexivity|]. split; [reflexivity|].
  intros c0 d Hpath Hd. rewrite (of_connection_db _ c0 d Hpath Hd).
  now rewrite (truthy_string d Hd).
Qed.

Lemma connection_string_credentials_witness :
  exists e' cl,
    redis.createClient (hp := auth_host) (with_url "redis://x") loaded
    = (Val 0, e')
    /\ nth_error (heap e') 0 = Some cl
    /\ auth_sent cl = VStr (lit "secret")
    /\ connect_to cl = VStr (lit "6380")
    /\ selected cl = VStr (lit "3").
Proof.
  assert (Hu : ~ In ":"%char (lit "user")) by (cbn; intuition discriminate).
  assert (Hp : lit "secret" <> []) by (intros E; discriminate E).
  destruct (connection_string_credentials (hp := auth_host)
              (with_url "redis://x") loaded (lit "redis://x")
              (lit "user") (lit "secret") eq_refl eq_refl eq_refl Hu eq_refl Hp)
    as (e' & cl & E & N & A & T & _ & _ & D).
  exists e', cl. split; [exact E|]. split; [exact N|]. split; [exact A|].
  split; [exact T|].
  apply (D "/"%char (lit "3")); [reflexivity|intros X; discriminate X].
Defined.

(** X5 — [init()]/[client()] creates a client exactly for each of the
    three cached references that holds none, in the order client,
    publisher, subscriber, remembers them in [_clients] and returns the
    cached client; references that hold a client are left as they are. *)
Theorem init_creates_missing_clients {hp : Host} (e : exports) :
  can_connect (exports_defaults e) = true ->
  let n := length (heap e) in
  let mc := missing The_client e in
  let mp := missing The_publisher e in
  let ms := missing The_subscriber e in
  let np := n + Nat.b2n mc in
  let ns := np + Nat.b2n mp in
  exists e',
    redis.init e = (Val (_client e'), e')
    /\ redis.client_ e = (Val (_client e'), e')
    /\ _client e' = (if mc then Ref n else _client e)
    /\ publisher e' = (if mp then Ref np else publisher e)
    /\ subscriber e' = (if ms then Ref ns else subscriber e)
    /\ _clients e' = _clients e ++ newly mc n ++ newly mp np ++ newly ms ns
    /\ length (heap e') = ns + Nat.b2n ms
    /\ exports_defaults e' = exports_defaults e.
Proof.
  intros Hc n mc mp ms np ns.
  destruct (init_creates_missing e Hc) as (e' & E & H).
  exists e'. split; [exact E|]. split; [exact E|].
  decompose [and] H. repeat split; assumption.
Qed.

Lemma init_creates_missing_clients_witness :
  can_connect (hp := sample_host) (exports_defaults loaded) = true
  /\ exists e',
       redis.init (hp := sample_host) loaded = (Val (Ref 0), e')
       /\ publisher e' = Ref 1 /\ subscriber e' = Ref 2
       /\ _clients e' = [0; 1; 2] /\ length (heap e') = 3.
Proof.
  assert (Hc : can_connect (hp := sample_host) (exports_defaults loaded) = true)
    by reflexivity.
  split; [exact Hc|].
  destruct (init_creates_missing_clients (hp := sample_host) loaded Hc)
    as (e' & E & _ & C & P & S & L & H & _).
  cbn in C, P, S, L, H. exists e'. rewrite C in E. auto.
Defined.

(** X6 — [pubsub()] creates the publisher and the subscriber that are
    missing, the publisher first, returns the pair of cached references
    and never touches the cached client. *)
Theorem pubsub_creates_missing_clients {hp : Host} (e : exports) :
  can_connect (exports_defaults e) = true ->
  let n := length (heap e) in
  let mp := missing The_publisher e in
  let ms := missing The_subscriber e in
  exists e',
    redis.pubsub e = (Val (publisher e', subscriber e'), e')
    /\ publisher e' = (if mp then Ref n else publisher e)
    /\ subscriber e' = (if ms then Ref (n + Nat.b2n mp) else subscriber e)
    /\ _client e' = _client e
    /\ _clients e' = _clients e ++ newly mp n ++ newly ms (n + Nat.b2n mp)
    /\ length (heap e') = n + Nat.b2n mp + Nat.b2n ms
    /\ exports_defaults e' = exports_defaults e.
Proof.
  intros Hc n mp ms.
  destruct (pubsub_creates_missing e Hc) as (e' & E & H).
  exists e'. split; [exact E|].
  decompose [and] H. repeat split; assumption.
Qed.

Lemma pubsub_creates_missing_clients_witness :
  can_connect (hp := sample_host) (exports_defaults loaded) = true
  /\ exists e',
       redis.pubsub (hp := sample_host) loaded = (Val (Ref 0, Ref 1), e')
       /\ _client e' = Unset /\ _clients e' = [0; 1].
Proof.
  assert (Hc : can_connect (hp := sample_host) (exports_defaults loaded) = true)
    by reflexivity.
  split; [exact Hc|].
  destruct (pubsub_creates_missing_clients (hp := sample_host) loaded Hc)
    as (e' & E & P & S & C & L & _).
  cbn in P, S, C, L. exists e'. rewrite P, S in E. auto.
Defined.

(** X7 — [reset()]/[quit()] never throws, whatever the state of the
    module, and a second [reset()] right after the first changes nothing:
    no client receives a second [quit()]. *)
Theorem reset_is_idempotent (e : exports) :
  exists e1,
    redis.reset e = (Val tt, e1)
    /\ redis.quit e = (Val tt, e1)
    /\ redis.reset e1 = (Val tt, e1)
    /\ blank e1
    /\ length (heap e1) = length (heap e).
Proof.
  destruct (reset_total e) as (h & E & L & _).
  exists (after_reset h e). split; [exact E|]. split; [exact E|].
  split; [apply reset_after_reset|]. split; [|exact L].
  split; [reflexivity|intros []; reflexivity].
Qed.

(** X8 — [reset()] silences the subscriber: the client cached as
    subscriber receives one [unsubscribe()] and one
    [removeAllListeners()], and no other client receives either. *)
Theorem reset_silences_subscriber (e : exports) (c : nat) (o : client) :
  nth_error (heap e) c = Some o ->
  exists e1 o1,
    redis.reset e = (Val tt, e1)
    /\ nth_error (heap e1) c = Some o1
    /\ unsubscribe_calls o1
       = unsubscribe_calls o + Nat.b2n (holds (subscriber e) c)
    /\ removeAllListeners_calls o1
       = removeAllListeners_calls o + Nat.b2n (holds (subscriber e) c).
Proof.
  intros Ho. destruct (reset_total e) as (h & E & L & K).
  assert (Hlt : c < length h).
  { rewrite L. apply nth_error_Some. congruence. }
  destruct (nth_error h c) as [o1|] eqn:N;
    [|apply nth_error_None in N; lia].
  exists (after_reset h e), o1. split; [exact E|]. split; [exact N|].
  pose proof (K _ unsubscribe_calls (fun _ => eq_refl) c) as Ku.
  pose proof (K _ removeAllListeners_calls (fun _ => eq_refl) c) as Kr.
  rewrite N in Ku, Kr. unfold silenced in Ku, Kr. unfold holds.
  destruct (subscriber e) as [| |s]; cbn [Nat.b2n];
    rewrite ?nth_error_update_nth, ?Ho in Ku, Kr;
    try (cbn in Ku, Kr; injection Ku as ->; injection Kr as ->; lia).
  destruct (Nat.eqb s c); cbn [Nat.b2n]; cbn in Ku, Kr;
    injection Ku as ->; injection Kr as ->; lia.
Qed.

Lemma reset_silences_subscriber_witness :
  let e := snd (redis.init (hp := sample_host) loaded) in
  exists o2 e1 o2',
    subscriber e = Ref 2
    /\ nth_error (heap e) 2 = Some o2
    /\ redis.reset e = (Val tt, e1)
    /\ nth_error (heap e1) 2 = Some o2'
    /\ unsubscribe_calls o2' = unsubscribe_calls o2 + 1.
Proof.
  intros e.
  destruct (nth_error (heap e) 2) as [o2|] eqn:N;
    [|vm_compute in N; discriminate N].
  destruct (reset_silences_subscriber e 2 o2 N) as (e1 & o2' & E & N' & U & _).
  exists o2, e1, o2'. split; [vm_compute; reflexivity|].
  split; [reflexivity|]. split; [exact E|]. split; [exact N'|exact U].
Defined.

(** X9 — clients are not reused across a reset: after [reset()],
    [init()] creates three new clients, different from every client a
    cached reference held before the reset. *)
Theorem clients_are_not_reused_after_reset {hp : Host}
  (n0 : nat) (e e1 : exports) :
  tracked n0 e ->
  redis.reset e = (Val tt, e1) ->
  let n := length (heap e) in
  exists e2,
    redis.init e1 = (Val (Ref n), e2)
    /\ publisher e2 = Ref (S n) /\ subscriber e2 = Ref (S (S n))
    /\ _clients e2 = [n; S n; S (S n)]
    /\ (forall w c, slot_of w e = Ref c -> c < n).
Proof.
  intros T E n.
  destruct (reset_spec n0 e T)
    as (e' & E' & _ & _ & Len & C & P & Sb & Cl & D).
  rewrite E in E'. injection E' as <-.
  destruct (init_creates_missing e1) as (e2 & I & C2 & P2 & S2 & L2 & _).
  { rewrite D. apply can_connect_defaults. }
  unfold missing in *. cbn [slot_of] in *. rewrite C, P, Sb, Cl, Len in *.
  cbn in C2, P2, S2, L2. fold n in C2, P2, S2, L2.
  exists e2. rewrite C2 in I. split; [exact I|].
  replace (n + 1) with (S n) in * by lia.
  replace (S n + 1) with (S (S n)) in * by lia.
  repeat split; try assumption.
  intros w c H. destruct T as (_ & _ & Hsl). apply (Hsl w c H).
Qed.

Lemma clients_are_not_reused_after_reset_witness :
  let e := snd (redis.init (hp := sample_host) loaded) in
  let e1 := snd (redis.reset e) in
  tracked 0 e
  /\ redis.reset e = (Val tt, e1)
  /\ _client e = Ref 0
  /\ exists e2, redis.init (hp := sample_host) e1 = (Val (Ref 3), e2)
                /\ _clients e2 = [3; 4; 5].
Proof.
  intros e e1.
  assert (T : tracked 0 e).
  { pose proof (advancing_init (hp := sample_host) loaded) as [_ A].
    exact (A 0 (blank_tracked loaded blank_loaded)). }
  assert (E : redis.reset e = (Val tt, e1)) by (vm_compute; reflexivity).
  split; [exact T|]. split; [exact E|]. split; [vm_compute; reflexivity|].
  destruct (clients_are_not_reused_after_reset (hp := sample_host) 0 e e1 T E)
    as (e2 & I & _ & _ & L & _).
  exists e2. split; [exact I|exact L].
Defined.

(** X10 — [key()] without arguments draws a new identifier from
    [uuid.v1()] at every call: two calls in a row return two different
    keys whenever the two identifiers differ, and the settings are not
    touched. *)
Theorem key_without_arguments_is_fresh {hp : Host}
  (args : list jsval) (e : exports) :
  concat_args args = [] ->
  uuid_v1 (uuids e) <> uuid_v1 (S (uuids e)) ->
  exists k1 e1 k2 e2,
    redis.key args e = (Val k1, e1)
    /\ redis.key args e1 = (Val k2, e2)
    /\ k1 <> k2
    /\ uuids e2 = S (S (uuids e))
    /\ exports_defaults e2 = exports_defaults e.
Proof.
  intros Ha Hu. rewrite (key_empty args e Ha).
  eexists _, _. rewrite (key_empty args _ Ha).
  eexists _, _. split; [reflexivity|]. split; [reflexivity|].
  cbn [exports_defaults uuids with_uuids]. split; [|auto].
  rewrite !join_prefix. intros E.
  apply app_inv_head in E. apply app_inv_head in E.
  apply Hu. exact E.
Qed.

Lemma key_without_arguments_is_fresh_witness :
  exists e1 e2,
    redis.key (hp := sample_host) [] loaded
    = (Val (lit "r:6c84fb90-12c4-11e1-840d-7b25c5ee7700"), e1)
    /\ redis.key (hp := sample_host) [] e1
       = (Val (lit "r:6c84fb90-12c4-11e1-840d-7b25c5ee7701"), e2).
Proof.
  assert (Hu : uuid_v1 (Host := sample_host) (uuids loaded)
               <> uuid_v1 (Host := sample_host) (S (uuids loaded)))
    by (vm_compute; discriminate).
  destruct (key_without_arguments_is_fresh (hp := sample_host) [] loaded
              eq_refl Hu) as (k1 & e1 & k2 & e2 & K1 & K2 & _).
  exists e1, e2. split.
  - rewrite K1. vm_compute in K1. injection K1 as <- _. reflexivity.
  - rewrite K2. assert (E1 : e1 = snd (redis.key (hp := sample_host) [] loaded))
      by (rewrite K1; reflexivity).
    rewrite E1 in K2. vm_compute in K2. injection K2 as <- _. reflexivity.
Defined.

(** X11 — the segments of a key may be given one by one or as an array:
    [key('a', 'b')], [key(['a', 'b'])] and [key('a', ['b'])] are the same
    key.  A segment that is [undefined] or [null] is an empty segment:
    [key(undefined)] is the prefix followed by the separator, and no
    identifier is generated for it. *)
Theorem key_flattens_its_arguments {hp : Host}
  (a : jsval) (l : list jsval) (e : exports) :
  is_array a = false ->
  forallb (fun x => negb (is_array x)) l = true ->
  redis.key [VArr (a :: l)] e = redis.key (a :: l) e
  /\ redis.key [a; VArr l] e = redis.key (a :: l) e
  /\ redis.key [VUndef] e
     = (Val (prefix (exports_defaults e) ++ separator (exports_defaults e)), e)
  /\ redis.key [VNull] e = redis.key [VUndef] e.
Proof.
  intros Ha Hl. split; [|split; [|split]].
  - apply key_depends_on_segments. rewrite concat_args_array.
    symmetry. apply concat_args_plain. cbn [forallb]. now rewrite Ha, Hl.
  - apply key_depends_on_segments.
    assert (E : concat_args (a :: l) = a :: l).
    { apply concat_args_plain. cbn [forallb]. now rewrite Ha, Hl. }
    rewrite E. destruct a; try discriminate; cbn; now rewrite app_nil_r.
  - rewrite key_nonempty by discriminate. cbn. now rewrite app_nil_r.
  - reflexivity.
Qed.

Lemma key_flattens_its_arguments_witness :
  redis.key (hp := sample_host) [VArr [VStr (lit "users"); VStr (lit "ab")]]
    loaded
  = redis.key (hp := sample_host) [VStr (lit "users"); VStr (lit "ab")] loaded
  /\ redis.key (hp := sample_host) [VUndef] loaded = (Val (lit "r:"), loaded).
Proof.
  destruct (key_flattens_its_arguments (hp := sample_host)
              (VStr (lit "users")) [VStr (lit "ab")] loaded eq_refl eq_refl)
    as (A & _ & U & _).
  split; [exact A|exact U].
Defined.

(** X12 — the package entry point.  Called with options, it merges them
    into the settings (an absent option keeps its value), initialises the
    three clients, keeping those already cached, and from then on [key]
    builds keys with the new prefix and separator. *)
Theorem entry_point_applies_options {hp : Host} (o : opts) (e : exports) :
  can_connect (merge (exports_defaults e) o) = true ->
  let d := merge (exports_defaults e) o in
  exists e',
    redis.index o e = (Val tt, e')
    /\ exports_defaults e' = d
    /\ prefix d = match o_prefix o with
                  | Some p => p
                  | None => prefix (exports_defaults e)
                  end
    /\ separator d = match o_separator o with
                     | Some p => p
                     | None => separator (exports_defaults e)
                     end
    /\ (forall w, slot_truthy (slot_of w e') = true)
    /\ (forall w c, slot_of w e = Ref c -> slot_of w e' = Ref c)
    /\ (forall args, concat_args args <> [] ->
          redis.key args e'
          = (Val (join (separator d) ([VStr (prefix d)] ++ concat_args args)),
             e')).
Proof.
  intros Hc d. destruct (index_runs o e Hc) as (e' & E & D & Hall & K).
  exists e'. split; [exact E|]. split; [exact D|].
  split; [reflexivity|]. split; [reflexivity|].
  split; [exact Hall|]. split; [exact K|].
  intros args Ha. rewrite (key_nonempty args e' Ha), D. reflexivity.
Qed.

Lemma entry_point_applies_options_witness :
  let o := {| o_prefix := Some (lit "q"); o_separator := Some (lit "-");
              o_redis := ONone |} in
  can_connect (hp := sample_host) (merge (exports_defaults loaded) o) = true
  /\ exists e',
       redis.index (hp := sample_host) o loaded = (Val tt, e')
       /\ redis.key (hp := sample_host) [VStr (lit "ab")] e'
          = (Val (lit "q-ab"), e').
Proof.
  intros o.
  assert (Hc : can_connect (hp := sample_host)
                 (merge (exports_defaults loaded) o) = true) by reflexivity.
  split; [exact Hc|].
  destruct (entry_point_applies_options (hp := sample_host) o loaded Hc)
    as (e' & E & _ & _ & _ & _ & _ & K).
  exists e'. split; [exact E|].
  apply (K [VStr (lit "ab")]). discriminate.
Defined.

Section ClientAndKey.
Context {hp : Host}.

Lemma client_and_key (key : jsval) (e : exports) :
  can_connect (exports_defaults e) = true ->
  prefix (exports_defaults e) ++ separator (exports_defaults e) <> [] ->
  exists c e1 k e2,
    redis.client_ e = (Val (Ref c), e1)
    /\ redis.key [key] e1 = (Val k, e2)
    /\ k <> []
    /\ begins_with (prefix (exports_defaults e)
                    ++ separator (exports_defaults e)) k.
Proof.
  intros Hc Hp. destruct (init_ok e Hc) as (c & e1 & E & Hd & _).
  destruct (key_total [key] e1) as (x & l & e2 & K & _).
  exists c, e1. eexists _, e2. split; [exact E|]. split; [exact K|].
  rewrite Hd, join_prefix, app_assoc.
  split; [|eexists; reflexivity].
  destruct (prefix (exports_defaults e) ++ separator (exports_defaults e));
    [congruence|discriminate].
Qed.

End ClientAndKey.

(** X13 — [set].  After the client and the key, [set] sends one [SET]
    with the key and the stringified value, followed by those of expiry,
    time and strategy that are truthy and of the expected type (a string,
    a number, a string): a time of [0] is left out.  The callback is the
    last function among the arguments after the value, [noop] without
    one, and receives the reply's error and the value as it was passed,
    not the store's reply. *)
Theorem set_request_and_callback {hp : Host} (St : Type)
  (serve : St -> request -> St * (jsval * jsval))
  (info_object : jsval -> jsval) (st : St) (e : exports)
  (key value expiry time strategy done : jsval) :
  can_connect (exports_defaults e) = true ->
  prefix (exports_defaults e) ++ separator (exports_defaults e) <> [] ->
  isFunction key = false -> isFunction value = false ->
  exists c e1 k e2,
    redis.client_ e = (Val (Ref c), e1)
    /\ redis.key [key] e1 = (Val k, e2)
    /\ let args := [VStr k] ++ sent_if true (commands.stringify value)
                   ++ sent_if (isString expiry) expiry
                   ++ sent_if (isNumber time) time
                   ++ sent_if (isString strategy) strategy in
       let '(st', (error, reply)) := serve st (Single SET args) in
       run St serve info_object
         (commands.set key value expiry time strategy done) st e
       = ([Requested c (Single SET args); Replied error reply;
           ending (callback_of [expiry; time; strategy; done]) [error; value]],
          st', e2).
Proof.
  intros Hc Hp Hk Hv.
  destruct (client_and_key key e Hc Hp) as (c & e1 & k & e2 & E & K & Hkne & _).
  exists c, e1, k, e2. split; [exact E|]. split; [exact K|].
  cbv zeta.
  destruct (serve st _) as [st' [error reply]] eqn:Hs.
  now apply (set_runs_any St serve info_object key value expiry time strategy
               done st st' e e1 e2 c k error reply).
Qed.

Lemma set_request_and_callback_witness :
  let key := VStr (lit "ab") in
  let value := VNum 5 in
  let expiry := VStr (lit "EX") in
  let time := VNum 0 in
  let strategy := VFun (User 1) in
  can_connect (hp := sample_host) (exports_defaults loaded) = true
  /\ callback_of [expiry; time; strategy; VUndef] = VFun (User 1)
  /\ sent_if (isNumber time) time = []
  /\ exists c e1 k e2,
       redis.client_ (hp := sample_host) loaded = (Val (Ref c), e1)
       /\ redis.key (hp := sample_host) [key] e1 = (Val k, e2)
       /\ let args := [VStr k] ++ sent_if true (commands.stringify value)
                      ++ sent_if (isString expiry) expiry
                      ++ sent_if (isNumber time) time
                      ++ sent_if (isString strategy) strategy in
          let '(st', (error, reply)) :=
            serve (srv := sample_server) [] (Single SET args) in
          run store serve (fun reply => reply)
            (commands.set key value expiry time strategy VUndef) [] loaded
          = ([Requested c (Single SET args); Replied error reply;
              ending (callback_of [expiry; time; strategy; VUndef])
                [error; value]], st', e2).
Proof.
  intros key value expiry time strategy.
  assert (Hc : can_connect (hp := sample_host) (exports_defaults loaded) = true)
    by reflexivity.
  assert (Hp : prefix (exports_defaults loaded)
               ++ separator (exports_defaults loaded) <> [])
    by (intros E; discriminate E).
  split; [exact Hc|]. split; [reflexivity|]. split; [reflexivity|].
  exact (set_request_and_callback (hp := sample_host) store
           (serve (srv := sample_server)) (fun reply => reply) [] loaded
           key value expiry time strategy VUndef Hc Hp eq_refl eq_refl).
Defined.

(** X14 — [get].  After the client and the key, [get] sends one [GET]
    with the key and hands its callback ([noop] without one) the reply's
    error and the reply decoded by [parse]: the value of a JSON text, the
    reply itself when it is not JSON — [get] does not fail on data it
    cannot decode — and [null] for a [null] reply. *)
Theorem get_hands_over_decoded_reply {hp : Host} (St : Type)
  (serve : St -> request -> St * (jsval * jsval))
  (info_object : jsval -> jsval) (st : St) (e : exports)
  (key done : jsval) :
  can_connect (exports_defaults e) = true ->
  prefix (exports_defaults e) ++ separator (exports_defaults e) <> [] ->
  isFunction key = false ->
  exists c e1 k e2,
    redis.client_ e = (Val (Ref c), e1)
    /\ redis.key [key] e1 = (Val k, e2)
    /\ let '(st', (error, reply)) := serve st (Single GET [VStr k]) in
       let cb := if isFunction done then done else VFun Noop in
       (forall v, commands.parse reply = Val v ->
          run St serve info_object (commands.get key done) st e
          = ([Requested c (Single GET [VStr k]); Replied error reply;
              ending cb [error; v]], st', e2))
       /\ (reply = VNull -> commands.parse reply = Val VNull)
       /\ (forall t v, reply = VStr t -> JSON_parse t = Parsed v ->
                       commands.parse reply = Val v)
       /\ (forall t, reply = VStr t -> JSON_parse t = SyntaxError ->
                     commands.parse reply = Val (VStr t)).
Proof.
  intros Hc Hp Hk.
  destruct (client_and_key key e Hc Hp) as (c & e1 & k & e2 & E & K & Hkne & _).
  exists c, e1, k, e2. split; [exact E|]. split; [exact K|].
  destruct (serve st _) as [st' [error reply]] eqn:Hs.
  cbv zeta. split; [|split; [|split]].
  - intros v Hv.
    rewrite (get_runs_any St serve info_object key done st st' e e1 e2 c k
               error reply E K Hkne Hk Hs), Hv.
    reflexivity.
  - intros ->. reflexivity.
  - intros t v -> Ht. unfold commands.parse. cbn [clone to_string].
    now rewrite Ht.
  - intros t -> Ht. unfold commands.parse. cbn [clone to_string].
    now rewrite Ht.
Qed.

Lemma get_hands_over_decoded_reply_witness :
  let key := VStr (lit "ab") in
  let st := [(lit "r:ab", EString (lit "[1,true]"))] in
  can_connect (hp := sample_host) (exports_defaults loaded) = true
  /\ exists c e1 k e2,
       redis.client_ (hp := sample_host) loaded = (Val (Ref c), e1)
       /\ redis.key (hp := sample_host) [key] e1 = (Val k, e2)
       /\ let '(st', (error, reply)) :=
            serve (srv := sample_server) st (Single GET [VStr k]) in
          forall v, commands.parse (hp := sample_host) reply = Val v ->
            run store serve (fun reply => reply)
              (commands.get (hp := sample_host) key (VFun (User 1))) st loaded
            = ([Requested c (Single GET [VStr k]); Replied error reply;
                Called (User 1) [error; v]], st', e2).
Proof.
  intros key st.
  assert (Hc : can_connect (hp := sample_host) (exports_defaults loaded) = true)
    by reflexivity.
  assert (Hp : prefix (exports_defaults loaded)
               ++ separator (exports_defaults loaded) <> [])
    by (intros E; discriminate E).
  split; [exact Hc|].
  destruct (get_hands_over_decoded_reply (hp := sample_host) store
              (serve (srv := sample_server)) (fun reply => reply) st loaded
              key (VFun (User 1)) Hc Hp eq_refl)
    as (c & e1 & k & e2 & E & K & R).
  exists c, e1, k, e2. split; [exact E|]. split; [exact K|].
  destruct (serve st (Single GET [VStr k])) as [st' [error reply]].
  exact (proj1 R).
Defined.

(** X15 — [get] against the reference store: for a key that holds
    nothing the callback receives [null] without an error; for a key that
    holds a string it receives the value of the string when it is a JSON
    text and the string itself when it is not.  The store is left as it
    was. *)
Theorem get_reads_the_stored_string {hp : Host} {srv : Server}
  (info_object : jsval -> jsval) (st : store) (e : exports)
  (key : jsval) (g : fn) :
  can_connect (exports_defaults e) = true ->
  prefix (exports_defaults e) ++ separator (exports_defaults e) <> [] ->
  isFunction key = false ->
  exists c e1 k e2,
    redis.client_ e = (Val (Ref c), e1)
    /\ redis.key [key] e1 = (Val k, e2)
    /\ (lookup k st = None ->
        run store serve info_object (commands.get key (VFun g)) st e
        = ([Requested c (Single GET [VStr k]); Replied VNull VNull;
            Called g [VNull; VNull]], st, e2))
    /\ (forall t v, lookup k st = Some (EString t) ->
        JSON_parse t = Parsed v ->
        run store serve info_object (commands.get key (VFun g)) st e
        = ([Requested c (Single GET [VStr k]); Replied VNull (VStr t);
            Called g [VNull; v]], st, e2))
    /\ (forall t, lookup k st = Some (EString t) ->
        JSON_parse t = SyntaxError ->
        run store serve info_object (commands.get key (VFun g)) st e
        = ([Requested c (Single GET [VStr k]); Replied VNull (VStr t);
            Called g [VNull; VStr t]], st, e2)).
Proof.
  intros Hc Hp Hk.
  destruct (client_and_key key e Hc Hp) as (c & e1 & k & e2 & E & K & Hkne & _).
  exists c, e1, k, e2. split; [exact E|]. split; [exact K|].
  split; [|split].
  - intros Hl.
    rewrite (get_runs_any store serve info_object key (VFun g) st st e e1 e2
               c k VNull VNull E K Hkne Hk); [reflexivity|].
    cbn [serve command]. now rewrite Hl.
  - intros t v Hl Ht.
    rewrite (get_runs_any store serve info_object key (VFun g) st st e e1 e2
               c k VNull (VStr t) E K Hkne Hk).
    + unfold commands.parse. cbn [clone to_string]. now rewrite Ht.
    + cbn [serve command]. now rewrite Hl.
  - intros t Hl Ht.
    rewrite (get_runs_any store serve info_object key (VFun g) st st e e1 e2
               c k VNull (VStr t) E K Hkne Hk).
    + unfold commands.parse. cbn [clone to_string]. now rewrite Ht.
    + cbn [serve command]. now rewrite Hl.
Qed.

Lemma get_reads_the_stored_string_witness :
  let st := [(lit "r:ab", EString (lit "plain text"))] in
  let key := VStr (lit "ab") in
  can_connect (hp := sample_host) (exports_defaults loaded) = true
  /\ exists c e1 k e2,
       redis.client_ (hp := sample_host) loaded = (Val (Ref c), e1)
       /\ redis.key (hp := sample_host) [key] e1 = (Val k, e2)
       /\ (forall t, lookup k st = Some (EString t) ->
           JSON_parse t = SyntaxError ->
           run store (serve (srv := sample_server)) (fun reply => reply)
             (commands.get (hp := sample_host) key (VFun (User 1))) st loaded
           = ([Requested c (Single GET [VStr k]); Replied VNull (VStr t);
               Called (User 1) [VNull; VStr t]], st, e2)).
Proof.
  intros st key.
  assert (Hc : can_connect (hp := sample_host) (exports_defaults loaded) = true)
    by reflexivity.
  assert (Hp : prefix (exports_defaults loaded)
               ++ separator (exports_defaults loaded) <> [])
    by (intros E; discriminate E).
  split; [exact Hc|].
  destruct (get_reads_the_stored_string (hp := sample_host)
              (srv := sample_server) (fun reply => reply) st loaded
              key (User 1) Hc Hp eq_refl)
    as (c & e1 & k & e2 & E & K & _ & _ & R).
  exists c, e1, k, e2. split; [exact E|]. split; [exact K|exact R].
Defined.

(** X16 — [hmset].  After the client and the key, [hmset] sends one
    [HMSET] with the key and the flattened value, and hands its callback
    ([noop] without one) the reply's error and the value as it was
    passed, nested, not the flat map and not the store's reply. *)
Theorem hmset_request_and_callback {hp : Host} (St : Type)
  (serve : St -> request -> St * (jsval * jsval))
  (info_object : jsval -> jsval) (st : St) (e : exports)
  (key value done fields : jsval) :
  can_connect (exports_defaults e) = true ->
  prefix (exports_defaults e) ++ separator (exports_defaults e) <> [] ->
  isFunction key = false -> isFunction value = false ->
  flat value = Val fields ->
  exists c e1 k e2,
    redis.client_ e = (Val (Ref c), e1)
    /\ redis.key [key] e1 = (Val k, e2)
    /\ let '(st', (error, reply)) :=
         serve st (Single HMSET [VStr k; fields]) in
       run St serve info_object (commands.hmset key value done) st e
       = ([Requested c (Single HMSET [VStr k; fields]); Replied error reply;
           ending (if isFunction done then done else VFun Noop)
             [error; value]], st', e2).
Proof.
  intros Hc Hp Hk Hv Hf.
  destruct (client_and_key key e Hc Hp) as (c & e1 & k & e2 & E & K & Hkne & _).
  exists c, e1, k, e2. split; [exact E|]. split; [exact K|].
  destruct (serve st _) as [st' [error reply]] eqn:Hs.
  now apply (hmset_runs_any St serve info_object key value done st st' e e1 e2
               c k fields error reply).
Qed.

Lemma hmset_request_and_callback_witness :
  let key := VStr (lit "h") in
  let value := VObj [(lit "a", VObj [(lit "b", VNum 1)])] in
  let fields := VObj [(lit "a.b", VNum 1)] in
  can_connect (hp := sample_host) (exports_defaults loaded) = true
  /\ flat value = Val fields
  /\ exists c e1 k e2,
       redis.client_ (hp := sample_host) loaded = (Val (Ref c), e1)
       /\ redis.key (hp := sample_host) [key] e1 = (Val k, e2)
       /\ let '(st', (error, reply)) :=
            serve (srv := sample_server) [] (Single HMSET [VStr k; fields]) in
          run store serve (fun reply => reply)
            (commands.hmset (hp := sample_host) key value (VFun (User 1)))
            [] loaded
          = ([Requested c (Single HMSET [VStr k; fields]);
              Replied error reply; Called (User 1) [error; value]], st', e2).
Proof.
  intros key value fields.
  assert (Hc : can_connect (hp := sample_host) (exports_defaults loaded) = true)
    by reflexivity.
  assert (Hp : prefix (exports_defaults loaded)
               ++ separator (exports_defaults loaded) <> [])
    by (intros E; discriminate E).
  assert (Hf : flat value = Val fields) by (vm_compute; reflexivity).
  split; [exact Hc|]. split; [exact Hf|].
  exact (hmset_request_and_callback (hp := sample_host) store
           (serve (srv := sample_server)) (fun reply => reply) [] loaded
           key value (VFun (User 1)) fields Hc Hp eq_refl eq_refl Hf).
Defined.

(** X17 — [hgetall].  After the client and the key, [hgetall] sends one
    [HGETALL] with the key and hands its callback ([noop] without one)
    the reply's error and the unflattened reply; a reply that is not an
    object, as [null] for a key that holds nothing, is handed over as it
    is. *)
Theorem hgetall_hands_over_unflattened_reply {hp : Host} (St : Type)
  (serve : St -> request -> St * (jsval * jsval))
  (info_object : jsval -> jsval) (st : St) (e : exports)
  (key done : jsval) :
  can_connect (exports_defaults e) = true ->
  prefix (exports_defaults e) ++ separator (exports_defaults e) <> [] ->
  isFunction key = false ->
  exists c e1 k e2,
    redis.client_ e = (Val (Ref c), e1)
    /\ redis.key [key] e1 = (Val k, e2)
    /\ let '(st', (error, reply)) := serve st (Single HGETALL [VStr k]) in
       let cb := if isFunction done then done else VFun Noop in
       (forall v, unflat reply = Val v ->
          run St serve info_object (commands.hgetall key done) st e
          = ([Requested c (Single HGETALL [VStr k]); Replied error reply;
              ending cb [error; v]], st', e2))
       /\ ((forall o, reply <> VObj o) -> unflat reply = Val reply).
Proof.
  intros Hc Hp Hk.
  destruct (client_and_key key e Hc Hp) as (c & e1 & k & e2 & E & K & Hkne & _).
  exists c, e1, k, e2. split; [exact E|]. split; [exact K|].
  destruct (serve st _) as [st' [error reply]] eqn:Hs.
  cbv zeta. split.
  - intros v Hv.
    rewrite (hgetall_runs_any St serve info_object key done st st' e e1 e2 c k
               error reply E K Hkne Hk Hs), Hv.
    reflexivity.
  - intros Hn. destruct reply; try reflexivity. exfalso. now apply (Hn o).
Qed.

Lemma hgetall_hands_over_unflattened_reply_witness :
  let key := VStr (lit "h") in
  can_connect (hp := sample_host) (exports_defaults loaded) = true
  /\ exists c e1 k e2,
       redis.client_ (hp := sample_host) loaded = (Val (Ref c), e1)
       /\ redis.key (hp := sample_host) [key] e1 = (Val k, e2)
       /\ let '(st', (error, reply)) :=
            serve (srv := sample_server) [] (Single HGETALL [VStr k]) in
          forall v, unflat reply = Val v ->
            run store serve (fun reply => reply)
              (commands.hgetall (hp := sample_host) key (VFun (User 1)))
              [] loaded
            = ([Requested c (Single HGETALL [VStr k]); Replied error reply;
                Called (User 1) [error; v]], st', e2).
Proof.
  intros key.
  assert (Hc : can_connect (hp := sample_host) (exports_defaults loaded) = true)
    by reflexivity.
  assert (Hp : prefix (exports_defaults loaded)
               ++ separator (exports_defaults loaded) <> [])
    by (intros E; discriminate E).
  split; [exact Hc|].
  destruct (hgetall_hands_over_unflattened_reply (hp := sample_host) store
              (serve (srv := sample_server)) (fun reply => reply) [] loaded
              key (VFun (User 1)) Hc Hp eq_refl)
    as (c & e1 & k & e2 & E & K & R).
  exists c, e1, k, e2. split; [exact E|]. split; [exact K|].
  destruct (serve [] (Single HGETALL [VStr k])) as [st' [error reply]].
  exact (proj1 R).
Defined.

(** X18 — [info].  [info(done)] sends one [INFO] on the cached client
    and calls [done] with the reply's error and the [server_info] the
    client keeps, which is the one the library made of this very reply. *)
Theorem info_delivers_server_info {hp : Host} (St : Type)
  (serve : St -> request -> St * (jsval * jsval))
  (info_object : jsval -> jsval) (n0 : nat) (st : St) (e : exports)
  (done : jsval) :
  tracked n0 e ->
  can_connect (exports_defaults e) = true ->
  exists c e1,
    redis.init e = (Val (Ref c), e1)
    /\ let '(st', (error, reply)) := serve st (Single INFO []) in
       exists e2 cl,
         run St serve info_object (redis.info done) st e
         = ([Requested c (Single INFO []); Replied error reply;
             ending done [error; info_object reply]], st', e2)
         /\ nth_error (heap e2) c = Some cl
         /\ server_info cl = info_object reply
         /\ _client e2 = Ref c.
Proof.
  intros T Hc.
  destruct (serve st (Single INFO [])) as [st' [error reply]] eqn:Hs.
  destruct (info_runs St serve info_object n0 done st st' e error reply T Hc Hs)
    as (c & e1 & E & Hlt & R).
  exists c, e1. split; [exact E|].
  destruct (nth_error (heap e1) c) as [cl|] eqn:N;
    [|apply nth_error_None in N; lia].
  eexists _, (set_server_info (info_object reply) cl).
  split; [exact R|]. cbn [heap with_heap _client].
  rewrite nth_error_update_nth, Nat.eqb_refl, N.
  split; [reflexivity|]. split; [reflexivity|].
  now destruct (init_val _ _ _ E) as (<- & _).
Qed.

Lemma info_delivers_server_info_witness :
  tracked 0 loaded
  /\ can_connect (hp := sample_host) (exports_defaults loaded) = true
  /\ exists c e1,
       redis.init (hp := sample_host) loaded = (Val (Ref c), e1)
       /\ let '(st', (error, reply)) :=
            serve (srv := sample_server) [] (Single INFO []) in
          exists e2 cl,
            run store serve (fun reply => VObj [(lit "raw", reply)])
              (redis.info (hp := sample_host) (VFun (User 1))) [] loaded
            = ([Requested c (Single INFO []); Replied error reply;
                Called (User 1) [error; VObj [(lit "raw", reply)]]], st', e2)
            /\ nth_error (heap e2) c = Some cl
            /\ server_info cl = VObj [(lit "raw", reply)]
            /\ _client e2 = Ref c.
Proof.
  assert (T : tracked 0 loaded) by exact (blank_tracked loaded blank_loaded).
  assert (Hc : can_connect (hp := sample_host) (exports_defaults loaded) = true)
    by reflexivity.
  split; [exact T|]. split; [exact Hc|].
  exact (info_delivers_server_info (hp := sample_host) store
           (serve (srv := sample_server))
           (fun reply => VObj [(lit "raw", reply)]) 0 [] loaded
           (VFun (User 1)) T Hc).
Defined.

(** X19 — [clear] backs off when listing the keys fails: if the [KEYS]
    request is answered with an error, the callback ([noop] without one)
    receives that error alone and no further request is made, so nothing
    is deleted. *)
Theorem clear_backs_off_on_error {hp : Host} (St : Type)
  (serve : St -> request -> St * (jsval * jsval))
  (info_object : jsval -> jsval) (pattern : option jstr) (done : jsval)
  (st st1 : St) (e : exports) (error keys : jsval) :
  can_connect (exports_defaults e) = true ->
  let arg := match pattern with Some p => VStr p | None => VUndef end in
  let pat := clear_pattern (exports_defaults e) pattern in
  let cb := if negb (truthy done) then VFun Noop else done in
  serve st (Single KEYS [VStr pat]) = (st1, (error, keys)) ->
  truthy error = true ->
  exists c e1,
    run St serve info_object (redis.clear arg done) st e
    = ([Requested c (Single KEYS [VStr pat]); Replied error keys;
        ending cb [error]], st1, e1).
Proof. apply clear_error. Qed.

Lemma clear_backs_off_on_error_witness :
  can_connect (hp := sample_host) (exports_defaults loaded) = true
  /\ exists c e1,
       run unit refusing (fun reply => reply)
         (redis.clear (hp := sample_host) (VStr (lit "users")) (VFun (User 1)))
         tt loaded
       = ([Requested c (Single KEYS [VStr (lit "r:users*")]);
           Replied (VErr (lit "ERR") None) VUndef;
           Called (User 1) [VErr (lit "ERR") None]], tt, e1).
Proof.
  assert (Hc : can_connect (hp := sample_host) (exports_defaults loaded) = true)
    by reflexivity.
  split; [exact Hc|].
  exact (clear_backs_off_on_error (hp := sample_host) unit refusing
           (fun reply => reply) (Some (lit "users")) (VFun (User 1)) tt tt
           loaded (VErr (lit "ERR") None) VUndef Hc eq_refl eq_refl).
Defined.

(** X20 — [clear] deletes in one transaction: when the [KEYS] request
    succeeds with a list of keys, [clear] makes exactly one more request,
    an [exec] of one [DEL] per listed key in the order listed, and hands
    the callback the error and the replies of that [exec]. *)
Theorem clear_deletes_in_one_transaction {hp : Host} (St : Type)
  (serve : St -> request -> St * (jsval * jsval))
  (info_object : jsval -> jsval) (pattern : option jstr) (done : jsval)
  (st st1 st2 : St) (e : exports) (error error' replies : jsval)
  (l : list jsval) :
  can_connect (exports_defaults e) = true ->
  let arg := match pattern with Some p => VStr p | None => VUndef end in
  let pat := clear_pattern (exports_defaults e) pattern in
  let cb := if negb (truthy done) then VFun Noop else done in
  serve st (Single KEYS [VStr pat]) = (st1, (error, VArr l)) ->
  truthy error = false ->
  serve st1 (Exec (map (fun key => (DEL, [key])) l))
  = (st2, (error', replies)) ->
  exists c e1,
    run St serve info_object (redis.clear arg done) st e
    = ([Requested c (Single KEYS [VStr pat]); Replied error (VArr l);
        Requested c (Exec (map (fun key => (DEL, [key])) l));
        Replied error' replies;
        ending cb [error'; replies]], st2, e1).
Proof. apply clear_success. Qed.

Lemma clear_deletes_in_one_transaction_witness :
  let st := [(lit "r:users:1", EString (lit "a"));
             (lit "r:users:2", EString (lit "b"));
             (lit "r:other", EString (lit "c"))] in
  can_connect (hp := sample_host) (exports_defaults loaded) = true
  /\ exists c e1,
       run store (serve (srv := sample_server)) (fun reply => reply)
         (redis.clear (hp := sample_host) (VStr (lit "users")) VUndef)
         st loaded
       = ([Requested c (Single KEYS [VStr (lit "r:users*")]);
           Replied VNull (VArr [VStr (lit "r:users:1"); VStr (lit "r:users:2")]);
           Requested c (Exec [(DEL, [VStr (lit "r:users:1")]);
                              (DEL, [VStr (lit "r:users:2")])]);
           Replied VNull (VArr [VNum 1; VNum 1]);
           Called Noop [VNull; VArr [VNum 1; VNum 1]]],
          [(lit "r:other", EString (lit "c"))], e1).
Proof.
  intros st.
  assert (Hc : can_connect (hp := sample_host) (exports_defaults loaded) = true)
    by reflexivity.
  split; [exact Hc|].
  exact (clear_deletes_in_one_transaction (hp := sample_host) store
           (serve (srv := sample_server)) (fun reply => reply)
           (Some (lit "users")) VUndef st st
           [(lit "r:other", EString (lit "c"))] loaded VNull VNull
           (VArr [VNum 1; VNum 1])
           [VStr (lit "r:users:1"); VStr (lit "r:users:2")]
           Hc eq_refl eq_refl eq_refl).
Defined.

(** X21 — [count] asks once: the scripts of all distinct non-empty
    patterns go out in a single [exec], one [EVAL] each in the order of
    first occurrence, and the callback receives the error of that [exec]
    and its reply, normalised when it is an array (the single element of
    an array of one, the array itself otherwise) and as it is when it is
    falsy. *)
Theorem count_hands_over_exec_outcome {hp : Host} (St : Type)
  (serve : St -> request -> St * (jsval * jsval))
  (info_object : jsval -> jsval) (patterns : list jstr) (f : fn)
  (st st' : St) (e : exports) (error reply : jsval) :
  can_connect (exports_defaults e) = true ->
  distinct_nonempty patterns <> [] ->
  let queue := map (fun pattern =>
                      (EVAL, [VStr (redis.count_script pattern); VNum 0]))
                 (map VStr (distinct_nonempty patterns)) in
  serve st (Exec queue) = (st', (error, reply)) ->
  exists c e1,
    (forall l, reply = VArr l ->
       run St serve info_object
         (redis.count (map VStr patterns ++ [VFun f])) st e
       = ([Requested c (Exec queue); Replied error reply;
           Called f [error; normalized l]], st', e1))
    /\ (truthy reply = false ->
        run St serve info_object
          (redis.count (map VStr patterns ++ [VFun f])) st e
        = ([Requested c (Exec queue); Replied error reply;
            Called f [error; reply]], st', e1)).
Proof.
  intros Hc Hne queue Hs.
  destruct (count_runs_any St serve info_object patterns f st st' e error reply
              Hc Hne Hs) as (c & e1 & R).
  exists c, e1. split.
  - intros l ->. exact R.
  - intros Ht. rewrite R, Ht. destruct reply; try reflexivity. discriminate.
Qed.

Lemma count_hands_over_exec_outcome_witness :
  let patterns := [lit "a*"; lit "b*"; lit "a*"] in
  can_connect (hp := sample_host) (exports_defaults loaded) = true
  /\ distinct_nonempty patterns = [lit "a*"; lit "b*"]
  /\ exists c e1,
       run unit refusing (fun reply => reply)
         (redis.count (hp := sample_host)
            (map VStr patterns ++ [VFun (User 1)])) tt loaded
       = ([Requested c
             (Exec [(EVAL, [VStr (redis.count_script (VStr (lit "a*")));
                            VNum 0]);
                    (EVAL, [VStr (redis.count_script (VStr (lit "b*")));
                            VNum 0])]);
           Replied (VErr (lit "ERR") None) VUndef;
           Called (User 1) [VErr (lit "ERR") None; VUndef]], tt, e1).
Proof.
  intros patterns.
  assert (Hc : can_connect (hp := sample_host) (exports_defaults loaded) = true)
    by reflexivity.
  assert (Hne : distinct_nonempty patterns <> [])
    by (intros E; discriminate E).
  split; [exact Hc|]. split; [reflexivity|].
  destruct (count_hands_over_exec_outcome (hp := sample_host) unit refusing
              (fun reply => reply) patterns (User 1) tt tt loaded
              (VErr (lit "ERR") None) VUndef Hc Hne eq_refl)
    as (c & e1 & _ & R).
  exists c, e1. exact (R eq_refl).
Defined.

(** X22 — without a connection nothing is sent.  When the settings hold
    a connection string of another protocol and one of the three clients
    is still missing, [set], [get], [hmset], [hgetall], [info], [clear]
    and [count] with a pattern throw [Invalid Connection String. Require
    redis: protocol] before any request: the store and the module state
    are as before. *)
Theorem commands_fail_without_connection {hp : Host} (St : Type)
  (serve : St -> request -> St * (jsval * jsval))
  (info_object : jsval -> jsval) (st : St) (e : exports)
  (key value expiry time strategy done : jsval) (patterns : list jsval) :
  can_connect (exports_defaults e) = false ->
  (exists w, missing w e = true) ->
  isFunction key = false -> isFunction value = false ->
  let thrown := ([Thrown invalid_connection], st, e) in
  run St serve info_object
    (commands.set key value expiry time strategy done) st e = thrown
  /\ run St serve info_object (commands.get key done) st e = thrown
  /\ run St serve info_object (commands.hmset key value done) st e = thrown
  /\ run St serve info_object (commands.hgetall key done) st e = thrown
  /\ run St serve info_object (redis.info done) st e = thrown
  /\ run St serve info_object (redis.clear key done) st e = thrown
  /\ (counted patterns <> [] ->
      run St serve info_object (redis.count patterns) st e = thrown).
Proof. apply commands_throw. Qed.

Lemma commands_fail_without_connection_witness :
  let e := with_defaults (merge defaults (with_url "http://localhost"))
             loaded in
  can_connect (hp := sample_host) (exports_defaults e) = false
  /\ missing The_client e = true
  /\ run store (serve (srv := sample_server)) (fun reply => reply)
       (commands.get (hp := sample_host) (VStr (lit "ab")) (VFun (User 1)))
       [] e
     = ([Thrown invalid_connection], [], e).
Proof.
  intros e.
  assert (Hc : can_connect (hp := sample_host) (exports_defaults e) = false)
    by reflexivity.
  assert (Hm : exists w, missing w e = true) by (exists The_client; reflexivity).
  split; [exact Hc|]. split; [reflexivity|].
  destruct (commands_fail_without_connection (hp := sample_host) store
              (serve (srv := sample_server)) (fun reply => reply) [] e
              (VStr (lit "ab")) VUndef VUndef VUndef VUndef (VFun (User 1)) []
              Hc Hm eq_refl eq_refl) as (_ & G & _).
  exact G.
Defined.

(** X23 — the store operations leave an initialised module alone: once
    the three clients are cached, running [set], [get], [hmset] or
    [hgetall] with a given key, [clear] or [count], against any store and
    whatever it replies, creates no client and changes neither the cached
    references nor the settings: the module state is the same after as
    before. *)
Theorem operations_keep_module_state {hp : Host} (St : Type)
  (serve : St -> request -> St * (jsval * jsval))
  (info_object : jsval -> jsval) (st : St) (e : exports)
  (key value expiry time strategy done pattern : jsval)
  (patterns : list jsval) :
  (forall w, slot_truthy (slot_of w e) = true) ->
  concat_args [key] <> [] ->
  snd (run St serve info_object
         (commands.set key value expiry time strategy done) st e) = e
  /\ snd (run St serve info_object (commands.get key done) st e) = e
  /\ snd (run St serve info_object (commands.hmset key value done) st e) = e
  /\ snd (run St serve info_object (commands.hgetall key done) st e) = e
  /\ snd (run St serve info_object (redis.clear pattern done) st e) = e
  /\ snd (run St serve info_object (redis.count patterns) st e) = e.
Proof. apply commands_keep_module. Qed.

Lemma operations_keep_module_state_witness :
  let e := snd (redis.init (hp := sample_host) loaded) in
  (forall w, slot_truthy (slot_of w e) = true)
  /\ snd (run store (serve (srv := sample_server)) (fun reply => reply)
            (commands.set (hp := sample_host) (VStr (lit "ab")) (VNum 5)
               (VFun (User 1)) VUndef VUndef VUndef) [] e) = e.
Proof.
  intros e.
  assert (Hall : forall w, slot_truthy (slot_of w e) = true)
    by (intros []; reflexivity).
  assert (Ha : concat_args [VStr (lit "ab")] <> []) by (intros E; discriminate E).
  split; [exact Hall|].
  destruct (operations_keep_module_state (hp := sample_host) store
              (serve (srv := sample_server)) (fun reply => reply) [] e
              (VStr (lit "ab")) (VNum 5) (VFun (User 1)) VUndef VUndef VUndef
              VUndef [] Hall Ha) as (G & _).
  exact G.
Defined.

(** X24 — [stringify] returns a string for every value except
    [undefined] and functions, for which it returns [undefined]: a string
    comes back as it is, any other value as its JSON text, which is never
    empty.  The result is falsy, hence left out of a request by
    [_.compact], exactly for [undefined], a function and the empty
    string. *)
Theorem stringify_gives_string_or_undefined {hp : Host} (v : jsval) :
  match v with
  | VUndef | VFun _ => commands.stringify v = VUndef
  | VStr s => commands.stringify v = VStr s
  | _ => exists t, commands.stringify v = VStr t /\ t <> []
                   /\ JSON_stringify v = Some t
  end
  /\ (sent_if true (commands.stringify v) = []
      <-> v = VUndef \/ isFunction v = true \/ v = VStr []).
Proof.
  split; [apply stringify_cases|].
  pose proof (stringify_cases v) as H.
  destruct v as [| |b|n|s|l|o|f|m st];
    try (rewrite H; split; [intros _|reflexivity]; auto; fail);
    try (destruct H as (t & -> & Ht & _); unfold sent_if;
         rewrite andb_true_r;
         assert (T : truthy (VStr t) = true)
           by (destruct t; [congruence|reflexivity]);
         rewrite T; split; [discriminate|];
         intros [X|[X|X]]; discriminate X).
  rewrite H. unfold sent_if. rewrite andb_true_r. destruct s as [|c s].
  - split; [auto|reflexivity].
  - cbn. split; [discriminate|]. intros [X|[X|X]]; discriminate X.
Qed.

(** X25 — [hmset] without a value.  With [undefined] or [null] as value,
    [hmset] throws once it has the client and the key ([flat] cannot list
    the keys of such a value): no request is sent, the store is as
    before and the callback is not called. *)
Theorem hmset_without_value_throws {hp : Host} (St : Type)
  (serve : St -> request -> St * (jsval * jsval))
  (info_object : jsval -> jsval) (st : St) (e : exports)
  (key value done : jsval) :
  can_connect (exports_defaults e) = true ->
  isFunction key = false ->
  value = VUndef \/ value = VNull ->
  exists c e1 k e2 x,
    redis.client_ e = (Val (Ref c), e1)
    /\ redis.key [key] e1 = (Val k, e2)
    /\ flat value = Exn x
    /\ run St serve info_object (commands.hmset key value done) st e
       = ([Thrown x], st, e2).
Proof.
  intros Hc Hk Hv. destruct (init_ok e Hc) as (c & e1 & E & _).
  destruct (key_total [key] e1) as (x & l & e2 & K & _).
  assert (E' : redis.client_ e = (Val (Ref c), e1)) by exact E.
  exists c, e1. eexists _, e2, _. split; [exact E'|]. split; [exact K|].
  unfold commands.hmset. rewrite Hk.
  destruct Hv as [-> | ->]; (split; [reflexivity|]); cbn [isFunction];
    rewrite (run_Do _ _ _ _ _ _ _ _ _ E'), (run_Do _ _ _ _ _ _ _ _ _ K);
    reflexivity.
Qed.

Lemma hmset_without_value_throws_witness :
  can_connect (hp := sample_host) (exports_defaults loaded) = true
  /\ exists c e1 k e2 x,
       redis.client_ (hp := sample_host) loaded = (Val (Ref c), e1)
       /\ redis.key (hp := sample_host) [VStr (lit "h")] e1 = (Val k, e2)
       /\ flat VUndef = Exn x
       /\ run store (serve (srv := sample_server)) (fun reply => reply)
            (commands.hmset (hp := sample_host) (VStr (lit "h")) VUndef
               (VFun (User 1))) [] loaded
          = ([Thrown x], [], e2).
Proof.
  assert (Hc : can_connect (hp := sample_host) (exports_defaults loaded) = true)
    by reflexivity.
  split; [exact Hc|].
  exact (hmset_without_value_throws (hp := sample_host) store
           (serve (srv := sample_server)) (fun reply => reply) [] loaded
           (VStr (lit "h")) VUndef (VFun (User 1)) Hc eq_refl
           (or_introl eq_refl)).
Defined.
